(** * FeatureRep: the feature/placement tree of the multibody modeling layer

    A shallow embedding of [MultibodyModeling/FeatureRep.cpp] and the
    properties its specification states about it. *)

From Stdlib Require Import ZArith Ascii String List Lia Bool.
From stdpp Require Import base option list gmap strings.

(** ** Name and path validation *)

Module Validator.

(** [isalnum] of the C locale on a [char]. *)
Definition isalnum (c : ascii) : bool :=
  let n := nat_of_ascii c in
  (Nat.leb 48 n && Nat.leb n 57) || (Nat.leb 65 n && Nat.leb n 90)
  || (Nat.leb 97 n && Nat.leb n 122).

Definition isNameChar (c : ascii) : bool := isalnum c || Ascii.eqb c "_"%char.

(** The [for] loop of [isLegalFeatureName]: the first character that is
    neither alphanumeric nor an underscore makes the name illegal. *)
Fixpoint allNameChars (n : string) : bool :=
  match n with
  | EmptyString => true
  | String c n' => if negb (isNameChar c) then false else allNameChars n'
  end.

Definition isLegalFeatureName (n : string) : bool :=
  if Nat.eqb (String.length n) 0 then false else allNameChars n.

Definition isSlash (c : ascii) : bool := Ascii.eqb c "/"%char.

(** The inner [while] of [isLegalFeaturePathname]: characters are appended
    to [t] until the end of the pathname or a slash; the second component
    is the pathname from position [nxt] on. *)
Fixpoint readSegment (rest : string) (t : string) : string * string :=
  match rest with
  | EmptyString => (t, EmptyString)
  | String c rest' =>
      if isSlash c then (t, rest) else readSegment rest' (t +:+ String c EmptyString)
  end.

(** [++nxt]: skips the slash; at the end of the pathname the extra
    increment is harmless. *)
Definition skipOne (rest : string) : string :=
  match rest with
  | EmptyString => EmptyString
  | String _ rest' => rest'
  end.

(** The outer [while (nxt < end)].  [rest] is the pathname from [nxt] on.
    Every iteration consumes at least one character, so the length of the
    pathname is enough fuel (see [pathLoop_fuel]). *)
Fixpoint pathLoop (fuel : nat) (rest : string) (foundAtLeastOne : bool)
    (segments : list string) : bool * list string :=
  match fuel with
  | O => (foundAtLeastOne, segments)
  | S fuel' =>
      match rest with
      | EmptyString => (foundAtLeastOne, segments)
      | String _ _ =>
          let '(t, rest') := readSegment rest EmptyString in
          let segments' := segments ++ [t] in
          if negb (isLegalFeatureName t) then (false, segments')
          else pathLoop fuel' (skipOne rest') true segments'
      end
  end.

(** Returns the verdict and the segments captured (the [segments] vector
    as the caller finds it). *)
Definition isLegalFeaturePathname (pathname : string) : bool * list string :=
  pathLoop (String.length pathname) pathname false [].

(** *** Specification side: splitting on slashes *)

(** The pieces of [s] between slashes; [cur] is the piece being read. *)
Fixpoint splitFrom (s : string) (cur : string) : list string :=
  match s with
  | EmptyString => [cur]
  | String c s' =>
      if isSlash c then cur :: splitFrom s' EmptyString
      else splitFrom s' (cur +:+ String c EmptyString)
  end.

Definition splitOnSlash (s : string) : list string := splitFrom s EmptyString.

Fixpoint joinWithSlash (segs : list string) : string :=
  match segs with
  | [] => EmptyString
  | [s] => s
  | s :: segs' => s +:+ "/" +:+ joinWithSlash segs'
  end.

(** The last character of a string, if any. *)
Fixpoint lastChar (s : string) : option ascii :=
  match s with
  | EmptyString => None
  | String c EmptyString => Some c
  | String _ s' => lastChar s'
  end.

(** The walk of [isLegalFeaturePathname] over the pieces of a pathname: a
    final empty piece (empty pathname, trailing slash) is never reached,
    and the walk stops at the first illegal piece, which is captured. *)
Fixpoint validatePieces (pieces : list string) : bool * list string :=
  match pieces with
  | [] => (true, [])
  | s :: pieces' =>
      match pieces', s with
      | [], EmptyString => (true, [])
      | _, _ =>
          if isLegalFeatureName s
          then let '(b, out) := validatePieces pieces' in (b, s :: out)
          else (false, [s])
      end
  end.

Definition nonEmpty {A} (l : list A) : bool :=
  match l with [] => false | _ => true end.

Definition legal (s : string) : Prop := isLegalFeatureName s = true.

End Validator.

(** ** The feature tree *)

Module Model.

(** The categories of value a placement produces. *)
Inductive PlacementType :=
  | RealPlacementType
  | Vec3PlacementType
  | StationPlacementType
  | DirectionPlacementType
  | OrientationPlacementType
  | FramePlacementType.

Global Instance PlacementType_eq_dec : EqDecision PlacementType.
Proof. solve_decision. Defined.

(** Modelled from the spec: [PlacementRep::getPlacementTypeName] is not in
    the source file; the names are those of the six categories, as the
    [useFeatureAs...Placement] defaults spell them. *)
Definition getPlacementTypeName (t : PlacementType) : string :=
  match t with
  | RealPlacementType => "Real"
  | Vec3PlacementType => "Vec3"
  | StationPlacementType => "Station"
  | DirectionPlacementType => "Direction"
  | OrientationPlacementType => "Orientation"
  | FramePlacementType => "Frame"
  end.

(** *** Pointers

    A [Feature] handle is either free-standing or an element of the
    [subfeatures] vector of its parent's rep.  The address of a handle is
    therefore a free-standing handle together with the indices leading
    down to it. *)
Definition handle := nat.

Record FeaturePtr := FeatureAt { base : handle; steps : list nat }.

Global Instance FeaturePtr_eq_dec : EqDecision FeaturePtr.
Proof. solve_decision. Defined.

(** The address of element [slot] of the [placementExpressions] (or
    [placementValues]) vector of the rep of [holder]. *)
Record SlotPtr := SlotAt { holder : FeaturePtr; slot : nat }.

Global Instance SlotPtr_eq_dec : EqDecision SlotPtr.
Proof. solve_decision. Defined.

Definition rootPtr (h : handle) : FeaturePtr := FeatureAt h [].

(** [&f.rep->subfeatures[i]] *)
Definition childPtr (f : FeaturePtr) (i : nat) : FeaturePtr :=
  FeatureAt (base f) (steps f ++ [i]).

(** *** Reps *)

Record PlacementRep := mkPlacementRep {
  placementType : PlacementType;
  (** the Features the expression mentions directly; a reference that a
      copy could not keep is null *)
  featureRefs : list (option FeaturePtr);
  (** the value slot allocated to the expression, if any *)
  valueRef : option SlotPtr;
  owner : option FeaturePtr;
  indexInOwner : Z
}.

Record PlacementValueRep := mkPlacementValueRep {
  valueOwner : option FeaturePtr;
  valueIndexInOwner : Z
}.

#[warning="-register-all"] Inductive FeatureRep := mkFeatureRep {
  name : string;
  (** what the virtual [getFeatureTypeName] answers *)
  featureTypeName : string;
  (** what the virtual [getRequiredPlacementType] answers *)
  requiredPlacementType : PlacementType;
  parent : option FeaturePtr;
  indexInParent : Z;
  subfeatures : list FeatureRep;
  placementExpressions : list PlacementRep;
  placementValues : list PlacementValueRep;
  (** the active placement: a pointer into [placementExpressions] of this
      Feature or of an ancestor *)
  placement : option SlotPtr
}.

(** The free-standing handles that have a rep. *)
Abbreviation World := (gmap handle FeatureRep).

Definition setParentFeature (r : FeatureRep) (p : option FeaturePtr) (i : Z) : FeatureRep :=
  mkFeatureRep (name r) (featureTypeName r) (requiredPlacementType r) p i
    (subfeatures r) (placementExpressions r) (placementValues r) (placement r).

Definition setSubfeatures (r : FeatureRep) (l : list FeatureRep) : FeatureRep :=
  mkFeatureRep (name r) (featureTypeName r) (requiredPlacementType r) (parent r)
    (indexInParent r) l (placementExpressions r) (placementValues r) (placement r).

Definition setPlacementExpressions (r : FeatureRep) (l : list PlacementRep) : FeatureRep :=
  mkFeatureRep (name r) (featureTypeName r) (requiredPlacementType r) (parent r)
    (indexInParent r) (subfeatures r) l (placementValues r) (placement r).

Definition setPlacementValues (r : FeatureRep) (l : list PlacementValueRep) : FeatureRep :=
  mkFeatureRep (name r) (featureTypeName r) (requiredPlacementType r) (parent r)
    (indexInParent r) (subfeatures r) (placementExpressions r) l (placement r).

Definition setPlacement (r : FeatureRep) (p : option SlotPtr) : FeatureRep :=
  mkFeatureRep (name r) (featureTypeName r) (requiredPlacementType r) (parent r)
    (indexInParent r) (subfeatures r) (placementExpressions r) (placementValues r) p.

Definition setOwner (p : PlacementRep) (o : option FeaturePtr) (i : Z) : PlacementRep :=
  mkPlacementRep (placementType p) (featureRefs p) (valueRef p) o i.

Definition setFeatureRefs (p : PlacementRep) (l : list (option FeaturePtr)) : PlacementRep :=
  mkPlacementRep (placementType p) l (valueRef p) (owner p) (indexInOwner p).

Definition setValueRef (p : PlacementRep) (v : option SlotPtr) : PlacementRep :=
  mkPlacementRep (placementType p) (featureRefs p) v (owner p) (indexInOwner p).

Definition setValueOwner (v : PlacementValueRep) (o : option FeaturePtr) (i : Z)
  : PlacementValueRep := mkPlacementValueRep o i.

(** *** Outcomes of a call *)

Inductive Exception :=
  | FeatureCantBeUsedAsPlacement (featureName featureTypeName placementTypeName : string)
  | PlacementCantBeUsedForThisFeature (placementTypeName featureName featureTypeName : string)
  | FeatureAndPlacementOnDifferentTrees (featureName offenderName : string)
  | PlacementMustBeLocal (method ownerName offenderName : string).

Inductive Result (A : Type) : Type :=
  | Ok (a : A)
  | Throw (e : Exception)
  | AssertionFailed
  (** a null or dangling pointer was dereferenced, or a vector indexed
      out of range *)
  | Undefined
  | OutOfFuel.
Arguments Ok {A} a.
Arguments Throw {A} e.
Arguments AssertionFailed {A}.
Arguments Undefined {A}.
Arguments OutOfFuel {A}.

Global Instance Result_bind : MBind Result := fun A B f m =>
  match m with
  | Ok a => f a
  | Throw e => Throw e
  | AssertionFailed => AssertionFailed
  | Undefined => Undefined
  | OutOfFuel => OutOfFuel
  end.

Definition assert (b : bool) : Result unit := if b then Ok tt else AssertionFailed.

Definition fromOption {A} (o : option A) : Result A :=
  match o with Some a => Ok a | None => Undefined end.

(** [f i x] for the elements [x] of a vector in order, [i] their index;
    the first failure ends the loop. *)
Fixpoint mapM_from {A B} (f : nat -> A -> Result B) (i : nat) (l : list A)
  : Result (list B) :=
  match l with
  | [] => Ok []
  | x :: l' => y ← f i x; ys ← mapM_from f (S i) l'; Ok (y :: ys)
  end.

(** *** Dereferencing *)

Fixpoint descend (rep : FeatureRep) (path : list nat) : option FeatureRep :=
  match path with
  | [] => Some rep
  | i :: path' =>
      match subfeatures rep !! i with
      | Some c => descend c path'
      | None => None
      end
  end.

Definition lookupRep (w : World) (f : FeaturePtr) : option FeatureRep :=
  match w !! base f with
  | Some r => descend r (steps f)
  | None => None
  end.

Definition getRep (w : World) (f : FeaturePtr) : Result FeatureRep :=
  fromOption (lookupRep w f).

Definition lookupPlacement (w : World) (p : SlotPtr) : option PlacementRep :=
  match lookupRep w (holder p) with
  | Some r => placementExpressions r !! slot p
  | None => None
  end.

Definition getPlacementRep (w : World) (p : SlotPtr) : Result PlacementRep :=
  fromOption (lookupPlacement w p).

Definition lookupPlacementValue (w : World) (p : SlotPtr) : option PlacementValueRep :=
  match lookupRep w (holder p) with
  | Some r => placementValues r !! slot p
  | None => None
  end.

Definition getPlacementValueRep (w : World) (p : SlotPtr) : Result PlacementValueRep :=
  fromOption (lookupPlacementValue w p).

(** In-place change of the rep at the end of [path]. *)
Fixpoint updateAt (rep : FeatureRep) (path : list nat) (g : FeatureRep -> FeatureRep)
  : FeatureRep :=
  match path with
  | [] => g rep
  | i :: path' =>
      match subfeatures rep !! i with
      | Some c => setSubfeatures rep (<[i := updateAt c path' g]> (subfeatures rep))
      | None => rep
      end
  end.

Definition updRep (w : World) (f : FeaturePtr) (g : FeatureRep -> FeatureRep) : World :=
  match w !! base f with
  | Some r => <[base f := updateAt r (steps f) g]> w
  | None => w
  end.

Definition getParentPtr (w : World) (f : FeaturePtr) : Result (option FeaturePtr) :=
  rep ← getRep w f; Ok (parent rep).

(** [&f.getRep().getSubfeature(i)] *)
Definition getSubfeature (w : World) (f : FeaturePtr) (i : Z) : Result FeaturePtr :=
  rep ← getRep w f;
  if (0 <=? i)%Z && (i <? Z.of_nat (length (subfeatures rep)))%Z
  then Ok (childPtr f (Z.to_nat i))
  else Undefined.

(** [&f.getRep().getPlacementExpression(i)] *)
Definition getPlacementExpression (w : World) (f : FeaturePtr) (i : Z) : Result SlotPtr :=
  rep ← getRep w f;
  if (0 <=? i)%Z && (i <? Z.of_nat (length (placementExpressions rep)))%Z
  then Ok (SlotAt f (Z.to_nat i))
  else Undefined.

(** [&f.getRep().getPlacementValue(i)] *)
Definition getPlacementValue (w : World) (f : FeaturePtr) (i : Z) : Result SlotPtr :=
  rep ← getRep w f;
  if (0 <=? i)%Z && (i <? Z.of_nat (length (placementValues rep)))%Z
  then Ok (SlotAt f (Z.to_nat i))
  else Undefined.

(** *** Names and roots *)

Fixpoint getFullName (fuel : nat) (w : World) (f : FeaturePtr) : Result string :=
  match fuel with
  | O => OutOfFuel
  | S fuel' =>
      rep ← getRep w f;
      s ← match parent rep with
          | Some p => pn ← getFullName fuel' w p; Ok (pn +:+ "/")
          | None => Ok EmptyString
          end;
      Ok (s +:+ name rep)
  end.

(** The six [useFeatureAs...Placement] defaults of the base class, one per
    category: a Feature kind that does not override them cannot be used as
    a placement. *)
Definition useFeatureAsPlacement (fuel : nat) (w : World) (this : FeaturePtr)
    (category : PlacementType) : Result PlacementRep :=
  rep ← getRep w this;
  thisName ← getFullName fuel w this;
  Throw (FeatureCantBeUsedAsPlacement thisName (featureTypeName rep)
           (getPlacementTypeName category)).

Fixpoint findRootFeature (fuel : nat) (w : World) (f : FeaturePtr) : Result FeaturePtr :=
  match fuel with
  | O => OutOfFuel
  | S fuel' =>
      rep ← getRep w f;
      match parent rep with
      | Some p => findRootFeature fuel' w p
      | None => Ok f
      end
  end.

(** *** Tree navigation *)

(** The [while (fp != oldp)] loop of [isFeatureInFeatureTree]. *)
Fixpoint walkUp (fuel : nat) (w : World) (oldp fp : FeaturePtr) (trace : list Z)
  : Result (bool * list Z) :=
  match fuel with
  | O => OutOfFuel
  | S fuel' =>
      if bool_decide (fp = oldp) then Ok (true, trace)
      else
        fpParent ← getParentPtr w fp;
        match fpParent with
        | None => Ok (false, [])
        | Some pp =>
            rep ← getRep w fp;
            walkUp fuel' w oldp pp (trace ++ [indexInParent rep])
        end
  end.

(** The verdict and the trace as the caller finds it. *)
Definition isFeatureInFeatureTree (fuel : nat) (w : World) (oldRoot f : FeaturePtr)
  : Result (bool * list Z) :=
  walkUp fuel w oldRoot f [].

Definition isPlacementInFeatureTree (fuel : nat) (w : World) (oldRoot : FeaturePtr)
    (p : PlacementRep) : Result bool :=
  match owner p with
  | None => Ok false
  | Some o => '(b, _) ← isFeatureInFeatureTree fuel w oldRoot o; Ok b
  end.

(** The [for] loop of [findCorrespondingFeature]; [indices] is the trace
    read from its last element to its first. *)
Fixpoint stepDown (w : World) (newTreeRef : FeaturePtr) (indices : list Z)
  : Result FeaturePtr :=
  match indices with
  | [] => Ok newTreeRef
  | i :: indices' => c ← getSubfeature w newTreeRef i; stepDown w c indices'
  end.

Definition findCorrespondingFeature (fuel : nat) (w : World)
    (oldRoot f newRoot : FeaturePtr) : Result (option FeaturePtr) :=
  '(found, trace) ← isFeatureInFeatureTree fuel w oldRoot f;
  if negb found then Ok None
  else newTreeRef ← stepDown w newRoot (rev trace); Ok (Some newTreeRef).

(** The loops that collect the path from a node to its root: the node
    is pushed, then replaced by its parent, until the parent is null. *)
Fixpoint pathToRoot (fuel : nat) (w : World) (fp : option FeaturePtr)
    (path : list FeaturePtr) : Result (list FeaturePtr) :=
  match fp with
  | None => Ok path
  | Some f =>
      match fuel with
      | O => OutOfFuel
      | S fuel' => pp ← getParentPtr w f; pathToRoot fuel' w pp (path ++ [f])
      end
  end.

(** The downward scan of [findYoungestCommonAncestor]; the two lists are
    the paths read from their last element (the root) to their first. *)
Fixpoint scanDown (l1 l2 : list FeaturePtr) (ancestor : option FeaturePtr)
  : option FeaturePtr :=
  match l1, l2 with
  | a :: l1', b :: l2' =>
      if bool_decide (a = b) then scanDown l1' l2' (Some a) else ancestor
  | _, _ => ancestor
  end.

Definition findYoungestCommonAncestor (fuel : nat) (w : World) (f1 f2 : FeaturePtr)
  : Result (option FeaturePtr) :=
  f1path ← pathToRoot fuel w (Some f1) [];
  f2path ← pathToRoot fuel w (Some f2) [];
  Ok (scanDown (rev f1path) (rev f2path) None).

(** *** The placement capability surface

    [PlacementRep] is implemented outside the source file; its member
    functions used by [FeatureRep] are modelled from the specification. *)

(** Modelled from the spec: [PlacementRep::isLimitedToSubtree] reports
    whether every Feature referenced lies within the subtree of [root], and
    names the first offender if not. *)
Fixpoint isLimitedToSubtree (fuel : nat) (w : World) (refs : list (option FeaturePtr))
    (root : FeaturePtr) : Result (option FeaturePtr) :=
  match refs with
  | [] => Ok None
  | None :: refs' => isLimitedToSubtree fuel w refs' root
  | Some r :: refs' =>
      '(inTree, _) ← isFeatureInFeatureTree fuel w root r;
      if negb inTree then Ok (Some r) else isLimitedToSubtree fuel w refs' root
  end.

(** Modelled from the spec: [PlacementRep::findAncestorFeature] folds
    [findYoungestCommonAncestor] over the referenced Features, starting
    from the bound. *)
Fixpoint findAncestorFeature (fuel : nat) (w : World) (refs : list (option FeaturePtr))
    (youngestAllowed : FeaturePtr) : Result (option FeaturePtr) :=
  match refs with
  | [] => Ok (Some youngestAllowed)
  | None :: refs' => findAncestorFeature fuel w refs' youngestAllowed
  | Some r :: refs' =>
      ancestor ← findYoungestCommonAncestor fuel w youngestAllowed r;
      match ancestor with
      | None => Ok None
      | Some a => findAncestorFeature fuel w refs' a
      end
  end.

(** Modelled from the spec: [PlacementRep::isConstant], a placement that
    references no Features. *)
Definition isConstant (p : PlacementRep) : bool :=
  forallb (fun r => match r with None => true | Some _ => false end) (featureRefs p).

(** The loop over the references of one placement; [viaPlacement] is the
    test on the active placement of a referenced Feature. *)
Fixpoint dependsOnRefs (viaPlacement : PlacementRep -> Result bool) (w : World)
    (f : FeaturePtr) (refs : list (option FeaturePtr)) : Result bool :=
  match refs with
  | [] => Ok false
  | None :: refs' => dependsOnRefs viaPlacement w f refs'
  | Some g :: refs' =>
      if bool_decide (g = f) then Ok true
      else
        rep ← getRep w g;
        d ← match placement rep with
            | None => Ok false
            | Some pp => q ← getPlacementRep w pp; viaPlacement q
            end;
        if (d : bool) then Ok true else dependsOnRefs viaPlacement w f refs'
  end.

(** Modelled from the spec: [PlacementRep::dependsOn], the transitive
    dependency test: a placement depends on [f] when it references [f], or
    references a Feature whose active placement depends on [f]. *)
Fixpoint dependsOn (fuel : nat) (w : World) (p : PlacementRep) (f : FeaturePtr)
  : Result bool :=
  match fuel with
  | O => OutOfFuel
  | S fuel' => dependsOnRefs (fun q => dependsOn fuel' w q f) w f (featureRefs p)
  end.

(** Modelled from the spec: [PlacementRep::cloneUnownedWithNewHandle], a
    structurally independent, unowned copy. *)
Definition cloneUnownedWithNewHandle (p : PlacementRep) : PlacementRep :=
  setOwner p None (-1).

Definition cloneUnownedValueWithNewHandle (v : PlacementValueRep) : PlacementValueRep :=
  setValueOwner v None (-1).

(** *** Registration *)

Definition pushPlacementExpression (p : PlacementRep) (r : FeatureRep) : FeatureRep :=
  setPlacementExpressions r (placementExpressions r ++ [p]).

Definition pushPlacementValue (v : PlacementValueRep) (r : FeatureRep) : FeatureRep :=
  setPlacementValues r (placementValues r ++ [v]).

(** Returns the new world and the address of the stored copy. *)
Definition addPlacementLike (fuel : nat) (w : World) (this : FeaturePtr) (p : PlacementRep)
  : Result (World * SlotPtr) :=
  rep ← getRep w this;
  offender ← isLimitedToSubtree fuel w (featureRefs p) this;
  match offender with
  | Some o =>
      thisName ← getFullName fuel w this;
      offenderName ← getFullName fuel w o;
      Throw (PlacementMustBeLocal "FeatureRep::addPlacementLike" thisName offenderName)
  | None =>
      let index := length (placementExpressions rep) in
      let newPlacement :=
        setOwner (cloneUnownedWithNewHandle p) (Some this) (Z.of_nat index) in
      Ok (updRep w this (pushPlacementExpression newPlacement), SlotAt this index)
  end.

Definition addPlacementValueLike (w : World) (this : FeaturePtr) (v : PlacementValueRep)
  : Result (World * SlotPtr) :=
  rep ← getRep w this;
  let index := length (placementValues rep) in
  let newPlacementValue :=
    setValueOwner (cloneUnownedValueWithNewHandle v) (Some this) (Z.of_nat index) in
  Ok (updRep w this (pushPlacementValue newPlacementValue), SlotAt this index).

Section Place.

(** The virtual [convertToRequiredPlacementType] of the concrete Feature
    kinds, an external collaborator: given the rep of the Feature and a
    placement, it answers a placement of the required type or a handle
    without rep. *)
Variable convertToRequiredPlacementType :
  FeatureRep -> PlacementRep -> Result (option PlacementRep).

(** The type reconciliation at the head of [place]. *)
Definition pTweaked (rep : FeatureRep) (p : PlacementRep) : Result (option PlacementRep) :=
  if bool_decide (placementType p = requiredPlacementType rep) then Ok (Some p)
  else convertToRequiredPlacementType rep p.

(** [postProcessNewPlacement] is the hook of the base class, which does
    nothing. *)
Definition place (fuel : nat) (w : World) (this : FeaturePtr) (p : PlacementRep)
  : Result World :=
  rep ← getRep w this;
  tweaked ← pTweaked rep p;
  match tweaked with
  | None =>
      thisName ← getFullName fuel w this;
      Throw (PlacementCantBeUsedForThisFeature
               (getPlacementTypeName (placementType p)) thisName (featureTypeName rep))
  | Some q =>
      _ ← assert (bool_decide (placementType q = requiredPlacementType rep));
      root ← findRootFeature fuel w this;
      offender ← isLimitedToSubtree fuel w (featureRefs q) root;
      match offender with
      | Some o =>
          thisName ← getFullName fuel w this;
          offenderName ← getFullName fuel w o;
          Throw (FeatureAndPlacementOnDifferentTrees thisName offenderName)
      | None =>
          let youngestAllowed :=
            match parent rep with Some pp => pp | None => this end in
          commonAncestor ← findAncestorFeature fuel w (featureRefs q) youngestAllowed;
          match commonAncestor with
          | None => AssertionFailed
          | Some ca =>
              '(w1, good) ← addPlacementLike fuel w ca q;
              goodRep ← getPlacementRep w1 good;
              match owner goodRep with
              | None => AssertionFailed
              | Some o =>
                  _ ← assert (isConstant goodRep || negb (bool_decide (o = this)));
                  '(inTree, _) ← isFeatureInFeatureTree fuel w1 o this;
                  _ ← assert inTree;
                  dep ← dependsOn fuel w1 goodRep this;
                  _ ← assert (negb dep);
                  Ok (updRep w1 this (fun r => setPlacement r (Some good)))
              end
          end
      end
  end.

End Place.

(** *** Cloning *)

(** The owner stamps of the [reparentMyChildren] loops over the owned
    placement expressions and values. *)
Definition stampPlacement (me : FeaturePtr) (i : nat) (p : PlacementRep)
  : Result PlacementRep :=
  _ ← assert (bool_decide (owner p <> None));
  _ ← assert (bool_decide (indexInOwner p = Z.of_nat i));
  Ok (setOwner p (Some me) (Z.of_nat i)).

Definition stampPlacementValue (me : FeaturePtr) (i : nat) (v : PlacementValueRep)
  : Result PlacementValueRep :=
  _ ← assert (bool_decide (valueOwner v <> None));
  _ ← assert (bool_decide (valueIndexInOwner v = Z.of_nat i));
  Ok (setValueOwner v (Some me) (Z.of_nat i)).

(** [me] is the address of the handle of [rep].  A child is given its new
    parent and then repaired itself; the repair of the child does not read
    or write the child's own parent pointer, so the pointer is set on the
    repaired child. *)
Fixpoint reparentMyChildren (me : FeaturePtr) (rep : FeatureRep) {struct rep}
  : Result FeatureRep :=
  subs ← mapM_from (fun i c =>
            _ ← assert (bool_decide (parent c <> None));
            _ ← assert (bool_decide (indexInParent c = Z.of_nat i));
            c' ← reparentMyChildren (childPtr me i) c;
            Ok (setParentFeature c' (Some me) (Z.of_nat i)))
          0 (subfeatures rep);
  pes ← mapM_from (stampPlacement me) 0 (placementExpressions rep);
  pvs ← mapM_from (stampPlacementValue me) 0 (placementValues rep);
  Ok (setPlacementValues (setPlacementExpressions (setSubfeatures rep subs) pes) pvs).

Definition findCorrespondingPlacement (fuel : nat) (w : World)
    (oldRoot : FeaturePtr) (p : PlacementRep) (newRoot : FeaturePtr)
  : Result (option SlotPtr) :=
  match owner p with
  | None => Ok None
  | Some o =>
      corrOwner ← findCorrespondingFeature fuel w oldRoot o newRoot;
      match corrOwner with
      | None => Ok None
      | Some co =>
          newTreeRef ← getPlacementExpression w co (indexInOwner p);
          q ← getPlacementRep w newTreeRef;
          _ ← assert (bool_decide (owner q = Some co));
          _ ← assert (bool_decide (indexInOwner q = indexInOwner p));
          Ok (Some newTreeRef)
      end
  end.

Definition findCorrespondingPlacementValue (fuel : nat) (w : World)
    (oldRoot : FeaturePtr) (v : PlacementValueRep) (newRoot : FeaturePtr)
  : Result (option SlotPtr) :=
  match valueOwner v with
  | None => Ok None
  | Some o =>
      corrOwner ← findCorrespondingFeature fuel w oldRoot o newRoot;
      match corrOwner with
      | None => Ok None
      | Some co =>
          newTreeRef ← getPlacementValue w co (valueIndexInOwner v);
          q ← getPlacementValueRep w newTreeRef;
          _ ← assert (bool_decide (valueOwner q = Some co));
          _ ← assert (bool_decide (valueIndexInOwner q = valueIndexInOwner v));
          Ok (Some newTreeRef)
      end
  end.

(** Modelled from the spec: [PlacementRep::repairFeatureReferences] remaps
    every Feature reference from its old identity to the corresponding new
    one; a reference outside the old tree becomes null. *)
Definition repairFeatureReferences (fuel : nat) (w : World) (oldRoot newRoot : FeaturePtr)
    (p : PlacementRep) : Result PlacementRep :=
  refs ← mapM_from (fun _ r =>
            match r with
            | None => Ok None
            | Some f => findCorrespondingFeature fuel w oldRoot f newRoot
            end) 0 (featureRefs p);
  Ok (setFeatureRefs p refs).

(** Modelled from the spec: [PlacementRep::repairValueReference] remaps the
    value reference the same way. *)
Definition repairValueReference (fuel : nat) (w : World) (oldRoot newRoot : FeaturePtr)
    (p : PlacementRep) : Result PlacementRep :=
  match valueRef p with
  | None => Ok p
  | Some vp =>
      v ← getPlacementValueRep w vp;
      vp' ← findCorrespondingPlacementValue fuel w oldRoot v newRoot;
      Ok (setValueRef p vp')
  end.

(** [fixPlacements] rewrites pointer fields of the new tree only, never
    the shape, the parents or the owner stamps that the correspondence
    lookups read; the lookups are made in [w], which holds the new tree as
    [reparentMyChildren] left it (their answers are the same in the tree
    as [fixPlacements] leaves it, see [repair_lookups_stable]). *)
Fixpoint fixPlacements (fuel : nat) (w : World) (oldRoot newRoot : FeaturePtr)
    (rep : FeatureRep) {struct rep} : Result FeatureRep :=
  subs ← mapM_from (fun _ c => fixPlacements fuel w oldRoot newRoot c)
          0 (subfeatures rep);
  pes ← mapM_from (fun _ pr =>
            pr1 ← repairFeatureReferences fuel w oldRoot newRoot pr;
            repairValueReference fuel w oldRoot newRoot pr1)
          0 (placementExpressions rep);
  pl ← match placement rep with
       | None => Ok None
       | Some pp =>
           p ← getPlacementRep w pp;
           findCorrespondingPlacement fuel w oldRoot p newRoot
       end;
  Ok (setPlacement (setPlacementExpressions (setSubfeatures rep subs) pes) pl).

(** Modelled from the spec: the virtual [clone] is a verbatim deep copy of
    the node, its descendants and everything they own; the pointers of the
    copy still hold old-tree addresses. *)
Definition clone (rep : FeatureRep) : FeatureRep := rep.

(** [newHandle] is a free-standing handle. *)
Definition cloneWithoutParentOrExternalPlacements (fuel : nat) (w : World)
    (this : FeaturePtr) (newHandle : handle) : Result World :=
  rep ← getRep w this;
  let copy := setParentFeature (clone rep) None (-1) in
  let w0 := <[newHandle := copy]> w in
  copy1 ← reparentMyChildren (rootPtr newHandle) copy;
  let w1 := <[newHandle := copy1]> w0 in
  copy2 ← fixPlacements fuel w1 this (rootPtr newHandle) copy1;
  Ok (<[newHandle := copy2]> w1).

End Model.

(** ** Invariants and specification-side notions *)

Module Invariants.
Import Model.

(** The address that a consistent parent pointer holds. *)
Definition parentPtr (f : FeaturePtr) : option FeaturePtr :=
  match steps f with
  | [] => None
  | _ :: _ => Some (FeatureAt (base f) (removelast (steps f)))
  end.

(** The index that a consistent [indexInParent] holds. *)
Definition indexOf (f : FeaturePtr) : Z :=
  match last (steps f) with
  | None => (-1)%Z
  | Some i => Z.of_nat i
  end.

(** The node reached from [f] by the child indices [sigma]. *)
Definition descendant (f : FeaturePtr) (sigma : list nat) : FeaturePtr :=
  FeatureAt (base f) (steps f ++ sigma).

Fixpoint stripPrefix (p l : list nat) : option (list nat) :=
  match p, l with
  | [], _ => Some l
  | x :: p', y :: l' => if bool_decide (x = y) then stripPrefix p' l' else None
  | _ :: _, [] => None
  end.

(** The child indices leading from [root] down to [f], when [f] is at or
    below [root]. *)
Definition below (root f : FeaturePtr) : option (list nat) :=
  if bool_decide (base root = base f) then stripPrefix (steps root) (steps f)
  else None.

Fixpoint forallb_from {A} (f : nat -> A -> bool) (i : nat) (l : list A) : bool :=
  match l with
  | [] => true
  | x :: l' => f i x && forallb_from f (S i) l'
  end.

Definition isValid {A} (o : option A) : bool :=
  match o with Some _ => true | None => false end.

(** An owned placement expression carries the stamp of its owner and its
    pointers are not dangling. *)
Definition consistentPlacement (w : World) (me : FeaturePtr) (i : nat) (p : PlacementRep)
  : bool :=
  bool_decide (owner p = Some me)
  && bool_decide (indexInOwner p = Z.of_nat i)
  && forallb (fun r => match r with
                       | None => true
                       | Some f => isValid (lookupRep w f)
                       end) (featureRefs p)
  && match valueRef p with
     | None => true
     | Some v => isValid (lookupPlacementValue w v)
     end.

Definition consistentValue (me : FeaturePtr) (i : nat) (v : PlacementValueRep) : bool :=
  bool_decide (valueOwner v = Some me)
  && bool_decide (valueIndexInOwner v = Z.of_nat i).

(** The recursive check of [checkFeatureConsistency], as a verdict: the
    parent and the index are the expected ones, and so on for every child,
    owned placement expression and owned placement value. *)
Fixpoint consistentFeature (w : World) (expParent : option FeaturePtr) (expIndex : Z)
    (me : FeaturePtr) (rep : FeatureRep) {struct rep} : bool :=
  bool_decide (parent rep = expParent)
  && bool_decide (indexInParent rep = expIndex)
  && forallb_from (fun i c =>
        consistentFeature w (Some me) (Z.of_nat i) (childPtr me i) c)
       0 (subfeatures rep)
  && forallb_from (consistentPlacement w me) 0 (placementExpressions rep)
  && forallb_from (consistentValue me) 0 (placementValues rep)
  && match placement rep with
     | None => true
     | Some pp => isValid (lookupPlacement w pp)
     end.

Definition wfWorldb (w : World) : bool :=
  forallb (fun hr => consistentFeature w None (-1) (rootPtr hr.1) hr.2) (map_to_list w).

(** Every tree of the world passes the consistency check. *)
Definition wfWorld (w : World) : Prop := wfWorldb w = true.

Fixpoint height (rep : FeatureRep) : nat :=
  S (max_list (map height (subfeatures rep))).

(** A bound on the number of nodes on any path from a node to its root. *)
Definition worldHeight (w : World) : nat :=
  max_list (map (fun hr => height hr.2) (map_to_list w)).

(** Following the parent chain of [f] reaches [root]. *)
Inductive Reaches (w : World) : FeaturePtr -> FeaturePtr -> Prop :=
  | Reaches_here f : Reaches w f f
  | Reaches_up f rep pp root :
      lookupRep w f = Some rep -> parent rep = Some pp ->
      Reaches w pp root -> Reaches w f root.

(** The child indices met while following the parent chain of [f] up to
    [root], in the order they are met. *)
Inductive Climb (w : World) : FeaturePtr -> FeaturePtr -> list Z -> Prop :=
  | Climb_here f : Climb w f f []
  | Climb_up f rep pp root tr :
      f <> root ->
      lookupRep w f = Some rep -> parent rep = Some pp ->
      Climb w pp root tr -> Climb w f root (indexInParent rep :: tr).

(** The parent chain of [f] ends at a parentless node after at most [n]
    steps. *)
Inductive RootedWithin (w : World) : nat -> FeaturePtr -> Prop :=
  | Rooted_root n f rep :
      lookupRep w f = Some rep -> parent rep = None -> RootedWithin w n f
  | Rooted_up n f rep pp :
      lookupRep w f = Some rep -> parent rep = Some pp ->
      RootedWithin w n pp -> RootedWithin w (S n) f.

(** The nodes from [f] up to its root, [f] first. *)
Inductive ChainToRoot (w : World) : FeaturePtr -> list FeaturePtr -> Prop :=
  | Chain_root f rep :
      lookupRep w f = Some rep -> parent rep = None -> ChainToRoot w f [f]
  | Chain_up f rep pp l :
      lookupRep w f = Some rep -> parent rep = Some pp ->
      ChainToRoot w pp l -> ChainToRoot w f (f :: l).

(** The transitive dependency of a placement on a Feature. *)
Inductive DependsOn (w : World) : PlacementRep -> FeaturePtr -> Prop :=
  | DependsOn_direct p f :
      In (Some f) (featureRefs p) -> DependsOn w p f
  | DependsOn_through p g rep pp q f :
      In (Some g) (featureRefs p) ->
      lookupRep w g = Some rep -> placement rep = Some pp ->
      lookupPlacement w pp = Some q ->
      DependsOn w q f -> DependsOn w p f.

(** The pure counterpart of [mapM_from]. *)
Fixpoint map_from {A B} (g : nat -> A -> B) (i : nat) (l : list A) : list B :=
  match l with
  | [] => []
  | x :: l' => g i x :: map_from g (S i) l'
  end.

(** Where a pointer of the tree under [this] points after the tree has
    been copied to the free-standing handle [h]: the node at the same
    descent, or nowhere. *)
Definition relocate (this : FeaturePtr) (h : handle) (f : FeaturePtr) : option FeaturePtr :=
  match below this f with
  | Some sigma => Some (FeatureAt h sigma)
  | None => None
  end.

Definition relocateSlot (this : FeaturePtr) (h : handle) (p : SlotPtr) : option SlotPtr :=
  match relocate this h (holder p) with
  | Some f => Some (SlotAt f (slot p))
  | None => None
  end.

Definition relocateRef (this : FeaturePtr) (h : handle) (r : option FeaturePtr)
  : option FeaturePtr :=
  match r with Some f => relocate this h f | None => None end.

Definition relocateSlotRef (this : FeaturePtr) (h : handle) (r : option SlotPtr)
  : option SlotPtr :=
  match r with Some p => relocateSlot this h p | None => None end.

(** A subtree as the reparenting pass leaves it when the handle of its
    top node is [me]: parents, indices and owner stamps are those of the
    new addresses, everything else is as copied. *)
Fixpoint stamped (me : FeaturePtr) (rep : FeatureRep) {struct rep} : FeatureRep :=
  mkFeatureRep (name rep) (featureTypeName rep) (requiredPlacementType rep)
    (parentPtr me) (indexOf me)
    (map_from (fun i c => stamped (childPtr me i) c) 0 (subfeatures rep))
    (map_from (fun j p => setOwner p (Some me) (Z.of_nat j)) 0
       (placementExpressions rep))
    (map_from (fun j v => setValueOwner v (Some me) (Z.of_nat j)) 0
       (placementValues rep))
    (placement rep).

Definition relocatePlacement (this : FeaturePtr) (h : handle) (me : FeaturePtr)
    (j : nat) (p : PlacementRep) : PlacementRep :=
  mkPlacementRep (placementType p) (map (relocateRef this h) (featureRefs p))
    (relocateSlotRef this h (valueRef p)) (Some me) (Z.of_nat j).

(** The copy of a subtree of the tree under [this] as the specification
    describes it, when the handle of its top node is [me]. *)
Fixpoint cloned (this : FeaturePtr) (h : handle) (me : FeaturePtr) (rep : FeatureRep)
    {struct rep} : FeatureRep :=
  mkFeatureRep (name rep) (featureTypeName rep) (requiredPlacementType rep)
    (parentPtr me) (indexOf me)
    (map_from (fun i c => cloned this h (childPtr me i) c) 0 (subfeatures rep))
    (map_from (relocatePlacement this h me) 0 (placementExpressions rep))
    (map_from (fun j v => setValueOwner v (Some me) (Z.of_nat j)) 0
       (placementValues rep))
    (relocateSlotRef this h (placement rep)).

(** The pointer is null or resolves inside the tree of handle [h]. *)
Definition insideFeature (w : World) (h : handle) (o : option FeaturePtr) : Prop :=
  match o with
  | None => True
  | Some f => base f = h /\ is_Some (lookupRep w f)
  end.

Definition insidePlacement (w : World) (h : handle) (o : option SlotPtr) : Prop :=
  match o with
  | None => True
  | Some p => base (holder p) = h /\ is_Some (lookupPlacement w p)
  end.

Definition insideValue (w : World) (h : handle) (o : option SlotPtr) : Prop :=
  match o with
  | None => True
  | Some p => base (holder p) = h /\ is_Some (lookupPlacementValue w p)
  end.

(** A rep without its subfeatures: what belongs to the node itself. *)
Definition local (n : FeatureRep) : FeatureRep := setSubfeatures n [].

(** What the consistency check establishes at one node. *)
Record NodeOK (w : World) (f : FeaturePtr) (n : FeatureRep) : Prop := {
  node_parent : parent n = parentPtr f;
  node_index : indexInParent n = indexOf f;
  node_placements : forall j p,
    placementExpressions n !! j = Some p -> consistentPlacement w f j p = true;
  node_values : forall j v,
    placementValues n !! j = Some v -> consistentValue f j v = true;
  node_active : forall pp,
    placement n = Some pp -> is_Some (lookupPlacement w pp)
}.

(** Every parent pointer and index of the world is the consistent one. *)
Definition ParentsOK (w : World) : Prop :=
  forall f n, lookupRep w f = Some n ->
    parent n = parentPtr f /\ indexInParent n = indexOf f.

(** What clone purity asks of a placement expression [q] of the clone,
    stored at index [j] of the node [me], with respect to the placement
    [p] it was copied from. *)
Record PlacementCloned (w' : World) (this : FeaturePtr) (h : handle)
    (me : FeaturePtr) (j : nat) (p q : PlacementRep) : Prop := {
  pc_type : placementType q = placementType p;
  pc_owner : owner q = Some me;
  pc_index : indexInOwner q = Z.of_nat j;
  pc_refs : featureRefs q = map (relocateRef this h) (featureRefs p);
  pc_refs_inside : Forall (insideFeature w' h) (featureRefs q);
  pc_value : valueRef q = relocateSlotRef this h (valueRef p);
  pc_value_inside : insideValue w' h (valueRef q)
}.

(** What clone purity asks of the node [c] of the clone at descent
    [sigma], with respect to the node [n] of the original at the same
    descent. *)
Record NodeCloned (w' : World) (this : FeaturePtr) (h : handle)
    (sigma : list nat) (n c : FeatureRep) : Prop := {
  nc_name : name c = name n;
  nc_kind : featureTypeName c = featureTypeName n;
  nc_required : requiredPlacementType c = requiredPlacementType n;
  nc_children : length (subfeatures c) = length (subfeatures n);
  nc_parent : parent c = parentPtr (FeatureAt h sigma);
  nc_index : indexInParent c = indexOf (FeatureAt h sigma);
  nc_parent_inside : insideFeature w' h (parent c);
  nc_placements : length (placementExpressions c) = length (placementExpressions n);
  nc_placement : forall j p q,
    placementExpressions n !! j = Some p -> placementExpressions c !! j = Some q ->
    PlacementCloned w' this h (FeatureAt h sigma) j p q;
  nc_values : length (placementValues c) = length (placementValues n);
  nc_value : forall j v,
    placementValues c !! j = Some v ->
    valueOwner v = Some (FeatureAt h sigma) /\ valueIndexInOwner v = Z.of_nat j;
  nc_active : placement c = relocateSlotRef this h (placement n);
  nc_active_inside : insidePlacement w' h (placement c)
}.

End Invariants.

(** ** The tree of the concrete scenarios: Root{B, A{X}} *)

Module Scenario.
Import Model.

Definition hRoot : handle := 0.
Definition pRoot : FeaturePtr := rootPtr hRoot.
Definition pB : FeaturePtr := childPtr pRoot 0.
Definition pA : FeaturePtr := childPtr pRoot 1.
Definition pX : FeaturePtr := childPtr pA 0.

Definition leaf (nm kind : string) (t : PlacementType) (par : FeaturePtr) (i : Z)
  : FeatureRep :=
  mkFeatureRep nm kind t (Some par) i [] [] [] None.

Definition repX : FeatureRep := leaf "X" "Station" StationPlacementType pA 0.
Definition repB : FeatureRep := leaf "B" "RealParameter" RealPlacementType pRoot 0.
Definition repA : FeatureRep :=
  mkFeatureRep "A" "Frame" FramePlacementType (Some pRoot) 1 [repX] [] [] None.
Definition repRoot : FeatureRep :=
  mkFeatureRep "Root" "Frame" FramePlacementType None (-1) [repB; repA] [] [] None.

Definition world : World := {[ hRoot := repRoot ]}.

(** A Feature kind without any conversion. *)
Definition noConversion (_ : FeatureRep) (_ : PlacementRep)
  : Result (option PlacementRep) := Ok None.

Definition constantFrame : PlacementRep :=
  mkPlacementRep FramePlacementType [] None None (-1).

Definition constantStation : PlacementRep :=
  mkPlacementRep StationPlacementType [] None None (-1).

Definition constantReal : PlacementRep :=
  mkPlacementRep RealPlacementType [] None None (-1).

(** A station placement that mentions B. *)
Definition stationAtB : PlacementRep :=
  mkPlacementRep StationPlacementType [Some pB] None None (-1).

(** The scenario of the specification: a placement that mentions B is
    placed on X; its owner is Root. *)
Definition placedWorld : World :=
  match place noConversion 3 world pX stationAtB with
  | Ok w => w
  | _ => world
  end.

(** A free-standing handle without rep. *)
Definition hNew : handle := 7.

End Scenario.

(** ** Lookup of a subfeature by name *)

Module Lookup.
Import Model.

Section Compare.

(** Whether plain [char] is signed is left to the implementation; it
    decides the integer that [key[i]] is promoted to. *)
Variable charIsSigned : bool.

Definition charValue (c : ascii) : Z :=
  let n := Z.of_nat (nat_of_ascii c) in
  if charIsSigned && (128 <=? n)%Z then (n - 256)%Z else n.

(** [tolower] of the C locale. *)
Definition tolower (k : Z) : Z :=
  if (65 <=? k)%Z && (k <=? 90)%Z then (k + 32)%Z else k.

(** The loop runs over the common length of the two strings; the sizes
    decide when it finds no difference. *)
Fixpoint caseInsensitiveCompare (key test : string) : Z :=
  match key, test with
  | String a key', String b test' =>
      let k := tolower (charValue a) in
      let t := tolower (charValue b) in
      if (k <? t)%Z then (-1)%Z
      else if (t <? k)%Z then 1%Z
      else caseInsensitiveCompare key' test'
  | String _ _, EmptyString => 1%Z
  | EmptyString, String _ _ => (-1)%Z
  | EmptyString, EmptyString => 0%Z
  end.

(** The [for] loop of [findSubfeatureIndex] from index [ix] on. *)
Fixpoint findFrom (nm : string) (subs : list FeatureRep) (ix : nat) : bool * nat :=
  match subs with
  | [] => (false, ix)
  | c :: subs' =>
      if (caseInsensitiveCompare nm (name c) =? 0)%Z then (true, ix)
      else findFrom nm subs' (S ix)
  end.

(** The verdict and [ix] as the caller finds it. *)
Definition findSubfeatureIndex (rep : FeatureRep) (nm : string) : bool * nat :=
  findFrom nm (subfeatures rep) 0.

(** A string as [caseInsensitiveCompare] sees it. *)
Definition lowered (s : string) : list Z :=
  map (fun c => tolower (charValue c)) (list_ascii_of_string s).

End Compare.

End Lookup.

(** ** Further specification-side notions *)

Module Notions.
Import Model Invariants.

(** The consistency of a world, node by node. *)
Definition WellFormed (w : World) : Prop :=
  forall f n, lookupRep w f = Some n -> NodeOK w f n.

(** The longest common prefix of two descents. *)
Fixpoint commonPrefix (l1 l2 : list nat) : list nat :=
  match l1, l2 with
  | x :: l1', y :: l2' => if bool_decide (x = y) then x :: commonPrefix l1' l2' else []
  | _, _ => []
  end.

(** The prefixes of a descent, shortest first. *)
Fixpoint inits (l : list nat) : list (list nat) :=
  match l with
  | [] => [[]]
  | x :: l' => [] :: map (cons x) (inits l')
  end.

(** The names met on the descent [path] from the node [rep], the name of
    [rep] first. *)
Fixpoint pathNames (rep : FeatureRep) (path : list nat) : list string :=
  name rep ::
  match path with
  | [] => []
  | i :: path' =>
      match subfeatures rep !! i with
      | Some c => pathNames c path'
      | None => []
      end
  end.

(** The names from the root down to the Feature [f]. *)
Definition namesTo (w : World) (f : FeaturePtr) : list string :=
  match w !! base f with
  | Some r => pathNames r (steps f)
  | None => []
  end.

(** The descent of the youngest node that is at or above the node with
    descent [bound] and every referenced Feature. *)
Fixpoint ancestorDescent (bound : list nat) (refs : list (option FeaturePtr))
  : list nat :=
  match refs with
  | [] => bound
  | None :: refs' => ancestorDescent bound refs'
  | Some r :: refs' => ancestorDescent (commonPrefix bound (steps r)) refs'
  end.

(** What [reparentMyChildren] asserts on its way through a subtree. *)
Definition stampable (p : PlacementRep) (i : nat) : bool :=
  bool_decide (owner p <> None) && bool_decide (indexInOwner p = Z.of_nat i).

Definition stampableValue (v : PlacementValueRep) (i : nat) : bool :=
  bool_decide (valueOwner v <> None) && bool_decide (valueIndexInOwner v = Z.of_nat i).

Fixpoint reparentable (rep : FeatureRep) {struct rep} : bool :=
  forallb_from (fun i c =>
      bool_decide (parent c <> None)
      && bool_decide (indexInParent c = Z.of_nat i)
      && reparentable c) 0 (subfeatures rep)
  && forallb_from (fun i p => stampable p i) 0 (placementExpressions rep)
  && forallb_from (fun i v => stampableValue v i) 0 (placementValues rep).

End Notions.

(** ** A world with two trees *)

Module Forest.
Import Model.

Definition hOther : handle := 1.

Definition repOther : FeatureRep :=
  mkFeatureRep "Other" "Station" StationPlacementType None (-1) [] [] [] None.

Definition forest : World := <[hOther := repOther]> Scenario.world.

(** A station placement that mentions the root of the other tree. *)
Definition stationAtOther : PlacementRep :=
  mkPlacementRep StationPlacementType [Some (rootPtr hOther)] None None (-1).

(** A frame placement that mentions B. *)
Definition frameAtB : PlacementRep :=
  mkPlacementRep FramePlacementType [Some Scenario.pB] None None (-1).

(** A conversion that asks the Feature A to serve as a placement of the
    required category, through the default hook of the base class. *)
Definition hookConversion (rep : FeatureRep) (_ : PlacementRep)
  : Result (option PlacementRep) :=
  q ← useFeatureAsPlacement 3 Scenario.world Scenario.pA (requiredPlacementType rep);
  Ok (Some q).

(** A world in which A owns one placement value. *)
Definition valueAtA : PlacementValueRep := mkPlacementValueRep (Some Scenario.pA) 0.

Definition repAValued : FeatureRep :=
  mkFeatureRep "A" "Frame" FramePlacementType (Some Scenario.pRoot) 1
    [Scenario.repX] [] [valueAtA] None.

Definition valuedWorld : World :=
  updRep Scenario.world Scenario.pA (pushPlacementValue valueAtA).

End Forest.

(** ** Facts about the validator *)

Module ValidatorFacts.
Import Validator.

Lemma append_cons (c : ascii) (s t : string) :
  String c s +:+ t = String c (s +:+ t).
Proof. reflexivity. Qed.

Lemma append_empty_r (s : string) : s +:+ EmptyString = s.
Proof.
  induction s as [|c s IH]; [reflexivity | rewrite append_cons; f_equal; exact IH].
Qed.

Lemma append_assoc (a b c : string) : (a +:+ b) +:+ c = a +:+ (b +:+ c).
Proof.
  induction a as [|x a IH]; [reflexivity | rewrite !append_cons; f_equal; exact IH].
Qed.

Lemma splitFrom_nonempty (s cur : string) : splitFrom s cur <> [].
Proof.
  revert cur; induction s as [|c s IH]; intros cur; simpl; [discriminate|].
  destruct (isSlash c); [discriminate | apply IH].
Qed.

(** What the inner loop leaves behind, in terms of the split. *)
Lemma readSegment_split (s t : string) :
  match readSegment s t with
  | (t', EmptyString) => splitFrom s t = [t'] /\ (s <> EmptyString -> t' <> EmptyString)
  | (t', String c r) =>
      splitFrom s t = t' :: splitFrom r EmptyString
      /\ String.length r < String.length s
  end.
Proof.
  revert t; induction s as [|c s IH]; intros t; simpl.
  - split; [reflexivity | congruence].
  - destruct (isSlash c) eqn:Hc.
    + split; [reflexivity | simpl; lia].
    + specialize (IH (t +:+ String c EmptyString)).
      destruct (readSegment s (t +:+ String c EmptyString)) as [t' [|c' r]].
      * destruct IH as [IH1 IH2]. split; [exact IH1|]. intros _.
        destruct s as [|d s].
        -- simpl in IH1. injection IH1 as <-. destruct t; discriminate.
        -- apply IH2; discriminate.
      * destruct IH as [IH1 IH2]. split; [exact IH1 | lia].
Qed.

(** The loop computes the walk over the split pathname. *)
Lemma pathLoop_validate (fuel : nat) : forall rest found segments,
  String.length rest <= fuel ->
  pathLoop fuel rest found segments =
    (let '(b, out) := validatePieces (splitFrom rest EmptyString) in
     (b && (found || nonEmpty out), segments ++ out)).
Proof.
  induction fuel as [|fuel IH]; intros rest found segments Hlen.
  - destruct rest; [|simpl in Hlen; lia]. simpl.
    rewrite app_nil_r, orb_false_r. reflexivity.
  - destruct rest as [|c rest].
    + simpl. rewrite app_nil_r, orb_false_r. reflexivity.
    + cbn [pathLoop].
      pose proof (readSegment_split (String c rest) EmptyString) as Hrs.
      destruct (readSegment (String c rest) EmptyString) as [t [|c' r]].
      * destruct Hrs as [Hs Hne]. rewrite Hs.
        specialize (Hne ltac:(discriminate)).
        destruct t as [|d t]; [congruence|]. cbn [validatePieces].
        destruct (isLegalFeatureName (String d t)); cbn [negb].
        -- destruct fuel; simpl; now rewrite orb_true_r.
        -- reflexivity.
      * destruct Hrs as [Hs Hl]. rewrite Hs.
        assert (Hv : validatePieces (t :: splitFrom r EmptyString) =
                     if isLegalFeatureName t
                     then let '(b, out) := validatePieces (splitFrom r EmptyString)
                          in (b, t :: out)
                     else (false, [t])).
        { cbn [validatePieces].
          destruct (splitFrom r EmptyString) eqn:E;
            [now apply splitFrom_nonempty in E|].
          destruct t; reflexivity. }
        rewrite Hv. destruct (isLegalFeatureName t); cbn [negb].
        -- cbn [skipOne]. rewrite IH by (simpl in Hlen, Hl; lia).
           destruct (validatePieces (splitFrom r EmptyString)) as [b out].
           cbn [orb nonEmpty]. rewrite orb_true_r, andb_true_r.
           now rewrite <- app_assoc.
        -- reflexivity.
Qed.

Lemma isLegalFeaturePathname_validate (pathname : string) :
  isLegalFeaturePathname pathname =
    (let '(b, out) := validatePieces (splitOnSlash pathname) in
     (b && nonEmpty out, out)).
Proof.
  unfold isLegalFeaturePathname. rewrite pathLoop_validate by lia.
  unfold splitOnSlash. now destruct (validatePieces _).
Qed.

Lemma allNameChars_spec (n : string) :
  allNameChars n = true <->
  Forall (fun c => isalnum c = true \/ c = "_"%char) (list_ascii_of_string n).
Proof.
  induction n as [|c n IH]; cbn.
  - split; [constructor | reflexivity].
  - unfold isNameChar. destruct (isalnum c) eqn:Ha; cbn.
    + rewrite IH. split; [intros H; constructor; auto | now inversion 1].
    + destruct (Ascii.eqb c "_") eqn:Hu; cbn.
      * apply Ascii.eqb_eq in Hu. rewrite IH.
        split; [intros H; constructor; auto | now inversion 1].
      * apply Ascii.eqb_neq in Hu. split; [discriminate|].
        inversion 1 as [|? ? [Hc | Hc] _]; congruence.
Qed.

(** A legal name is not empty and made of alphanumeric characters and
    underscores. *)
Lemma isLegalFeatureName_spec (n : string) :
  isLegalFeatureName n = true <->
  n <> EmptyString
  /\ Forall (fun c => isalnum c = true \/ c = "_"%char) (list_ascii_of_string n).
Proof.
  unfold isLegalFeatureName. destruct n as [|c n].
  - cbn. split; [discriminate | intros [H _]; congruence].
  - cbn [String.length Nat.eqb]. rewrite allNameChars_spec.
    split; [intros H; split; [discriminate | exact H] | now intros [_ H]].
Qed.

Lemma validatePieces_step (s : string) (pieces : list string) :
  pieces <> [] \/ s <> EmptyString ->
  validatePieces (s :: pieces) =
    if isLegalFeatureName s
    then let '(b, out) := validatePieces pieces in (b, s :: out)
    else (false, [s]).
Proof.
  intros H. cbn [validatePieces].
  destruct pieces, s; try reflexivity. destruct H; congruence.
Qed.

Lemma validatePieces_prefix (pieces : list string) :
  snd (validatePieces pieces) `prefix_of` pieces.
Proof.
  induction pieces as [|s pieces IH]; [apply prefix_nil|].
  destruct (decide (pieces <> [] \/ s <> EmptyString)) as [H|H].
  - rewrite validatePieces_step by exact H.
    destruct (isLegalFeatureName s).
    + destruct (validatePieces pieces) as [b out]. cbn [snd] in *.
      now apply prefix_cons.
    + cbn [snd]. exists pieces. reflexivity.
  - destruct pieces, s; try (exfalso; apply H; auto; fail).
    cbn. apply prefix_nil.
Qed.

Lemma validatePieces_true (pieces out : list string) :
  validatePieces pieces = (true, out) ->
  Forall legal out /\ (pieces = out \/ pieces = out ++ [EmptyString]).
Proof.
  revert out; induction pieces as [|s pieces IH]; intros out Hv.
  - injection Hv as <-. split; [constructor | now left].
  - destruct (decide (pieces <> [] \/ s <> EmptyString)) as [H|H].
    + rewrite validatePieces_step in Hv by exact H.
      destruct (isLegalFeatureName s) eqn:Hs; [|discriminate].
      destruct (validatePieces pieces) as [b out'].
      injection Hv as -> <-. destruct (IH out' eq_refl) as [Hall Hp].
      split; [constructor; assumption|].
      destruct Hp as [-> | ->]; [now left | now right].
    + destruct pieces, s; try (exfalso; apply H; auto; fail).
      cbn in Hv. injection Hv as <-. split; [constructor | now right].
Qed.

Lemma validatePieces_false (pieces out : list string) :
  validatePieces pieces = (false, out) ->
  exists pre s, out = pre ++ [s] /\ isLegalFeatureName s = false /\ Forall legal pre.
Proof.
  revert out; induction pieces as [|s pieces IH]; intros out Hv; [discriminate|].
  destruct (decide (pieces <> [] \/ s <> EmptyString)) as [H|H].
  - rewrite validatePieces_step in Hv by exact H.
    destruct (isLegalFeatureName s) eqn:Hs.
    + destruct (validatePieces pieces) as [b out'].
      injection Hv as -> <-. destruct (IH out' eq_refl) as (pre & x & -> & Hx & Hpre).
      exists (s :: pre), x.
      split; [reflexivity | split; [assumption | now constructor]].
    + injection Hv as <-. exists [], s.
      split; [reflexivity | split; [assumption | constructor]].
  - destruct pieces, s; try (exfalso; apply H; auto; fail); discriminate.
Qed.

Lemma joinWithSlash_cons (s : string) (segs : list string) :
  segs <> [] -> joinWithSlash (s :: segs) = s +:+ "/" +:+ joinWithSlash segs.
Proof. destruct segs; [congruence | reflexivity]. Qed.

Lemma joinWithSlash_split (s cur : string) :
  joinWithSlash (splitFrom s cur) = cur +:+ s.
Proof.
  revert cur; induction s as [|c s IH]; intros cur; cbn [splitFrom].
  - cbn. now rewrite append_empty_r.
  - destruct (isSlash c) eqn:Hc.
    + rewrite joinWithSlash_cons by apply splitFrom_nonempty.
      rewrite IH. apply Ascii.eqb_eq in Hc. subst c. reflexivity.
    + rewrite IH, append_assoc. reflexivity.
Qed.

Lemma joinWithSlash_snoc_empty (segs : list string) :
  segs <> [] -> joinWithSlash (segs ++ [EmptyString]) = joinWithSlash segs +:+ "/".
Proof.
  induction segs as [|s segs IH]; [congruence|]. intros _.
  destruct segs as [|s' segs].
  - reflexivity.
  - change ((s :: s' :: segs) ++ [EmptyString])
      with (s :: ((s' :: segs) ++ [EmptyString])).
    rewrite joinWithSlash_cons by (cbn; discriminate).
    rewrite IH by discriminate.
    rewrite (joinWithSlash_cons s (s' :: segs)) by discriminate.
    now rewrite !append_assoc.
Qed.

(** C9: [isLegalFeaturePathname] captures leading pieces of the pathname
    split on slashes; it answers true exactly when at least one segment was
    captured and every captured segment is a legal name, that is, not
    empty and made of alphanumeric characters and underscores (and then
    the segments joined by slashes give back the pathname, up to one
    trailing slash); when it answers false, either nothing was captured (the empty
    pathname) or the last captured segment is the illegal one.  The
    pathname a/b_2/C is legal with its three segments, and a//b is refused
    with the empty segment captured last. *)
Theorem isLegalFeaturePathname_spec (pathname : string) :
  let ok := fst (isLegalFeaturePathname pathname) in
  let segments := snd (isLegalFeaturePathname pathname) in
  segments `prefix_of` splitOnSlash pathname
  /\ (ok = true <-> segments <> [] /\ Forall legal segments)
  /\ (forall s, legal s <->
        s <> EmptyString
        /\ Forall (fun c => isalnum c = true \/ c = "_"%char) (list_ascii_of_string s))
  /\ (ok = true ->
      pathname = joinWithSlash segments
      \/ pathname = joinWithSlash segments +:+ "/")
  /\ (ok = false ->
      (segments = [] /\ pathname = EmptyString)
      \/ exists s, last segments = Some s /\ isLegalFeatureName s = false
                    /\ Forall legal (removelast segments))
  /\ isLegalFeaturePathname "a/b_2/C" = (true, ["a"; "b_2"; "C"]%string)
  /\ isLegalFeaturePathname "a//b" = (false, ["a"; ""]%string)
  /\ last (snd (isLegalFeaturePathname "a//b")) = Some EmptyString.
Proof.
  cbv zeta. rewrite isLegalFeaturePathname_validate.
  pose proof (validatePieces_prefix (splitOnSlash pathname)) as Hpre.
  pose proof (validatePieces_true (splitOnSlash pathname)) as Htrue.
  pose proof (validatePieces_false (splitOnSlash pathname)) as Hfalse.
  pose proof (joinWithSlash_split pathname EmptyString) as Hjoin.
  fold (splitOnSlash pathname) in Hjoin. cbn in Hjoin.
  destruct (validatePieces (splitOnSlash pathname)) as [b out].
  cbn [fst snd] in *.
  split; [exact Hpre|]. split; [|split; [apply isLegalFeatureName_spec|split; [|split]]].
  - split.
    + intros Hb. apply andb_true_iff in Hb as [-> Hne].
      destruct (Htrue out eq_refl) as [Hall _].
      split; [destruct out; [discriminate | congruence] | exact Hall].
    + intros [Hne Hall]. destruct b.
      * destruct out; [congruence | reflexivity].
      * destruct (Hfalse out eq_refl) as (pre & s & -> & Hs & _).
        apply Forall_app in Hall as [_ Hall]. inversion Hall as [|? ? Hl _]; subst.
        unfold legal in Hl. congruence.
  - intros Hb. apply andb_true_iff in Hb as [-> Hne].
    destruct (Htrue out eq_refl) as [_ [Hp | Hp]]; rewrite Hp in Hjoin.
    + left. symmetry. exact Hjoin.
    + right. rewrite joinWithSlash_snoc_empty in Hjoin
        by (destruct out; [discriminate | congruence]).
      symmetry. exact Hjoin.
  - intros Hb. destruct b.
    + destruct out; [|discriminate]. left. split; [reflexivity|].
      destruct (Htrue [] eq_refl) as [_ [Hp | Hp]]; rewrite Hp in Hjoin;
        cbn in Hjoin; symmetry; exact Hjoin.
    + right. destruct (Hfalse out eq_refl) as (pre & s & -> & Hs & Hpre').
      exists s. rewrite last_snoc, removelast_last. auto.
  - repeat split; reflexivity.
Qed.

Lemma lastChar_split (s cur : string) :
  last (splitFrom s cur) = Some EmptyString ->
  (s = EmptyString /\ cur = EmptyString) \/ lastChar s = Some "/"%char.
Proof.
  revert cur; induction s as [|c s IH]; intros cur; cbn [splitFrom].
  - cbn. intros [= ->]. now left.
  - destruct (isSlash c) eqn:Hc.
    + apply Ascii.eqb_eq in Hc. subst c. intros Hl.
      rewrite last_cons in Hl.
      destruct (last (splitFrom s EmptyString)) as [y|] eqn:E;
        [|apply last_None in E; now apply splitFrom_nonempty in E].
      rewrite Hl in E.
      destruct (IH _ E) as [[-> _] | Hs]; right; [reflexivity|].
      destruct s; [discriminate | exact Hs].
    + intros Hl. destruct (IH _ Hl) as [[-> Hcur] | Hs].
      * destruct cur; discriminate.
      * right. destruct s; [discriminate | exact Hs].
Qed.

Lemma splitFrom_snoc_slash (s cur : string) :
  splitFrom (s +:+ "/") cur = splitFrom s cur ++ [EmptyString].
Proof.
  revert cur; induction s as [|c s IH]; intros cur.
  - reflexivity.
  - rewrite append_cons. cbn [splitFrom]. destruct (isSlash c).
    + now rewrite IH.
    + apply IH.
Qed.

Lemma validatePieces_snoc_empty (pieces out : list string) :
  validatePieces pieces = (true, out) ->
  last pieces <> Some EmptyString ->
  validatePieces (pieces ++ [EmptyString]) = (true, out).
Proof.
  revert out; induction pieces as [|s pieces IH]; intros out Hv Hl.
  - injection Hv as <-. reflexivity.
  - destruct (decide (pieces <> [] \/ s <> EmptyString)) as [H|H].
    + rewrite validatePieces_step in Hv by exact H.
      change ((s :: pieces) ++ [EmptyString]) with (s :: (pieces ++ [EmptyString])).
      rewrite validatePieces_step by (left; destruct pieces; discriminate).
      destruct (isLegalFeatureName s); [|discriminate].
      destruct (validatePieces pieces) as [b out'] eqn:E.
      injection Hv as -> <-.
      rewrite (IH out' eq_refl); [reflexivity|].
      destruct pieces; [discriminate | exact Hl].
    + destruct pieces, s; try (exfalso; apply H; auto; fail);
        exfalso; apply Hl; reflexivity.
Qed.

Lemma splitFrom_app_slash (s rest cur : string) :
  splitFrom (s +:+ "/" +:+ rest) cur = splitFrom s cur ++ splitFrom rest EmptyString.
Proof.
  revert cur; induction s as [|c s IH]; intros cur; [reflexivity|].
  rewrite append_cons. cbn [splitFrom]. destruct (isSlash c); now rewrite IH.
Qed.

Lemma validatePieces_app_false (pieces more out : list string) :
  validatePieces pieces = (false, out) -> validatePieces (pieces ++ more) = (false, out).
Proof.
  revert out; induction pieces as [|s pieces IH]; intros out Hv; [discriminate|].
  destruct (decide (pieces = [] /\ s = EmptyString)) as [[-> ->] | Hne]; [discriminate|].
  assert (Hstep : pieces <> [] \/ s <> EmptyString).
  { destruct pieces; [right; intros ->; now apply Hne | left; discriminate]. }
  rewrite validatePieces_step in Hv by exact Hstep.
  change ((s :: pieces) ++ more) with (s :: (pieces ++ more)).
  rewrite validatePieces_step.
  2:{ destruct Hstep as [Hp | Hs]; [left | now right]. now destruct pieces. }
  destruct (isLegalFeatureName s); [|exact Hv].
  destruct (validatePieces pieces) as [b out'] eqn:Hv'.
  injection Hv as -> <-. now rewrite (IH out' eq_refl).
Qed.

Lemma validatePieces_app_empty (pieces more out : list string) :
  validatePieces pieces = (true, out) -> more <> [] ->
  validatePieces (pieces ++ EmptyString :: more) = (false, out ++ [EmptyString]).
Proof.
  intros Hv Hmore. revert out Hv; induction pieces as [|s pieces IH]; intros out Hv.
  - injection Hv as <-. cbn [app]. rewrite validatePieces_step by now left. reflexivity.
  - change ((s :: pieces) ++ EmptyString :: more)
      with (s :: (pieces ++ EmptyString :: more)).
    rewrite (validatePieces_step s (pieces ++ _)) by (left; now destruct pieces).
    destruct (decide (pieces = [] /\ s = EmptyString)) as [[-> ->] | Hne].
    + injection Hv as <-. reflexivity.
    + rewrite validatePieces_step in Hv.
      2:{ destruct pieces; [right; intros ->; now apply Hne | left; discriminate]. }
      destruct (isLegalFeatureName s); [|discriminate].
      destruct (validatePieces pieces) as [b out'] eqn:Hv'.
      injection Hv as -> <-. now rewrite (IH out' eq_refl).
Qed.

Lemma validatePieces_nothing (s : string) (b : bool) :
  validatePieces (splitFrom s EmptyString) = (b, []) -> s = EmptyString.
Proof.
  intros Hv. destruct b.
  - apply validatePieces_true in Hv as [_ [Hp | Hp]].
    + now apply splitFrom_nonempty in Hp.
    + pose proof (joinWithSlash_split s EmptyString) as E. rewrite Hp in E.
      symmetry. exact E.
  - apply validatePieces_false in Hv as (pre & x & Hout & _). now destruct pre.
Qed.

(** C10: a single trailing slash after a legal pathname is ignored: the
    verdict stays true and the captured segments are the same.  A doubled
    slash makes the pathname illegal wherever it stands; the empty segment
    is captured, as the last one, when the pathname before the doubled
    slash is legal or empty, and otherwise the scan has stopped before and
    the segments are those captured for the pathname before the doubled
    slash.  Nothing is captured only for the empty pathname. *)
Theorem isLegalFeaturePathname_trailing_slash (s : string) (segs : list string) :
  (lastChar s <> Some "/"%char ->
   isLegalFeaturePathname s = (true, segs) ->
   isLegalFeaturePathname (s +:+ "/") = (true, segs))
  /\ (forall ok rest, isLegalFeaturePathname s = (ok, segs) ->
      isLegalFeaturePathname (s +:+ "//" +:+ rest)
      = (false, if ok || negb (nonEmpty segs) then segs ++ [EmptyString] else segs))
  /\ (forall ok, isLegalFeaturePathname s = (ok, segs) ->
      segs = [] <-> s = EmptyString).
Proof.
  split; [|split].
  - intros Hlast. rewrite !isLegalFeaturePathname_validate.
    unfold splitOnSlash. rewrite splitFrom_snoc_slash.
    destruct (validatePieces (splitFrom s EmptyString)) as [b out] eqn:Hv.
    intros [= Hb ->]. apply andb_true_iff in Hb as [-> Hne].
    rewrite (validatePieces_snoc_empty _ _ Hv).
    + now rewrite Hne.
    + intros Hl. apply lastChar_split in Hl as [[-> _] | Hl]; [|contradiction].
      cbn in Hv. injection Hv as <-. discriminate.
  - intros ok rest. rewrite !isLegalFeaturePathname_validate. unfold splitOnSlash.
    change ("//" +:+ rest)%string with ("/" +:+ ("/" +:+ rest))%string.
    rewrite splitFrom_app_slash.
    change (splitFrom ("/" +:+ rest) EmptyString)
      with (EmptyString :: splitFrom rest EmptyString).
    destruct (validatePieces (splitFrom s EmptyString)) as [b out] eqn:Hv.
    intros [= <- <-]. destruct b.
    + rewrite (validatePieces_app_empty _ _ _ Hv) by apply splitFrom_nonempty.
      cbn [andb]. now destruct out.
    + rewrite (validatePieces_app_false _ _ _ Hv). cbn [andb orb].
      apply validatePieces_false in Hv as (pre & x & -> & _). now destruct pre.
  - intros ok. rewrite isLegalFeaturePathname_validate. unfold splitOnSlash.
    destruct (validatePieces (splitFrom s EmptyString)) as [b out] eqn:Hv.
    intros [= _ <-]. split.
    + intros ->. now apply validatePieces_nothing in Hv.
    + intros ->. cbn in Hv. now injection Hv as _ <-.
Qed.

Lemma isLegalFeaturePathname_trailing_slash_witness :
  lastChar "a/b_2" <> Some "/"%char
  /\ isLegalFeaturePathname "a/b_2" = (true, ["a"; "b_2"]%string)
  /\ isLegalFeaturePathname "a/b_2/" = (true, ["a"; "b_2"]%string)
  /\ isLegalFeaturePathname "a/b_2//c" = (false, ["a"%string; "b_2"%string; EmptyString])
  /\ isLegalFeaturePathname "a b//c" = (false, ["a b"%string]).
Proof.
  split; [discriminate|]. split; [reflexivity|]. split; [|split].
  - apply (proj1 (isLegalFeaturePathname_trailing_slash "a/b_2" ["a"; "b_2"]%string));
      [discriminate | reflexivity].
  - apply (proj1 (proj2 (isLegalFeaturePathname_trailing_slash "a/b_2"
                           ["a"; "b_2"]%string)) true "c"). reflexivity.
  - apply (proj1 (proj2 (isLegalFeaturePathname_trailing_slash "a b" ["a b"%string]))
             false "c"). reflexivity.
Defined.

(** C10, as the specification words its second half, fails: the pathname
    has a doubled slash, and the scan stops at the illegal first segment
    without ever capturing an empty one. *)
Lemma isLegalFeaturePathname_doubled_slash_without_empty_segment :
  isLegalFeaturePathname "a b//c" = (false, ["a b"%string])
  /\ ~ In EmptyString (snd (isLegalFeaturePathname "a b//c")).
Proof.
  split; [reflexivity|]. cbn. intros [H | []]. discriminate H.
Qed.

End ValidatorFacts.

(** ** Facts about the feature tree *)

Module ModelFacts.
Import Model Invariants.

(** *** The outcome monad *)

Lemma bind_Ok {A B} (m : Result A) (f : A -> Result B) (b : B) :
  m ≫= f = Ok b -> exists a, m = Ok a /\ f a = Ok b.
Proof. destruct m; cbn; try discriminate. eauto. Qed.

Lemma bind_Ok_l {A B} (a : A) (f : A -> Result B) : Ok a ≫= f = f a.
Proof. reflexivity. Qed.

Lemma assert_Ok (b : bool) (u : unit) : assert b = Ok u -> b = true.
Proof. destruct b; [reflexivity | discriminate]. Qed.

Lemma fromOption_Ok {A} (o : option A) (a : A) : fromOption o = Ok a <-> o = Some a.
Proof. destruct o; cbn; split; congruence. Qed.

Lemma getRep_Ok (w : World) (f : FeaturePtr) (rep : FeatureRep) :
  getRep w f = Ok rep <-> lookupRep w f = Some rep.
Proof. apply fromOption_Ok. Qed.

Lemma getPlacementRep_Ok (w : World) (p : SlotPtr) (q : PlacementRep) :
  getPlacementRep w p = Ok q <-> lookupPlacement w p = Some q.
Proof. apply fromOption_Ok. Qed.

Ltac inv_bind H :=
  let a := fresh "a" in
  let H1 := fresh H "l" in
  apply bind_Ok in H as (a & H1 & H).

(** *** Indexed loops *)

Lemma map_from_length {A B} (g : nat -> A -> B) (l : list A) : forall i,
  length (map_from g i l) = length l.
Proof. induction l as [|x l IH]; intros i; cbn; [reflexivity | now rewrite IH]. Qed.

Lemma map_from_lookup {A B} (g : nat -> A -> B) (l : list A) : forall i k,
  map_from g i l !! k = g (i + k) <$> l !! k.
Proof.
  induction l as [|x l IH]; intros i k; [reflexivity|].
  destruct k as [|k]; cbn.
  - now rewrite Nat.add_0_r.
  - rewrite IH. now replace (S i + k) with (i + S k) by lia.
Qed.

Lemma mapM_from_pure {A B} (f : nat -> A -> Result B) (g : nat -> A -> B) (l : list A) :
  forall i,
  (forall k x, l !! k = Some x -> f (i + k) x = Ok (g (i + k) x)) ->
  mapM_from f i l = Ok (map_from g i l).
Proof.
  induction l as [|x l IH]; intros i H; [reflexivity|].
  cbn. pose proof (H 0 x eq_refl) as H0. rewrite Nat.add_0_r in H0.
  rewrite H0. cbn. rewrite IH; [reflexivity|].
  intros k y Hk. replace (S i + k) with (i + S k) by lia. now apply H.
Qed.

Lemma mapM_from_Ok {A B} (f : nat -> A -> Result B) (l : list A) : forall i l',
  mapM_from f i l = Ok l' ->
  length l' = length l
  /\ forall k x, l !! k = Some x -> exists y, l' !! k = Some y /\ f (i + k) x = Ok y.
Proof.
  induction l as [|x l IH]; intros i l' H.
  - injection H as <-. split; [reflexivity | intros k x Hk; discriminate].
  - cbn in H. inv_bind H. inv_bind H. injection H as <-.
    destruct (IH _ _ Hl0) as [Hlen Hel]. split; [cbn; now rewrite Hlen|].
    intros [|k] y Hk; cbn in Hk.
    + injection Hk as <-. exists a. rewrite Nat.add_0_r. auto.
    + destruct (Hel k y Hk) as (z & Hz & Hf). exists z.
      replace (i + S k) with (S i + k) by lia. auto.
Qed.

Lemma forallb_from_lookup {A} (f : nat -> A -> bool) (l : list A) : forall i k x,
  forallb_from f i l = true -> l !! k = Some x -> f (i + k) x = true.
Proof.
  induction l as [|y l IH]; intros i k x H Hk; [discriminate|].
  cbn in H. apply andb_true_iff in H as [H1 H2].
  destruct k as [|k]; cbn in Hk.
  - injection Hk as <-. now rewrite Nat.add_0_r.
  - replace (i + S k) with (S i + k) by lia. now apply IH.
Qed.

(** *** Addresses and dereferencing *)

Lemma descend_app (rep : FeatureRep) (sigma tau : list nat) :
  descend rep (sigma ++ tau) =
    match descend rep sigma with Some n => descend n tau | None => None end.
Proof.
  revert rep; induction sigma as [|i sigma IH]; intros rep; [reflexivity|].
  cbn. destruct (subfeatures rep !! i); [apply IH | reflexivity].
Qed.

Lemma descend_snoc (rep : FeatureRep) (sigma : list nat) (i : nat) :
  descend rep (sigma ++ [i]) =
    match descend rep sigma with Some n => subfeatures n !! i | None => None end.
Proof.
  rewrite descend_app. destruct (descend rep sigma) as [n|]; [|reflexivity].
  cbn. now destruct (subfeatures n !! i).
Qed.

Lemma lookupRep_descendant (w : World) (f : FeaturePtr) (sigma : list nat) :
  lookupRep w (descendant f sigma) =
    match lookupRep w f with Some n => descend n sigma | None => None end.
Proof.
  unfold lookupRep, descendant. cbn. destruct (w !! base f); [|reflexivity].
  apply descend_app.
Qed.

Lemma descendant_nil (f : FeaturePtr) : descendant f [] = f.
Proof. destruct f as [b st]. unfold descendant. cbn. now rewrite app_nil_r. Qed.

Lemma descendant_app (f : FeaturePtr) (sigma tau : list nat) :
  descendant (descendant f sigma) tau = descendant f (sigma ++ tau).
Proof. unfold descendant. cbn. now rewrite app_assoc. Qed.

Lemma childPtr_descendant (f : FeaturePtr) (i : nat) : childPtr f i = descendant f [i].
Proof. reflexivity. Qed.

Lemma lookupRep_child (w : World) (f : FeaturePtr) (i : nat) :
  lookupRep w (childPtr f i) =
    match lookupRep w f with Some n => subfeatures n !! i | None => None end.
Proof.
  rewrite childPtr_descendant, lookupRep_descendant.
  destruct (lookupRep w f) as [n|]; [|reflexivity].
  cbn. now destruct (subfeatures n !! i).
Qed.

Lemma parentPtr_child (f : FeaturePtr) (i : nat) : parentPtr (childPtr f i) = Some f.
Proof.
  destruct f as [b st]. unfold parentPtr, childPtr. cbn.
  destruct (st ++ [i]) eqn:E; [now destruct st|].
  rewrite <- E, removelast_last. reflexivity.
Qed.

Lemma indexOf_child (f : FeaturePtr) (i : nat) : indexOf (childPtr f i) = Z.of_nat i.
Proof. unfold indexOf, childPtr. cbn. now rewrite last_snoc. Qed.

Lemma parentPtr_root (h : handle) : parentPtr (rootPtr h) = None.
Proof. reflexivity. Qed.

(** Every address is a root or a child. *)
Lemma ptr_cases (f : FeaturePtr) :
  (exists h, f = rootPtr h) \/ (exists g i, f = childPtr g i).
Proof.
  destruct f as [b st]. destruct st as [|x st] using rev_ind.
  - left. now exists b.
  - right. exists (FeatureAt b st), x. reflexivity.
Qed.

(** *** What the consistency check gives *)

Lemma consistentFeature_unfold (w : World) ep ei me rep :
  consistentFeature w ep ei me rep =
    (bool_decide (parent rep = ep)
     && bool_decide (indexInParent rep = ei)
     && forallb_from (fun i c =>
          consistentFeature w (Some me) (Z.of_nat i) (childPtr me i) c)
          0 (subfeatures rep)
     && forallb_from (consistentPlacement w me) 0 (placementExpressions rep)
     && forallb_from (consistentValue me) 0 (placementValues rep)
     && match placement rep with
        | None => true
        | Some pp => isValid (lookupPlacement w pp)
        end).
Proof. destruct rep; reflexivity. Qed.

Lemma isValid_true {A} (o : option A) : isValid o = true <-> is_Some o.
Proof.
  destruct o; cbn; split; intros H; try done; try (now eexists);
    now destruct H.
Qed.

Lemma consistentFeature_node (w : World) ep ei me rep :
  consistentFeature w ep ei me rep = true ->
  parent rep = ep /\ indexInParent rep = ei
  /\ (forall i c, subfeatures rep !! i = Some c ->
        consistentFeature w (Some me) (Z.of_nat i) (childPtr me i) c = true)
  /\ (forall j p, placementExpressions rep !! j = Some p ->
        consistentPlacement w me j p = true)
  /\ (forall j v, placementValues rep !! j = Some v -> consistentValue me j v = true)
  /\ (forall pp, placement rep = Some pp -> is_Some (lookupPlacement w pp)).
Proof.
  rewrite consistentFeature_unfold. rewrite !andb_true_iff.
  intros [[[[[H1 H2] H3] H4] H5] H6].
  apply bool_decide_eq_true in H1, H2.
  repeat split; try assumption.
  - intros i c Hi. apply (forallb_from_lookup _ _ 0 i c H3 Hi).
  - intros j p Hj. apply (forallb_from_lookup _ _ 0 j p H4 Hj).
  - intros j v Hj. apply (forallb_from_lookup _ _ 0 j v H5 Hj).
  - intros pp Hpp. rewrite Hpp in H6. now apply isValid_true.
Qed.

Lemma consistentFeature_descend (w : World) (sigma : list nat) :
  forall ep ei me rep n,
  consistentFeature w ep ei me rep = true ->
  descend rep sigma = Some n ->
  exists ep' ei', consistentFeature w ep' ei' (descendant me sigma) n = true
    /\ (sigma = [] -> ep' = ep /\ ei' = ei)
    /\ (sigma <> [] -> ep' = parentPtr (descendant me sigma)
                        /\ ei' = indexOf (descendant me sigma)).
Proof.
  induction sigma as [|i sigma IH] using rev_ind; intros ep ei me rep n Hc Hd.
  - injection Hd as <-. exists ep, ei. rewrite descendant_nil.
    split; [exact Hc|]. split; [intros _; split; reflexivity | intros E; congruence].
  - rewrite descend_snoc in Hd. destruct (descend rep sigma) as [m|] eqn:Hm; [|done].
    destruct (IH _ _ _ _ _ Hc Hm) as (ep' & ei' & Hc' & _).
    apply consistentFeature_node in Hc' as (_ & _ & Hsub & _).
    specialize (Hsub i n Hd).
    exists (Some (descendant me sigma)), (Z.of_nat i).
    rewrite <- descendant_app, <- childPtr_descendant.
    split; [exact Hsub|]. split; [intros E; now destruct sigma|].
    intros _. now rewrite parentPtr_child, indexOf_child.
Qed.

Lemma wfWorld_root (w : World) (h : handle) (R : FeatureRep) :
  wfWorld w -> w !! h = Some R ->
  consistentFeature w None (-1) (rootPtr h) R = true.
Proof.
  unfold wfWorld, wfWorldb. rewrite forallb_forall. intros Hwf Hh.
  apply (Hwf (h, R)). apply list_elem_of_In. now apply elem_of_map_to_list.
Qed.

Lemma wfWorld_subtree (w : World) (f : FeaturePtr) (n : FeatureRep) :
  wfWorld w -> lookupRep w f = Some n ->
  consistentFeature w (parentPtr f) (indexOf f) f n = true.
Proof.
  intros Hwf Hf. unfold lookupRep in Hf.
  destruct (w !! base f) as [R|] eqn:HR; [|done].
  pose proof (wfWorld_root w _ R Hwf HR) as Hc.
  destruct (consistentFeature_descend w (steps f) _ _ _ _ _ Hc Hf)
    as (ep & ei & Hn & Hnil & Hcons).
  assert (Hd : descendant (rootPtr (base f)) (steps f) = f) by now destruct f.
  rewrite Hd in *.
  destruct (steps f) as [|x st] eqn:E.
  - destruct (Hnil eq_refl) as [-> ->].
    unfold parentPtr, indexOf. rewrite E. exact Hn.
  - destruct (Hcons ltac:(discriminate)) as [-> ->]. exact Hn.
Qed.

Lemma wfWorld_node (w : World) (f : FeaturePtr) (n : FeatureRep) :
  wfWorld w -> lookupRep w f = Some n -> NodeOK w f n.
Proof.
  intros Hwf Hf. pose proof (wfWorld_subtree w f n Hwf Hf) as Hc.
  apply consistentFeature_node in Hc as (H1 & H2 & _ & H4 & H5 & H6).
  now constructor.
Qed.

(** *** Heights *)

Lemma height_unfold (rep : FeatureRep) :
  height rep = S (max_list (map height (subfeatures rep))).
Proof. destruct rep; reflexivity. Qed.

Lemma height_descend (sigma : list nat) : forall rep n,
  descend rep sigma = Some n -> length sigma + height n <= height rep.
Proof.
  induction sigma as [|i sigma IH]; intros rep n Hd.
  - injection Hd as <-. cbn. lia.
  - cbn in Hd. destruct (subfeatures rep !! i) as [c|] eqn:Hc; [|done].
    specialize (IH _ _ Hd). rewrite (height_unfold rep).
    assert (height c <= max_list (map height (subfeatures rep))).
    { apply max_list_elem_of_le. apply list_elem_of_fmap.
      exists c. split; [reflexivity|]. eapply list_elem_of_lookup_2, Hc. }
    cbn. lia.
Qed.

Lemma worldHeight_le (w : World) (h : handle) (R : FeatureRep) :
  w !! h = Some R -> height R <= worldHeight w.
Proof.
  intros Hh. unfold worldHeight. apply max_list_elem_of_le.
  apply list_elem_of_fmap. exists (h, R). split; [reflexivity|].
  now apply elem_of_map_to_list.
Qed.

Lemma valid_depth (w : World) (f : FeaturePtr) (n : FeatureRep) :
  lookupRep w f = Some n -> length (steps f) < worldHeight w.
Proof.
  unfold lookupRep. destruct (w !! base f) as [R|] eqn:HR; [|done].
  intros Hd. apply height_descend in Hd. apply worldHeight_le in HR.
  rewrite (height_unfold n) in Hd. lia.
Qed.

(** *** In-place updates *)

Lemma local_setSubfeatures (n : FeatureRep) (l : list FeatureRep) :
  local (setSubfeatures n l) = local n.
Proof. reflexivity. Qed.

Lemma local_fields (n n' : FeatureRep) :
  local n = local n' ->
  name n = name n' /\ featureTypeName n = featureTypeName n'
  /\ requiredPlacementType n = requiredPlacementType n'
  /\ parent n = parent n' /\ indexInParent n = indexInParent n'
  /\ placementExpressions n = placementExpressions n'
  /\ placementValues n = placementValues n' /\ placement n = placement n'.
Proof. destruct n, n'; cbn. intros [= -> -> -> -> -> -> -> ->]. repeat split. Qed.

Section Update.
Variable g : FeatureRep -> FeatureRep.
Hypothesis g_subfeatures : forall n, subfeatures (g n) = subfeatures n.

Lemma descend_updateAt (path : list nat) : forall rep tau,
  local <$> descend (updateAt rep path g) tau =
    (fun n => local (if bool_decide (tau = path) then g n else n)) <$> descend rep tau.
Proof.
  induction path as [|i path IH]; intros rep tau.
  - cbn [updateAt]. destruct tau as [|j tau].
    + reflexivity.
    + cbn [descend]. rewrite g_subfeatures.
      destruct (subfeatures rep !! j) as [c|]; [|reflexivity].
      destruct (descend c tau); reflexivity.
  - cbn [updateAt]. destruct (subfeatures rep !! i) as [c|] eqn:Hc.
    + destruct tau as [|j tau]; [reflexivity|].
      cbn [descend subfeatures setSubfeatures].
      destruct (decide (j = i)) as [->|Hne].
      * rewrite list_lookup_insert_eq by (eapply lookup_lt_Some, Hc).
        rewrite Hc, IH. destruct (descend c tau) as [n|]; [|reflexivity].
        cbn. do 2 case_bool_decide; congruence.
      * rewrite list_lookup_insert_ne by congruence.
        destruct (subfeatures rep !! j) as [c'|]; [|reflexivity].
        destruct (descend c' tau) as [n|]; [|reflexivity].
        cbn. case_bool_decide; congruence.
    + destruct (descend rep tau) as [n|] eqn:Hn; [|reflexivity].
      cbn. case_bool_decide as E; [|reflexivity].
      subst tau. cbn in Hn. rewrite Hc in Hn. discriminate.
Qed.

Lemma lookupRep_updRep_eq (w : World) (f f' : FeaturePtr) :
  local <$> lookupRep (updRep w f g) f' =
    (fun n => local (if bool_decide (f' = f) then g n else n)) <$> lookupRep w f'.
Proof.
  unfold lookupRep, updRep.
  destruct (w !! base f) as [R|] eqn:HR.
  - destruct (decide (base f' = base f)) as [E|Hne].
    + rewrite E, lookup_insert_eq, HR, descend_updateAt.
      destruct (descend R (steps f')) as [n|]; [|reflexivity]. cbn.
      do 2 case_bool_decide; try reflexivity.
      * exfalso. destruct f, f'; cbn in *; congruence.
      * exfalso. destruct f, f'; cbn in *; congruence.
    + rewrite lookup_insert_ne by congruence.
      destruct (w !! base f') as [R'|]; [|reflexivity].
      destruct (descend R' (steps f')) as [n|]; [|reflexivity]. cbn.
      case_bool_decide; [congruence | reflexivity].
  - destruct (w !! base f') as [R'|] eqn:HR'; [|reflexivity].
    destruct (descend R' (steps f')) as [n|]; [|reflexivity]. cbn.
    case_bool_decide; [congruence | reflexivity].
Qed.

Lemma lookupRep_updRep (w : World) (f f' : FeaturePtr) (n : FeatureRep) :
  lookupRep w f' = Some n ->
  exists n', lookupRep (updRep w f g) f' = Some n'
    /\ local n' = local (if bool_decide (f' = f) then g n else n).
Proof.
  intros Hn. pose proof (lookupRep_updRep_eq w f f') as H. rewrite Hn in H.
  destruct (lookupRep (updRep w f g) f') as [n'|]; [|discriminate].
  apply (inj Some) in H. exists n'. split; [reflexivity | exact H].
Qed.

Lemma lookupRep_updRep_inv (w : World) (f f' : FeaturePtr) (n' : FeatureRep) :
  lookupRep (updRep w f g) f' = Some n' ->
  exists n, lookupRep w f' = Some n
    /\ local n' = local (if bool_decide (f' = f) then g n else n).
Proof.
  intros Hn. pose proof (lookupRep_updRep_eq w f f') as H. rewrite Hn in H.
  destruct (lookupRep w f') as [n|]; [|discriminate].
  apply (inj Some) in H. exists n. split; [reflexivity | exact H].
Qed.

End Update.

Lemma lookupPlacement_updRep (g : FeatureRep -> FeatureRep) (w : World)
    (f : FeaturePtr) (pp : SlotPtr) :
  (forall n, subfeatures (g n) = subfeatures n) ->
  (forall n, placementExpressions (g n) = placementExpressions n) ->
  lookupPlacement (updRep w f g) pp = lookupPlacement w pp.
Proof.
  intros Hs Hp. unfold lookupPlacement.
  pose proof (lookupRep_updRep_eq g Hs w f (holder pp)) as H.
  destruct (lookupRep w (holder pp)) as [n|];
    destruct (lookupRep (updRep w f g) (holder pp)) as [n'|]; try discriminate;
    [|reflexivity].
  apply (inj Some) in H. apply local_fields in H as (_ & _ & _ & _ & _ & H & _).
  rewrite H. case_bool_decide; [now rewrite Hp | reflexivity].
Qed.

Lemma push_subfeatures (np : PlacementRep) (n : FeatureRep) :
  subfeatures (pushPlacementExpression np n) = subfeatures n.
Proof. reflexivity. Qed.

Lemma lookupPlacement_push_old (w : World) (f : FeaturePtr) (np q : PlacementRep)
    (pp : SlotPtr) :
  lookupPlacement w pp = Some q ->
  lookupPlacement (updRep w f (pushPlacementExpression np)) pp = Some q.
Proof.
  unfold lookupPlacement.
  destruct (lookupRep w (holder pp)) as [n|] eqn:Hn; [|discriminate]. intros Hq.
  destruct (lookupRep_updRep _ (push_subfeatures np) w f _ n Hn) as (n' & -> & Hl).
  apply local_fields in Hl as (_ & _ & _ & _ & _ & Hl & _). rewrite Hl.
  case_bool_decide; [|exact Hq]. cbn. now apply lookup_app_l_Some.
Qed.

Lemma lookupPlacement_push_new (w : World) (f : FeaturePtr) (np : PlacementRep)
    (n : FeatureRep) :
  lookupRep w f = Some n ->
  lookupPlacement (updRep w f (pushPlacementExpression np))
    (SlotAt f (length (placementExpressions n))) = Some np.
Proof.
  intros Hn. unfold lookupPlacement. cbn [holder slot].
  destruct (lookupRep_updRep _ (push_subfeatures np) w f _ n Hn) as (n' & -> & Hl).
  apply local_fields in Hl as (_ & _ & _ & _ & _ & Hl & _). rewrite Hl.
  rewrite bool_decide_eq_true_2 by reflexivity. cbn.
  rewrite lookup_app_r by lia. now rewrite Nat.sub_diag.
Qed.

(** *** Walking the parent chain *)

Lemma Reaches_inv (w : World) (f root : FeaturePtr) :
  Reaches w f root -> f <> root ->
  exists rep pp, lookupRep w f = Some rep /\ parent rep = Some pp /\ Reaches w pp root.
Proof. intros H Hne. inversion H; subst; [congruence | eauto]. Qed.

Lemma walkUp_rooted (w : World) (root : FeaturePtr) (n : nat) (f : FeaturePtr) :
  RootedWithin w n f ->
  forall fuel trace, n < fuel ->
  exists b tr, walkUp fuel w root f trace = Ok (b, tr)
    /\ (b = true <-> Reaches w f root)
    /\ (b = true -> exists tr', tr = trace ++ tr' /\ Climb w f root tr')
    /\ (b = false -> tr = []).
Proof.
  induction 1 as [n f rep Hf Hp | n f rep pp Hf Hp Hr IH]; intros fuel trace Hfuel;
    (destruct fuel as [|fuel]; [lia|]); cbn [walkUp]; case_bool_decide as Heq.
  - subst. exists true, trace. split; [reflexivity|]. split; [split; [constructor | reflexivity]|].
    split; [|discriminate]. intros _. exists []. rewrite app_nil_r. split; [reflexivity | constructor].
  - unfold getParentPtr, getRep. rewrite Hf. cbn. rewrite Hp.
    exists false, []. split; [reflexivity|]. split; [|split; [discriminate | reflexivity]].
    split; [discriminate|]. intros HR.
    destruct (Reaches_inv _ _ _ HR Heq) as (rep' & pp & Hf' & Hp' & _). congruence.
  - subst. exists true, trace. split; [reflexivity|]. split; [split; [constructor | reflexivity]|].
    split; [|discriminate]. intros _. exists []. rewrite app_nil_r. split; [reflexivity | constructor].
  - unfold getParentPtr, getRep. rewrite Hf. cbn. rewrite Hp.
    destruct (IH fuel (trace ++ [indexInParent rep]) ltac:(lia))
      as (b & tr & Hw & Hb & Hc & Hn).
    exists b, tr. split; [exact Hw|]. split; [|split; [|exact Hn]].
    + rewrite Hb. split.
      * intros HR. econstructor; eassumption.
      * intros HR. destruct (Reaches_inv _ _ _ HR Heq) as (rep' & pp' & Hf' & Hp' & HR').
        congruence.
    + intros Ht. destruct (Hc Ht) as (tr' & -> & Hcl).
      exists (indexInParent rep :: tr'). rewrite <- app_assoc. split; [reflexivity|].
      econstructor; eassumption.
Qed.

Lemma parentPtr_Some (f pp : FeaturePtr) :
  parentPtr f = Some pp -> exists i, f = childPtr pp i /\ indexOf f = Z.of_nat i.
Proof.
  destruct (ptr_cases f) as [[h ->] | (g & i & ->)]; [discriminate|].
  rewrite parentPtr_child, indexOf_child. intros [= ->]. eauto.
Qed.

Lemma Climb_wf (w : World) (f root : FeaturePtr) (tr : list Z) :
  wfWorld w -> Climb w f root tr ->
  exists sigma, f = descendant root sigma /\ tr = rev (map Z.of_nat sigma).
Proof.
  intros Hwf. induction 1 as [f | f rep pp root tr Hne Hf Hp Hc IH].
  - exists []. now rewrite descendant_nil.
  - destruct IH as (sigma & -> & ->).
    destruct (wfWorld_node w f rep Hwf Hf) as [Hpar Hidx _ _ _].
    rewrite Hp in Hpar. symmetry in Hpar.
    destruct (parentPtr_Some _ _ Hpar) as (i & -> & Hi).
    exists (sigma ++ [i]). rewrite childPtr_descendant, descendant_app.
    split; [reflexivity|]. rewrite map_app, rev_app_distr. cbn. congruence.
Qed.

(** C3, as the code has it: on a parent chain that ends, the verdict of
    [isFeatureInFeatureTree] is true exactly when following the chain of
    [f] reaches [root]; the trace returned with a true verdict holds the
    child indices in the order they are met on the way up from [f] (it is
    not reversed before returning), so in a consistent world it is the
    reversal of the descent from [root] to [f]; with a false verdict the
    trace is empty. *)
Theorem isFeatureInFeatureTree_spec (fuel : nat) (w : World) (root f : FeaturePtr)
    (n : nat) :
  RootedWithin w n f -> n < fuel ->
  exists b tr, isFeatureInFeatureTree fuel w root f = Ok (b, tr)
    /\ (b = true <-> Reaches w f root)
    /\ (b = true -> Climb w f root tr)
    /\ (b = false -> tr = [])
    /\ (wfWorld w -> b = true ->
        exists sigma, f = descendant root sigma /\ tr = rev (map Z.of_nat sigma)).
Proof.
  intros Hr Hfuel. unfold isFeatureInFeatureTree.
  destruct (walkUp_rooted w root n f Hr fuel [] Hfuel) as (b & tr & Hw & Hb & Hc & Hn).
  exists b, tr. split; [exact Hw|]. split; [exact Hb|].
  assert (Hcl : b = true -> Climb w f root tr).
  { intros Ht. destruct (Hc Ht) as (tr' & -> & Hcl). exact Hcl. }
  split; [exact Hcl|]. split; [exact Hn|].
  intros Hwf Ht. apply (Climb_wf w f root tr Hwf (Hcl Ht)).
Qed.

Lemma isFeatureInFeatureTree_spec_witness :
  RootedWithin Scenario.world 2 Scenario.pX /\ 2 < 3
  /\ exists b tr,
      isFeatureInFeatureTree 3 Scenario.world Scenario.pRoot Scenario.pX = Ok (b, tr)
      /\ (b = true <-> Reaches Scenario.world Scenario.pX Scenario.pRoot)
      /\ (b = true -> Climb Scenario.world Scenario.pX Scenario.pRoot tr)
      /\ (b = false -> tr = [])
      /\ (wfWorld Scenario.world -> b = true ->
          exists sigma, Scenario.pX = descendant Scenario.pRoot sigma
                        /\ tr = rev (map Z.of_nat sigma)).
Proof.
  assert (H : RootedWithin Scenario.world 2 Scenario.pX).
  { eapply Rooted_up; [reflexivity | reflexivity |].
    eapply Rooted_up; [reflexivity | reflexivity |].
    eapply Rooted_root; reflexivity. }
  split; [exact H|]. split; [lia|].
  apply (isFeatureInFeatureTree_spec 3 Scenario.world Scenario.pRoot Scenario.pX 2 H).
  lia.
Defined.

(** C3, as the specification words it, fails: the trace returned for X
    under Root is bottom-up; replayed in its own order from Root it does
    not lead to X, its reversal does. *)
Lemma isFeatureInFeatureTree_trace_not_top_down :
  wfWorld Scenario.world
  /\ isFeatureInFeatureTree 3 Scenario.world Scenario.pRoot Scenario.pX
      = Ok (true, [0; 1]%Z)
  /\ stepDown Scenario.world Scenario.pRoot [1; 0]%Z = Ok Scenario.pX
  /\ stepDown Scenario.world Scenario.pRoot [0; 1]%Z <> Ok Scenario.pX.
Proof.
  split; [reflexivity|]. split; [reflexivity|]. split; [reflexivity|].
  vm_compute. discriminate.
Qed.

Lemma wfWorld_rooted (w : World) (f : FeaturePtr) (n : FeatureRep) :
  wfWorld w -> lookupRep w f = Some n -> RootedWithin w (length (steps f)) f.
Proof.
  intros Hwf. destruct f as [b st]. revert n.
  induction st as [|i st IH] using rev_ind; intros n Hf.
  - destruct (wfWorld_node w _ n Hwf Hf) as [Hpar _ _ _ _].
    eapply Rooted_root; eassumption.
  - destruct (wfWorld_node w _ n Hwf Hf) as [Hpar _ _ _ _].
    change (FeatureAt b (st ++ [i])) with (childPtr (FeatureAt b st) i) in *.
    rewrite parentPtr_child in Hpar. rewrite lookupRep_child in Hf.
    destruct (lookupRep w (FeatureAt b st)) as [m|] eqn:Hm; [|done].
    cbn [steps childPtr]. rewrite length_app. cbn. rewrite Nat.add_1_r.
    eapply Rooted_up; [|exact Hpar | eapply IH; reflexivity].
    rewrite lookupRep_child, Hm. exact Hf.
Qed.

(** *** The youngest common ancestor *)

Lemma pathToRoot_rooted (w : World) (n : nat) (f : FeaturePtr) :
  RootedWithin w n f ->
  forall fuel acc, n < fuel ->
  exists l, pathToRoot fuel w (Some f) acc = Ok (acc ++ l) /\ ChainToRoot w f l.
Proof.
  induction 1 as [n f rep Hf Hp | n f rep pp Hf Hp Hr IH]; intros fuel acc Hfuel;
    (destruct fuel as [|fuel]; [lia|]); cbn [pathToRoot];
    unfold getParentPtr, getRep; rewrite Hf; cbn; rewrite Hp.
  - exists [f]. split; [now destruct fuel | econstructor; eassumption].
  - destruct (IH fuel (acc ++ [f]) ltac:(lia)) as (l & Hl & Hc).
    exists (f :: l). rewrite Hl, <- app_assoc. split; [reflexivity|].
    econstructor; eassumption.
Qed.

Lemma findRootFeature_rooted (w : World) (n : nat) (f : FeaturePtr) :
  RootedWithin w n f ->
  forall fuel l, n < fuel -> ChainToRoot w f l ->
  exists r, findRootFeature fuel w f = Ok r /\ last l = Some r.
Proof.
  induction 1 as [n f rep Hf Hp | n f rep pp Hf Hp Hr IH]; intros fuel l Hfuel Hc;
    (destruct fuel as [|fuel]; [lia|]); cbn [findRootFeature];
    unfold getRep; rewrite Hf; cbn; rewrite Hp.
  - exists f. split; [reflexivity|]. inversion Hc; subst; [reflexivity | congruence].
  - inversion Hc as [? ? Hf' Hp' | ? rep' pp' l' Hf' Hp' Hc']; subst; [congruence|].
    assert (pp' = pp) as -> by congruence.
    destruct (IH fuel l' ltac:(lia) Hc') as (r & Hr' & Hl).
    exists r. split; [exact Hr'|]. rewrite last_cons, Hl. reflexivity.
Qed.










(** *** Names *)

Lemma getFullName_rooted (w : World) (n : nat) (f : FeaturePtr) :
  RootedWithin w n f ->
  forall fuel, n < fuel -> exists s, getFullName fuel w f = Ok s.
Proof.
  induction 1 as [n f rep Hf Hp | n f rep pp Hf Hp Hr IH]; intros fuel Hfuel;
    (destruct fuel as [|fuel]; [lia|]); cbn [getFullName];
    unfold getRep; rewrite Hf; cbn; rewrite Hp.
  - eexists. reflexivity.
  - destruct (IH fuel ltac:(lia)) as (s & ->). eexists. reflexivity.
Qed.

Lemma wfWorld_rooted_fuel (w : World) (f : FeaturePtr) (fuel : nat) :
  wfWorld w -> is_Some (lookupRep w f) -> worldHeight w <= fuel ->
  exists n, RootedWithin w n f /\ n < fuel.
Proof.
  intros Hwf [rep Hf] Hfuel. exists (length (steps f)).
  split; [eapply wfWorld_rooted; eassumption|].
  apply valid_depth in Hf. lia.
Qed.

(** *** Registration of a placement *)

Lemma isLimitedToSubtree_spec (fuel : nat) (w : World) (root : FeaturePtr)
    (refs : list (option FeaturePtr)) :
  (forall r, In (Some r) refs -> exists n, RootedWithin w n r /\ n < fuel) ->
  exists res, isLimitedToSubtree fuel w refs root = Ok res
    /\ match res with
       | None => forall r, In (Some r) refs -> Reaches w r root
       | Some o => In (Some o) refs /\ ~ Reaches w o root
       end.
Proof.
  induction refs as [|[r|] refs IH]; intros Hrefs.
  - exists None. split; [reflexivity | intros r []].
  - destruct (Hrefs r (or_introl eq_refl)) as (n & Hr & Hn).
    destruct IH as (res & Hres & Hspec); [intros r' Hr'; apply Hrefs; now right|].
    destruct (walkUp_rooted w root n r Hr fuel [] Hn) as (b & tr & Hw & Hb & _).
    cbn [isLimitedToSubtree]. unfold isFeatureInFeatureTree. rewrite Hw. cbn.
    destruct b; cbn.
    + exists res. split; [exact Hres|]. destruct res as [o|].
      * destruct Hspec. split; [now right | assumption].
      * intros r' [[= <-] | Hr']; [now apply Hb | now apply Hspec].
    + exists (Some r). split; [reflexivity|]. split; [now left|].
      intros HR. apply Hb in HR. discriminate.
  - destruct IH as (res & Hres & Hspec); [intros r' Hr'; apply Hrefs; now right|].
    exists res. split; [exact Hres|]. destruct res as [o|].
    + destruct Hspec. split; [now right | assumption].
    + intros r' [[=] | Hr']. now apply Hspec.
Qed.

(** C6: [addPlacementLike] throws exactly when some Feature the placement
    references directly is not in the subtree of the owner, and then it
    throws PlacementMustBeLocal with the full names of the owner and of the
    offending reference; otherwise it appends to the placement expressions
    of the owner a copy of the placement that differs only in its stamp:
    the owner, and the previous length of the sequence as index. *)
Theorem addPlacementLike_spec (fuel : nat) (w : World) (O : FeaturePtr)
    (rep : FeatureRep) (p : PlacementRep) :
  wfWorld w -> lookupRep w O = Some rep ->
  (forall r, In (Some r) (featureRefs p) -> is_Some (lookupRep w r)) ->
  worldHeight w <= fuel ->
  exists ownerName, getFullName fuel w O = Ok ownerName
  /\ ((exists r, In (Some r) (featureRefs p) /\ ~ Reaches w r O)
      <-> exists e, addPlacementLike fuel w O p = Throw e)
  /\ (forall e, addPlacementLike fuel w O p = Throw e ->
      exists offender offenderName,
        In (Some offender) (featureRefs p) /\ ~ Reaches w offender O
        /\ getFullName fuel w offender = Ok offenderName
        /\ e = PlacementMustBeLocal "FeatureRep::addPlacementLike"
                ownerName offenderName)
  /\ ((forall r, In (Some r) (featureRefs p) -> Reaches w r O) ->
      let index := length (placementExpressions rep) in
      let stored :=
        mkPlacementRep (placementType p) (featureRefs p) (valueRef p)
          (Some O) (Z.of_nat index) in
      exists w' rep',
        addPlacementLike fuel w O p = Ok (w', SlotAt O index)
        /\ lookupRep w' O = Some rep'
        /\ placementExpressions rep' = placementExpressions rep ++ [stored]
        /\ lookupPlacement w' (SlotAt O index) = Some stored).
Proof.
  intros Hwf HO Hvalid Hfuel.
  destruct (wfWorld_rooted_fuel w O fuel Hwf (mk_is_Some _ _ HO) Hfuel) as (nO & HrO & HnO).
  destruct (getFullName_rooted w nO O HrO fuel HnO) as (ownerName & Hname).
  exists ownerName. split; [exact Hname|].
  destruct (isLimitedToSubtree_spec fuel w O (featureRefs p)) as (res & Hres & Hspec).
  { intros r Hr. apply wfWorld_rooted_fuel; auto. }
  unfold addPlacementLike, getRep. rewrite HO. cbn. rewrite Hres. cbn.
  destruct res as [o|].
  - destruct Hspec as [Hin Hout].
    destruct (wfWorld_rooted_fuel w o fuel Hwf (Hvalid o Hin) Hfuel) as (no & Hro & Hno).
    destruct (getFullName_rooted w no o Hro fuel Hno) as (oName & HoName).
    rewrite Hname, HoName. cbn. split; [|split].
    + split; [eauto | intros _; eauto].
    + intros e [= <-]. exists o, oName. auto.
    + intros Hall. exfalso. apply Hout, Hall, Hin.
  - split; [|split].
    + split; [|intros [e He]; discriminate].
      intros (r & Hr & Hout). exfalso. apply Hout, Hspec, Hr.
    + intros e He. discriminate.
    + intros _. cbv zeta.
      set (np := setOwner (cloneUnownedWithNewHandle p) (Some O)
                   (Z.of_nat (length (placementExpressions rep)))).
      destruct (lookupRep_updRep _ (push_subfeatures np) w O O rep HO) as (rep' & Hrep' & Hl).
      exists (updRep w O (pushPlacementExpression np)), rep'.
      split; [reflexivity|]. split; [exact Hrep'|].
      rewrite bool_decide_eq_true_2 in Hl by reflexivity.
      apply local_fields in Hl as (_ & _ & _ & _ & _ & Hl & _).
      split; [exact Hl|]. apply (lookupPlacement_push_new w O np rep HO).
Qed.

Lemma addPlacementLike_spec_witness :
  wfWorld Scenario.world
  /\ lookupRep Scenario.world Scenario.pA = Some Scenario.repA
  /\ (exists e, addPlacementLike 3 Scenario.world Scenario.pA Scenario.stationAtB = Throw e)
  /\ exists w' rep',
      addPlacementLike 3 Scenario.world Scenario.pRoot Scenario.stationAtB
        = Ok (w', SlotAt Scenario.pRoot 0)
      /\ lookupRep w' Scenario.pRoot = Some rep'.
Proof.
  assert (Hwf : wfWorld Scenario.world) by reflexivity.
  assert (Hv : forall r, In (Some r) (featureRefs Scenario.stationAtB) ->
               is_Some (lookupRep Scenario.world r)).
  { intros r [[= <-] | []]. eexists. reflexivity. }
  assert (Hh : worldHeight Scenario.world <= 3) by (vm_compute; lia).
  split; [exact Hwf|]. split; [reflexivity|]. split.
  - destruct (addPlacementLike_spec 3 Scenario.world Scenario.pA Scenario.repA
                Scenario.stationAtB Hwf eq_refl Hv Hh) as (nm & _ & Hiff & _).
    apply Hiff. exists Scenario.pB. split; [now left|].
    intros HR. inversion HR as [|? ? ? ? Hl Hp HR']; subst.
    vm_compute in Hl. injection Hl as <-. vm_compute in Hp. injection Hp as <-.
    inversion HR' as [|? ? ? ? Hl' Hp' _]; subst.
    vm_compute in Hl'. injection Hl' as <-. discriminate Hp'.
  - destruct (addPlacementLike_spec 3 Scenario.world Scenario.pRoot Scenario.repRoot
                Scenario.stationAtB Hwf eq_refl Hv Hh) as (nm & _ & _ & _ & Hok).
    destruct Hok as (w' & rep' & H1 & H2 & _).
    + intros r [[= <-] | []]. eapply Reaches_up; [reflexivity | reflexivity | constructor].
    + exists w', rep'. split; [exact H1 | exact H2].
Defined.

(** *** Placing *)

Lemma findRootFeature_total (w : World) (n : nat) (f : FeaturePtr) (fuel : nat) :
  RootedWithin w n f -> n < fuel -> exists r, findRootFeature fuel w f = Ok r.
Proof.
  intros Hr Hn. destruct (pathToRoot_rooted w n f Hr fuel [] Hn) as (l & _ & Hc).
  destruct (findRootFeature_rooted w n f Hr fuel l Hn Hc) as (r & Hroot & _). eauto.
Qed.

Lemma isLimitedToSubtree_constant (fuel : nat) (w : World) (root : FeaturePtr)
    (refs : list (option FeaturePtr)) :
  forallb (fun r => match r with None => true | Some _ => false end) refs = true ->
  isLimitedToSubtree fuel w refs root = Ok None.
Proof.
  induction refs as [|[r|] refs IH]; cbn; intros H; [reflexivity | discriminate | auto].
Qed.

Lemma findAncestorFeature_constant (fuel : nat) (w : World) (bound : FeaturePtr)
    (refs : list (option FeaturePtr)) :
  forallb (fun r => match r with None => true | Some _ => false end) refs = true ->
  findAncestorFeature fuel w refs bound = Ok (Some bound).
Proof.
  induction refs as [|[r|] refs IH]; cbn; intros H; [reflexivity | discriminate | auto].
Qed.

Lemma dependsOnRefs_constant via (w : World) (f : FeaturePtr)
    (refs : list (option FeaturePtr)) :
  forallb (fun r => match r with None => true | Some _ => false end) refs = true ->
  dependsOnRefs via w f refs = Ok false.
Proof.
  induction refs as [|[r|] refs IH]; cbn; intros H; [reflexivity | discriminate | auto].
Qed.

Lemma childPtr_ne (f : FeaturePtr) (i : nat) : childPtr f i <> f.
Proof.
  destruct f as [b st]. unfold childPtr. cbn. intros [= H].
  apply (f_equal length) in H. rewrite length_app in H. cbn in H. lia.
Qed.

Lemma setPlacement_subfeatures (x : option SlotPtr) (n : FeatureRep) :
  subfeatures (setPlacement n x) = subfeatures n.
Proof. reflexivity. Qed.

(** C7, as the code has it: when the placement's category is not the one
    the Feature requires and the conversion answers a handle without rep,
    [place] throws PlacementCantBeUsedForThisFeature with the name of the
    category of the placement offered, the full name of the Feature and
    the kind of the Feature.  When the conversion fails by throwing, as the
    default [useFeatureAs...Placement] hooks do, [place] does not catch the
    exception: the call ends with the exception of the conversion. *)
Theorem place_conversion_failure conv (fuel : nat) (w : World) (F : FeaturePtr)
    (rep : FeatureRep) (p : PlacementRep) :
  wfWorld w -> lookupRep w F = Some rep -> length (steps F) < fuel ->
  placementType p <> requiredPlacementType rep ->
  exists fullName, getFullName fuel w F = Ok fullName
    /\ (conv rep p = Ok None ->
        place conv fuel w F p =
          Throw (PlacementCantBeUsedForThisFeature
                   (getPlacementTypeName (placementType p)) fullName
                   (featureTypeName rep)))
    /\ (forall e, conv rep p = Throw e -> place conv fuel w F p = Throw e).
Proof.
  intros Hwf HF Hfuel Htype.
  pose proof (wfWorld_rooted w F rep Hwf HF) as Hr.
  destruct (getFullName_rooted w _ F Hr fuel Hfuel) as (nm & Hnm).
  exists nm. split; [exact Hnm|].
  unfold place, getRep. rewrite HF. cbn. unfold pTweaked.
  rewrite bool_decide_eq_false_2 by exact Htype. split.
  - intros Hconv. rewrite Hconv. cbn. rewrite Hnm. reflexivity.
  - intros e Hconv. rewrite Hconv. reflexivity.
Qed.

Lemma place_conversion_failure_witness :
  wfWorld Scenario.world
  /\ lookupRep Scenario.world Scenario.pB = Some Scenario.repB
  /\ (exists fullName, getFullName 3 Scenario.world Scenario.pB = Ok fullName
      /\ place Scenario.noConversion 3 Scenario.world Scenario.pB Scenario.constantFrame =
           Throw (PlacementCantBeUsedForThisFeature
                    (getPlacementTypeName (placementType Scenario.constantFrame)) fullName
                    (featureTypeName Scenario.repB)))
  /\ place Forest.hookConversion 3 Scenario.world Scenario.pB Scenario.constantFrame =
       Throw (FeatureCantBeUsedAsPlacement "Root/A" "Frame" "Real").
Proof.
  split; [reflexivity|]. split; [reflexivity|]. split.
  - destruct (place_conversion_failure Scenario.noConversion 3 Scenario.world Scenario.pB
                Scenario.repB Scenario.constantFrame)
      as (nm & Hnm & Hnone & _);
      [reflexivity | reflexivity | cbn; lia | discriminate |].
    exists nm. split; [exact Hnm | now apply Hnone].
  - destruct (place_conversion_failure Forest.hookConversion 3 Scenario.world Scenario.pB
                Scenario.repB Scenario.constantFrame)
      as (nm & _ & _ & Hthrow);
      [reflexivity | reflexivity | cbn; lia | discriminate |].
    now apply Hthrow.
Defined.

(** C7, as the specification words it, fails: B requires a Real placement
    and is offered a Frame placement that cannot be converted; the
    exception names the category offered, the path and the kind, and the
    required category is none of the three. *)
Lemma place_exception_names_offered_category :
  lookupRep Scenario.world Scenario.pB = Some Scenario.repB
  /\ place Scenario.noConversion 3 Scenario.world Scenario.pB Scenario.constantFrame =
       Throw (PlacementCantBeUsedForThisFeature "Frame" "Root/B" "RealParameter")
  /\ getPlacementTypeName (requiredPlacementType Scenario.repB) = "Real"%string
  /\ ~ In (getPlacementTypeName (requiredPlacementType Scenario.repB))
          ["Frame"; "Root/B"; "RealParameter"]%string.
Proof.
  split; [reflexivity|]. split; [reflexivity|]. split; [reflexivity|].
  cbn. intros [H | [H | [H | []]]]; discriminate H.
Qed.

(** C1: a placement that references no Features, placed on a Feature of a
    consistent world, is stored under the Feature itself when the Feature
    is a root, and under its parent, which is not the Feature, otherwise.
    The conversion of the Feature kind is assumed to turn a placement
    without references into one without references. *)
Theorem place_constant_owner conv (fuel : nat) (w : World) (F : FeaturePtr)
    (rep : FeatureRep) (p q : PlacementRep) :
  wfWorld w -> lookupRep w F = Some rep -> length (steps F) < fuel ->
  isConstant p = true ->
  (forall q', conv rep p = Ok (Some q') -> isConstant q' = true) ->
  pTweaked conv rep p = Ok (Some q) ->
  placementType q = requiredPlacementType rep ->
  exists w' rep' good stored,
    place conv fuel w F p = Ok w'
    /\ lookupRep w' F = Some rep'
    /\ placement rep' = Some good
    /\ lookupPlacement w' good = Some stored
    /\ featureRefs stored = featureRefs q
    /\ match parent rep with
       | None => owner stored = Some F /\ holder good = F
       | Some pp => owner stored = Some pp /\ holder good = pp /\ pp <> F
       end.
Proof.
  intros Hwf HF Hfuel Hp Hconv Hq Htype.
  assert (Hcq : isConstant q = true).
  { unfold pTweaked in Hq. case_bool_decide; [congruence | auto]. }
  pose proof (wfWorld_rooted w F rep Hwf HF) as Hr.
  destruct (findRootFeature_total w _ F fuel Hr Hfuel) as (root & Hroot).
  destruct (wfWorld_node w F rep Hwf HF) as [Hpar _ _ _ _].
  set (ca := match parent rep with Some pp => pp | None => F end).
  assert (Hca : exists repca, lookupRep w ca = Some repca
            /\ (ca = F \/ (parent rep = Some ca /\ ca <> F /\ 1 < fuel))).
  { subst ca. destruct (parent rep) as [pp|] eqn:Hpp.
    - symmetry in Hpar. destruct (parentPtr_Some _ _ Hpar) as (i & -> & _).
      rewrite lookupRep_child in HF.
      destruct (lookupRep w pp) as [m|] eqn:Hm; [|discriminate].
      exists m. split; [reflexivity|]. right. split; [reflexivity|].
      split; [intros E; symmetry in E; now apply childPtr_ne in E|].
      cbn in Hfuel. rewrite length_app in Hfuel. cbn in Hfuel. lia.
    - exists rep. split; [exact HF | now left]. }
  destruct Hca as (repca & Hrepca & Hcases).
  set (np := setOwner (cloneUnownedWithNewHandle q) (Some ca)
               (Z.of_nat (length (placementExpressions repca)))).
  set (good := SlotAt ca (length (placementExpressions repca))).
  set (w1 := updRep w ca (pushPlacementExpression np)).
  assert (Hgood1 : lookupPlacement w1 good = Some np)
    by apply (lookupPlacement_push_new w ca np repca Hrepca).
  assert (Hex1 : exists n1, lookupRep w1 F = Some n1
            /\ local n1 = local (if bool_decide (F = ca)
                                 then pushPlacementExpression np rep else rep))
    by apply (lookupRep_updRep _ (push_subfeatures np) w ca F rep HF).
  destruct Hex1 as (n1 & Hn1 & Hl1).
  assert (Hpar1 : parent n1 = parent rep).
  { apply local_fields in Hl1 as (_ & _ & _ & Hl1 & _). rewrite Hl1.
    now case_bool_decide. }
  set (w' := updRep w1 F (fun r => setPlacement r (Some good))).
  assert (Hex' : exists n', lookupRep w' F = Some n'
            /\ local n' = local (if bool_decide (F = F)
                                 then setPlacement n1 (Some good) else n1))
    by apply (lookupRep_updRep _ (setPlacement_subfeatures (Some good)) w1 F F n1 Hn1).
  destruct Hex' as (n' & Hn' & Hl').
  rewrite bool_decide_eq_true_2 in Hl' by reflexivity.
  apply local_fields in Hl' as (_ & _ & _ & _ & _ & _ & _ & Hl').
  assert (Hgood' : lookupPlacement w' good = Some np).
  { unfold w'. rewrite lookupPlacement_updRep; [exact Hgood1 | reflexivity..]. }
  assert (Hplace : place conv fuel w F p = Ok w').
  { unfold place, getRep. rewrite HF. cbn. rewrite Hq. cbn.
    rewrite bool_decide_eq_true_2 by exact Htype. cbn.
    rewrite Hroot. cbn.
    rewrite isLimitedToSubtree_constant by exact Hcq. cbn.
    rewrite findAncestorFeature_constant by exact Hcq. cbn.
    fold ca. unfold addPlacementLike, getRep. rewrite Hrepca. cbn.
    rewrite isLimitedToSubtree_constant by exact Hcq. cbn.
    fold np. fold w1. fold good. unfold getPlacementRep. rewrite Hgood1.
    cbn [fromOption]. rewrite bind_Ok_l.
    change (owner np) with (Some ca). cbv iota beta.
    assert (Hcnp : isConstant np = true) by exact Hcq.
    rewrite Hcnp. cbn [orb assert]. rewrite bind_Ok_l.
    assert (Hwalk : exists tr, isFeatureInFeatureTree fuel w1 ca F = Ok (true, tr)).
    { unfold isFeatureInFeatureTree. destruct fuel as [|fuel]; [lia|]. cbn [walkUp].
      destruct Hcases as [-> | (Hpp & Hne & Hf2)].
      - rewrite bool_decide_eq_true_2 by reflexivity. eauto.
      - rewrite bool_decide_eq_false_2 by congruence.
        unfold getParentPtr, getRep. rewrite Hn1. cbn. rewrite Hpar1, Hpp.
        destruct fuel as [|fuel]; [lia|]. cbn [walkUp].
        rewrite bool_decide_eq_true_2 by reflexivity. eauto. }
    destruct Hwalk as (tr & ->). cbn.
    destruct fuel as [|fuel]; [lia|]. cbn [dependsOn].
    rewrite dependsOnRefs_constant by exact Hcq. reflexivity. }
  exists w', n', good, np. split; [exact Hplace|]. split; [exact Hn'|].
  split; [exact Hl'|]. split; [exact Hgood'|]. split; [reflexivity|].
  subst ca good. destruct (parent rep) as [pp|] eqn:Hpp.
  - destruct Hcases as [-> | (_ & Hne & _)].
    + exfalso. symmetry in Hpar. destruct (parentPtr_Some _ _ Hpar) as (i & E & _).
      symmetry in E. now apply childPtr_ne in E.
    + auto.
  - auto.
Qed.

Lemma place_constant_owner_witness :
  wfWorld Scenario.world
  /\ (exists w' rep' good stored,
        place Scenario.noConversion 3 Scenario.world Scenario.pRoot Scenario.constantFrame
          = Ok w'
        /\ lookupRep w' Scenario.pRoot = Some rep' /\ placement rep' = Some good
        /\ lookupPlacement w' good = Some stored
        /\ owner stored = Some Scenario.pRoot)
  /\ (exists w' rep' good stored,
        place Scenario.noConversion 3 Scenario.world Scenario.pA Scenario.constantFrame
          = Ok w'
        /\ lookupRep w' Scenario.pA = Some rep' /\ placement rep' = Some good
        /\ lookupPlacement w' good = Some stored
        /\ owner stored = Some Scenario.pRoot).
Proof.
  split; [reflexivity|]. split.
  - destruct (place_constant_owner Scenario.noConversion 3 Scenario.world Scenario.pRoot
                Scenario.repRoot Scenario.constantFrame Scenario.constantFrame)
      as (w' & rep' & good & stored & H1 & H2 & H3 & H4 & _ & H5 & _);
      [reflexivity | reflexivity | cbn; lia | reflexivity | discriminate
      | reflexivity | reflexivity |].
    exists w', rep', good, stored. auto.
  - destruct (place_constant_owner Scenario.noConversion 3 Scenario.world Scenario.pA
                Scenario.repA Scenario.constantFrame Scenario.constantFrame)
      as (w' & rep' & good & stored & H1 & H2 & H3 & H4 & _ & H5 & _);
      [reflexivity | reflexivity | cbn; lia | reflexivity | discriminate
      | reflexivity | reflexivity |].
    exists w', rep', good, stored. auto.
Defined.

(** *** Acyclicity *)

Lemma dependsOnRefs_false via (w : World) (f : FeaturePtr)
    (refs : list (option FeaturePtr)) :
  dependsOnRefs via w f refs = Ok false ->
  forall g, In (Some g) refs ->
    g <> f
    /\ exists rep, lookupRep w g = Some rep
       /\ forall pp, placement rep = Some pp ->
            exists q, lookupPlacement w pp = Some q /\ via q = Ok false.
Proof.
  induction refs as [|[r|] refs IH]; cbn [dependsOnRefs]; intros H g Hg.
  - destruct Hg.
  - case_bool_decide as Hne; [discriminate|].
    apply bind_Ok in H as (rep & Hrep & H). apply getRep_Ok in Hrep.
    apply bind_Ok in H as (d & Hd & H).
    destruct d; [discriminate|].
    destruct Hg as [[= <-] | Hg]; [|now apply IH].
    split; [exact Hne|]. exists rep. split; [exact Hrep|].
    intros pp Hpp. rewrite Hpp in Hd.
    apply bind_Ok in Hd as (q & Hq & Hd). apply getPlacementRep_Ok in Hq. eauto.
  - destruct Hg as [[=] | Hg]. now apply IH.
Qed.

Lemma dependsOn_sound (w : World) (f : FeaturePtr) (p : PlacementRep) :
  DependsOn w p f -> forall fuel, dependsOn fuel w p f <> Ok false.
Proof.
  induction 1 as [p f Hin | p g rep pp q f Hin Hrep Hpp Hq HD IH];
    intros [|fuel] H; try discriminate; cbn [dependsOn] in H;
    destruct (dependsOnRefs_false _ _ _ _ H _ Hin) as (Hne & rep' & Hrep' & Hvia).
  - congruence.
  - assert (rep' = rep) as -> by congruence.
    destruct (Hvia pp Hpp) as (q' & Hq' & Hfalse).
    assert (q' = q) as -> by congruence.
    exact (IH fuel Hfalse).
Qed.

(** The dependency is decided by the references and by the active
    placements of the Features other than [f]. *)
Lemma DependsOn_transfer (w w2 : World) (f : FeaturePtr) :
  (forall g rep pp q, g <> f ->
     lookupRep w g = Some rep -> placement rep = Some pp ->
     lookupPlacement w pp = Some q ->
     exists rep2 q2, lookupRep w2 g = Some rep2 /\ placement rep2 = Some pp
       /\ lookupPlacement w2 pp = Some q2 /\ featureRefs q2 = featureRefs q) ->
  forall p, DependsOn w p f ->
  forall p2, featureRefs p2 = featureRefs p -> DependsOn w2 p2 f.
Proof.
  intros Htr p HD.
  induction HD as [p f Hin | p g rep pp q f Hin Hrep Hpp Hq HD IH]; intros p2 Hrefs.
  - apply DependsOn_direct. now rewrite Hrefs.
  - destruct (decide (g = f)) as [->|Hne].
    + apply DependsOn_direct. now rewrite Hrefs.
    + destruct (Htr g rep pp q Hne Hrep Hpp Hq) as (rep2 & q2 & H1 & H2 & H3 & H4).
      eapply DependsOn_through; [rewrite Hrefs; exact Hin | exact H1 | exact H2 | exact H3 |].
      apply IH; assumption.
Qed.

(** C8: a call of [place] that returns has stored a placement that does
    not depend on the Feature it is now attached to; hence a placement
    that, after the type reconciliation, depends on the Feature is never
    placed on it: the call ends in an error or in the failed assertion. *)
Theorem place_acyclic conv (fuel : nat) (w : World) (F : FeaturePtr)
    (p : PlacementRep) (w' : World) :
  place conv fuel w F p = Ok w' ->
  (exists rep' good stored,
      lookupRep w' F = Some rep' /\ placement rep' = Some good
      /\ lookupPlacement w' good = Some stored
      /\ ~ DependsOn w' stored F)
  /\ (forall rep q, lookupRep w F = Some rep -> pTweaked conv rep p = Ok (Some q) ->
      ~ DependsOn w q F).
Proof.
  intros H. unfold place in H.
  apply bind_Ok in H as (rep & Hrep & H). apply getRep_Ok in Hrep.
  apply bind_Ok in H as (tw & Htw & H).
  destruct tw as [q|]; [|apply bind_Ok in H as (? & _ & H); discriminate].
  apply bind_Ok in H as (? & _ & H).
  apply bind_Ok in H as (root & _ & H).
  apply bind_Ok in H as (off & _ & H).
  destruct off as [o|];
    [apply bind_Ok in H as (? & _ & H); apply bind_Ok in H as (? & _ & H); discriminate|].
  apply bind_Ok in H as (ca' & _ & H).
  destruct ca' as [ca|]; [|discriminate].
  apply bind_Ok in H as ([w1 good] & Hadd & H).
  apply bind_Ok in H as (goodRep & Hgood & H). apply getPlacementRep_Ok in Hgood.
  destruct (owner goodRep) as [o|]; [|discriminate].
  apply bind_Ok in H as (? & _ & H).
  apply bind_Ok in H as ([inTree tr] & _ & H).
  apply bind_Ok in H as (? & _ & H).
  apply bind_Ok in H as (dep & Hdep & H).
  apply bind_Ok in H as (? & Hassert & H). apply assert_Ok in Hassert.
  destruct dep; [discriminate|]. injection H as <-.
  (* what addPlacementLike did *)
  unfold addPlacementLike in Hadd.
  apply bind_Ok in Hadd as (repca & Hrepca & Hadd). apply getRep_Ok in Hrepca.
  apply bind_Ok in Hadd as (off & _ & Hadd).
  destruct off as [o'|];
    [apply bind_Ok in Hadd as (? & _ & Hadd);
     apply bind_Ok in Hadd as (? & _ & Hadd); discriminate|].
  injection Hadd as <- <-.
  set (np := setOwner (cloneUnownedWithNewHandle q) (Some ca)
               (Z.of_nat (length (placementExpressions repca)))) in *.
  set (w1 := updRep w ca (pushPlacementExpression np)) in *.
  set (good := SlotAt ca (length (placementExpressions repca))) in *.
  assert (goodRep = np) as ->.
  { pose proof (lookupPlacement_push_new w ca np repca Hrepca) as Hn.
    fold w1 good in Hn. congruence. }
  set (setP := fun r : FeatureRep => setPlacement r (Some good)).
  assert (HsetP : forall n, subfeatures (setP n) = subfeatures n) by reflexivity.
  assert (Hnot1 : ~ DependsOn w1 np F).
  { intros HD. exact (dependsOn_sound w1 F np HD fuel Hdep). }
  split.
  - assert (HF1 : exists n1, lookupRep w1 F = Some n1).
    { destruct (lookupRep_updRep _ (push_subfeatures np) w ca F rep Hrep) as (n1 & Hn1 & _).
      eauto. }
    destruct HF1 as (n1 & Hn1).
    destruct (lookupRep_updRep setP HsetP w1 F F n1 Hn1) as (n' & Hn' & Hl').
    rewrite bool_decide_eq_true_2 in Hl' by reflexivity.
    apply local_fields in Hl' as (_ & _ & _ & _ & _ & _ & _ & Hl').
    exists n', good, np. split; [exact Hn'|]. split; [exact Hl'|].
    assert (Hpl : forall pp, lookupPlacement (updRep w1 F setP) pp = lookupPlacement w1 pp).
    { intros pp. apply lookupPlacement_updRep; reflexivity. }
    split; [rewrite Hpl; exact Hgood|].
    intros HD. apply Hnot1.
    apply (DependsOn_transfer (updRep w1 F setP) w1 F) with (p := np);
      [|exact HD | reflexivity].
    intros g repg pp qg Hne Hg Hpp Hqg.
    destruct (lookupRep_updRep_inv setP HsetP w1 F g repg Hg) as (n & Hn & Hl).
    rewrite bool_decide_eq_false_2 in Hl by exact Hne.
    apply local_fields in Hl as (_ & _ & _ & _ & _ & _ & _ & Hl).
    exists n, qg. split; [exact Hn|]. split; [congruence|].
    split; [rewrite <- Hpl; exact Hqg | reflexivity].
  - intros rep0 q0 Hrep0 Htw0 HD.
    assert (rep0 = rep) as -> by congruence.
    assert (q0 = q) as -> by congruence.
    apply Hnot1.
    apply (DependsOn_transfer w w1 F) with (p := q); [|exact HD | reflexivity].
    intros g repg pp qg Hne Hg Hpp Hqg.
    destruct (lookupRep_updRep _ (push_subfeatures np) w ca g repg Hg) as (n & Hn & Hl).
    apply local_fields in Hl as (_ & _ & _ & _ & _ & _ & _ & Hl).
    exists n, qg. split; [exact Hn|]. split.
    + rewrite Hl. case_bool_decide; exact Hpp.
    + split; [|reflexivity]. now apply lookupPlacement_push_old.
Qed.

Lemma place_acyclic_witness :
  exists w',
    place Scenario.noConversion 3 Scenario.world Scenario.pX Scenario.stationAtB = Ok w'
    /\ exists rep' good stored,
        lookupRep w' Scenario.pX = Some rep' /\ placement rep' = Some good
        /\ lookupPlacement w' good = Some stored
        /\ ~ DependsOn w' stored Scenario.pX.
Proof.
  destruct (place Scenario.noConversion 3 Scenario.world Scenario.pX Scenario.stationAtB)
    as [w'| | | |] eqn:E; try (vm_compute in E; discriminate E).
  exists w'. split; [reflexivity|].
  exact (proj1 (place_acyclic Scenario.noConversion 3 Scenario.world Scenario.pX
                  Scenario.stationAtB w' E)).
Defined.

(** *** Descents *)

Lemma stripPrefix_Some (p : list nat) : forall l sigma,
  stripPrefix p l = Some sigma <-> l = p ++ sigma.
Proof.
  induction p as [|x p IH]; intros l sigma; cbn.
  - split; [now intros [= ->] | now intros ->].
  - destruct l as [|y l]; [split; discriminate|].
    case_bool_decide as E.
    + subst y. rewrite IH. split; [now intros -> | now intros [= ->]].
    + split; [discriminate | intros [= -> _]; congruence].
Qed.

Lemma stripPrefix_snoc (p : list nat) : forall l i,
  p <> l ++ [i] ->
  stripPrefix p (l ++ [i]) = (fun sigma => sigma ++ [i]) <$> stripPrefix p l.
Proof.
  induction p as [|x p IH]; intros l i Hne; [reflexivity|].
  destruct l as [|y l]; cbn.
  - case_bool_decide as E; [|reflexivity]. subst x.
    destruct p; [exfalso; apply Hne; reflexivity | reflexivity].
  - case_bool_decide as E; [|reflexivity]. subst y.
    apply IH. intros ->. now apply Hne.
Qed.

Lemma below_Some (root f : FeaturePtr) (sigma : list nat) :
  below root f = Some sigma <-> f = descendant root sigma.
Proof.
  unfold below, descendant. destruct root as [b p], f as [b' l]. cbn.
  case_bool_decide as E.
  - subst b'. rewrite stripPrefix_Some. split; [now intros -> | now intros [= ->]].
  - split; [discriminate | intros [= -> _]; congruence].
Qed.

Lemma below_refl (f : FeaturePtr) : below f f = Some [].
Proof. apply below_Some. now rewrite descendant_nil. Qed.

Lemma below_child (root g : FeaturePtr) (i : nat) :
  childPtr g i <> root ->
  below root (childPtr g i) = (fun sigma => sigma ++ [i]) <$> below root g.
Proof.
  destruct root as [b p], g as [b' l]. unfold below, childPtr. cbn [base steps].
  intros Hne. case_bool_decide as E; [|reflexivity].
  apply stripPrefix_snoc. intros Hp. apply Hne. now subst.
Qed.

Lemma below_root (root : FeaturePtr) (h : handle) :
  rootPtr h <> root -> below root (rootPtr h) = None.
Proof.
  intros Hne. destruct (below root (rootPtr h)) as [sigma|] eqn:E; [|reflexivity].
  apply below_Some in E. exfalso. apply Hne.
  destruct root as [b p]. unfold descendant, rootPtr in *. cbn in E.
  injection E as -> E. symmetry in E. apply app_eq_nil in E as [-> _]. reflexivity.
Qed.

Lemma lookupRep_parent_valid (w : World) (g : FeaturePtr) (i : nat) (n : FeatureRep) :
  lookupRep w (childPtr g i) = Some n ->
  exists m, lookupRep w g = Some m /\ subfeatures m !! i = Some n.
Proof.
  rewrite lookupRep_child. destruct (lookupRep w g) as [m|]; [eauto | discriminate].
Qed.

(** In a world with consistent parents the walk from [f] finds [root]
    exactly when [f] is at or below [root], and its trace is the descent
    from [root] to [f] read backwards. *)
Lemma walkUp_below (w : World) (root : FeaturePtr) :
  ParentsOK w ->
  forall fuel f n trace,
  lookupRep w f = Some n -> length (steps f) < fuel ->
  walkUp fuel w root f trace =
    Ok match below root f with
       | Some sigma => (true, trace ++ rev (map Z.of_nat sigma))
       | None => (false, [])
       end.
Proof.
  intros Hpar. induction fuel as [|fuel IH]; intros f n trace Hf Hfuel; [lia|].
  cbn [walkUp]. case_bool_decide as Heq.
  - subst f. rewrite below_refl. cbn. now rewrite app_nil_r.
  - unfold getParentPtr, getRep. rewrite Hf. cbn.
    destruct (Hpar f n Hf) as [Hp Hi]. rewrite Hp.
    destruct (ptr_cases f) as [[h ->] | (g & i & ->)].
    + cbn. now rewrite below_root.
    + rewrite parentPtr_child. rewrite Hi, indexOf_child.
      destruct (lookupRep_parent_valid w g i n Hf) as (m & Hm & _).
      rewrite (IH g m _ Hm).
      * rewrite below_child by exact Heq.
        destruct (below root g) as [sigma|]; [|reflexivity]. cbn.
        rewrite map_app, rev_app_distr, <- app_assoc. reflexivity.
      * cbn in Hfuel. rewrite length_app in Hfuel. cbn in Hfuel. lia.
Qed.

Lemma stepDown_ok (w : World) (sigma : list nat) : forall newRoot,
  is_Some (lookupRep w (descendant newRoot sigma)) ->
  stepDown w newRoot (map Z.of_nat sigma) = Ok (descendant newRoot sigma).
Proof.
  induction sigma as [|i sigma IH]; intros newRoot Hv.
  - cbn. now rewrite descendant_nil.
  - cbn [map stepDown]. unfold getSubfeature, getRep.
    change (i :: sigma) with ([i] ++ sigma) in Hv |- *.
    rewrite <- descendant_app in Hv |- *.
    rewrite lookupRep_descendant in Hv.
    destruct (lookupRep w (descendant newRoot [i])) as [c|] eqn:Hc;
      [|now destruct Hv].
    rewrite <- childPtr_descendant in Hc.
    destruct (lookupRep_parent_valid w newRoot i c Hc) as (m & Hm & Hi).
    rewrite Hm. cbn. apply lookup_lt_Some in Hi.
    replace (0 <=? Z.of_nat i)%Z with true by (symmetry; apply Z.leb_le; lia).
    replace (Z.of_nat i <? Z.of_nat (length (subfeatures m)))%Z with true
      by (symmetry; apply Z.ltb_lt; lia).
    cbn. rewrite Nat2Z.id. rewrite childPtr_descendant. apply IH.
    rewrite lookupRep_descendant, <- childPtr_descendant, Hc. exact Hv.
Qed.

Lemma findCorrespondingFeature_below (fuel : nat) (w : World)
    (oldRoot f newRoot : FeaturePtr) (n : FeatureRep) :
  ParentsOK w -> lookupRep w f = Some n -> length (steps f) < fuel ->
  (forall sigma, below oldRoot f = Some sigma ->
     is_Some (lookupRep w (descendant newRoot sigma))) ->
  findCorrespondingFeature fuel w oldRoot f newRoot =
    Ok (descendant newRoot <$> below oldRoot f).
Proof.
  intros Hpar Hf Hfuel Hnew. unfold findCorrespondingFeature, isFeatureInFeatureTree.
  rewrite (walkUp_below w oldRoot Hpar fuel f n [] Hf Hfuel).
  destruct (below oldRoot f) as [sigma|]; [|reflexivity]. cbn.
  rewrite rev_involutive, stepDown_ok by auto. reflexivity.
Qed.

Lemma wfWorld_ParentsOK (w : World) : wfWorld w -> ParentsOK w.
Proof.
  intros Hwf f n Hf. destruct (wfWorld_node w f n Hwf Hf) as [H1 H2 _ _ _]. auto.
Qed.

(** *** The reparenting pass *)

Lemma FeatureRep_tree_ind (P : FeatureRep -> Prop) :
  (forall rep, Forall P (subfeatures rep) -> P rep) -> forall rep, P rep.
Proof.
  intros H. fix IH 1. intros [nm tn rt par idx subs pes pvs pl].
  apply H. cbn. induction subs as [|c subs IHs]; constructor; [apply IH | apply IHs].
Qed.

Lemma map_from_const {A B} (g : A -> B) (l : list A) : forall i,
  map_from (fun _ => g) i l = map g l.
Proof. induction l as [|x l IH]; intros i; cbn; [reflexivity | now rewrite IH]. Qed.

Lemma mapM_from_map_from {A B C} (f : nat -> B -> Result C) (g : nat -> A -> B)
    (h : nat -> A -> C) (l : list A) : forall i,
  (forall k x, l !! k = Some x -> f (i + k) (g (i + k) x) = Ok (h (i + k) x)) ->
  mapM_from f i (map_from g i l) = Ok (map_from h i l).
Proof.
  induction l as [|x l IH]; intros i H; [reflexivity|].
  cbn. pose proof (H 0 x eq_refl) as H0. rewrite Nat.add_0_r in H0.
  rewrite H0. cbn. rewrite IH; [reflexivity|].
  intros k y Hk. replace (S i + k) with (i + S k) by lia. now apply H.
Qed.

Lemma reparentMyChildren_unfold (me : FeaturePtr) (rep : FeatureRep) :
  reparentMyChildren me rep =
    (subs ← mapM_from (fun i c =>
              _ ← assert (bool_decide (parent c <> None));
              _ ← assert (bool_decide (indexInParent c = Z.of_nat i));
              c' ← reparentMyChildren (childPtr me i) c;
              Ok (setParentFeature c' (Some me) (Z.of_nat i)))
            0 (subfeatures rep);
     pes ← mapM_from (stampPlacement me) 0 (placementExpressions rep);
     pvs ← mapM_from (stampPlacementValue me) 0 (placementValues rep);
     Ok (setPlacementValues (setPlacementExpressions (setSubfeatures rep subs) pes) pvs)).
Proof. destruct rep; reflexivity. Qed.

Lemma consistentPlacement_stamp (w : World) (me : FeaturePtr) (j : nat) (p : PlacementRep) :
  consistentPlacement w me j p = true ->
  owner p = Some me /\ indexInOwner p = Z.of_nat j
  /\ (forall f, In (Some f) (featureRefs p) -> is_Some (lookupRep w f))
  /\ (forall v, valueRef p = Some v -> is_Some (lookupPlacementValue w v)).
Proof.
  unfold consistentPlacement. rewrite !andb_true_iff. intros [[[H1 H2] H3] H4].
  apply bool_decide_eq_true in H1, H2. split; [exact H1|]. split; [exact H2|]. split.
  - intros f Hf. rewrite forallb_forall in H3. specialize (H3 _ Hf).
    now apply isValid_true.
  - intros v Hv. rewrite Hv in H4. now apply isValid_true.
Qed.

Lemma consistentValue_stamp (me : FeaturePtr) (j : nat) (v : PlacementValueRep) :
  consistentValue me j v = true ->
  valueOwner v = Some me /\ valueIndexInOwner v = Z.of_nat j.
Proof.
  unfold consistentValue. rewrite andb_true_iff. intros [H1 H2].
  apply bool_decide_eq_true in H1, H2. auto.
Qed.

Lemma reparent_stamped (w : World) (rep : FeatureRep) :
  forall ep ei me0, consistentFeature w ep ei me0 rep = true ->
  forall me, exists r1,
    reparentMyChildren me rep = Ok r1
    /\ setParentFeature r1 (parentPtr me) (indexOf me) = stamped me rep
    /\ parent r1 = parent rep /\ indexInParent r1 = indexInParent rep.
Proof.
  induction rep as [rep IH] using FeatureRep_tree_ind.
  intros ep ei me0 Hc me.
  apply consistentFeature_node in Hc as (_ & _ & Hsub & Hpes & Hpvs & _).
  rewrite reparentMyChildren_unfold.
  rewrite (mapM_from_pure _ (fun i c =>
             setParentFeature (stamped (childPtr me i) c) (Some me) (Z.of_nat i))).
  2:{ intros k c Hk. cbv beta. cbn [Nat.add].
      pose proof (Hsub k c Hk) as Hck.
      pose proof Hck as Hck'. apply consistentFeature_node in Hck' as (Hp & Hi & _).
      rewrite (bool_decide_eq_true_2 (parent c <> None)) by (rewrite Hp; discriminate).
      rewrite (bool_decide_eq_true_2 (indexInParent c = Z.of_nat k)) by exact Hi. cbn.
      rewrite Forall_forall in IH.
      destruct (IH c (list_elem_of_lookup_2 _ _ _ Hk) _ _ _ Hck (childPtr me k))
        as (r1 & -> & Hst & _).
      cbn. rewrite parentPtr_child, indexOf_child in Hst. rewrite <- Hst.
      now destruct r1. }
  cbn.
  rewrite (mapM_from_pure _ (fun j p => setOwner p (Some me) (Z.of_nat j))).
  2:{ intros k p Hk. cbv beta. cbn [Nat.add]. unfold stampPlacement.
      destruct (consistentPlacement_stamp _ _ _ _ (Hpes k p Hk)) as (Ho & Hi & _).
      rewrite (bool_decide_eq_true_2 (owner p <> None)) by (rewrite Ho; discriminate).
      rewrite (bool_decide_eq_true_2 (indexInOwner p = Z.of_nat k)) by exact Hi.
      reflexivity. }
  cbn.
  rewrite (mapM_from_pure _ (fun j v => setValueOwner v (Some me) (Z.of_nat j))).
  2:{ intros k v Hk. cbv beta. cbn [Nat.add]. unfold stampPlacementValue.
      destruct (consistentValue_stamp _ _ _ (Hpvs k v Hk)) as (Ho & Hi).
      rewrite (bool_decide_eq_true_2 (valueOwner v <> None)) by (rewrite Ho; discriminate).
      rewrite (bool_decide_eq_true_2 (valueIndexInOwner v = Z.of_nat k)) by exact Hi.
      reflexivity. }
  cbn. eexists. split; [reflexivity|]. split; [|split; reflexivity].
  destruct rep as [nm tn rt par idx subs pes pvs pl]. cbn.
  unfold setParentFeature. cbn. f_equal.
  clear. generalize 0. induction subs as [|c subs IHs]; intros i; cbn; [reflexivity|].
  rewrite IHs. f_equal. rewrite <- (parentPtr_child me i) at 1.
  rewrite <- (indexOf_child me i). now destruct c.
Qed.

Lemma stamped_unfold (me : FeaturePtr) (rep : FeatureRep) :
  stamped me rep =
    mkFeatureRep (name rep) (featureTypeName rep) (requiredPlacementType rep)
      (parentPtr me) (indexOf me)
      (map_from (fun i c => stamped (childPtr me i) c) 0 (subfeatures rep))
      (map_from (fun j p => setOwner p (Some me) (Z.of_nat j)) 0
         (placementExpressions rep))
      (map_from (fun j v => setValueOwner v (Some me) (Z.of_nat j)) 0
         (placementValues rep))
      (placement rep).
Proof. destruct rep; reflexivity. Qed.

Lemma cloned_unfold (this : FeaturePtr) (h : handle) (me : FeaturePtr)
    (rep : FeatureRep) :
  cloned this h me rep =
    mkFeatureRep (name rep) (featureTypeName rep) (requiredPlacementType rep)
      (parentPtr me) (indexOf me)
      (map_from (fun i c => cloned this h (childPtr me i) c) 0 (subfeatures rep))
      (map_from (relocatePlacement this h me) 0 (placementExpressions rep))
      (map_from (fun j v => setValueOwner v (Some me) (Z.of_nat j)) 0
         (placementValues rep))
      (relocateSlotRef this h (placement rep)).
Proof. destruct rep; reflexivity. Qed.

Lemma stamped_setParentFeature (me : FeaturePtr) (rep : FeatureRep) ep ei :
  stamped me (setParentFeature rep ep ei) = stamped me rep.
Proof. destruct rep; reflexivity. Qed.

Lemma descendant_child (me : FeaturePtr) (i : nat) (sigma : list nat) :
  descendant (childPtr me i) sigma = descendant me (i :: sigma).
Proof. unfold descendant, childPtr. cbn. now rewrite <- app_assoc. Qed.

Lemma descend_stamped (sigma : list nat) : forall me rep,
  descend (stamped me rep) sigma = stamped (descendant me sigma) <$> descend rep sigma.
Proof.
  induction sigma as [|i sigma IH]; intros me rep.
  - cbn. now rewrite descendant_nil.
  - cbn [descend]. rewrite (stamped_unfold me rep) at 1. cbn [subfeatures].
    rewrite map_from_lookup. destruct (subfeatures rep !! i) as [c|]; [|reflexivity].
    cbn. rewrite IH, descendant_child. reflexivity.
Qed.

Lemma descend_cloned (this : FeaturePtr) (h : handle) (sigma : list nat) :
  forall me rep,
  descend (cloned this h me rep) sigma =
    cloned this h (descendant me sigma) <$> descend rep sigma.
Proof.
  induction sigma as [|i sigma IH]; intros me rep.
  - cbn. now rewrite descendant_nil.
  - cbn [descend]. rewrite (cloned_unfold this h me rep) at 1. cbn [subfeatures].
    rewrite map_from_lookup. destruct (subfeatures rep !! i) as [c|]; [|reflexivity].
    cbn. rewrite IH, descendant_child. reflexivity.
Qed.

Lemma consistentFeature_setParentFeature (w : World) ep ei me rep ep' ei' :
  consistentFeature w ep ei me rep = true ->
  consistentFeature w ep' ei' me (setParentFeature rep ep' ei') = true.
Proof.
  rewrite !consistentFeature_unfold. cbn. rewrite !andb_true_iff.
  intros [[[[[_ _] H3] H4] H5] H6].
  rewrite !bool_decide_eq_true_2 by reflexivity. repeat split; assumption.
Qed.

(** *** The world during the repair pass *)

Section Cloning.
Variables (w : World) (this : FeaturePtr) (T : FeatureRep) (h : handle) (fuel : nat).
Hypothesis Hwf : wfWorld w.
Hypothesis Hthis : lookupRep w this = Some T.
Hypothesis Hfresh : w !! h = None.
Hypothesis Hfuel : worldHeight w <= fuel.

Lemma fresh_base (f : FeaturePtr) : is_Some (lookupRep w f) -> base f <> h.
Proof.
  intros [n Hn] E. unfold lookupRep in Hn. rewrite E, Hfresh in Hn. discriminate.
Qed.

Section NewTree.
(** The new tree [C] has the shape of [T] and consistent parents and
    stamps. *)
Variable X : FeaturePtr -> FeatureRep -> FeatureRep.
Variable C : FeatureRep.
Hypothesis C_descend : forall sigma,
  descend C sigma = X (FeatureAt h sigma) <$> descend T sigma.
Hypothesis X_parent : forall me n,
  parent (X me n) = parentPtr me /\ indexInParent (X me n) = indexOf me.

Lemma lookupRep_old (f : FeaturePtr) :
  base f <> h -> lookupRep (<[h := C]> w) f = lookupRep w f.
Proof. intros Hne. unfold lookupRep. now rewrite lookup_insert_ne by congruence. Qed.

Lemma lookupRep_old_valid (f : FeaturePtr) (n : FeatureRep) :
  lookupRep w f = Some n -> lookupRep (<[h := C]> w) f = Some n.
Proof.
  intros Hn. rewrite lookupRep_old; [exact Hn|]. apply fresh_base. eauto.
Qed.

Lemma lookupRep_new (sigma : list nat) :
  lookupRep (<[h := C]> w) (FeatureAt h sigma) = X (FeatureAt h sigma) <$> descend T sigma.
Proof. unfold lookupRep. cbn. rewrite lookup_insert_eq. apply C_descend. Qed.

Lemma lookupRep_under (sigma : list nat) :
  lookupRep w (descendant this sigma) = descend T sigma.
Proof. now rewrite lookupRep_descendant, Hthis. Qed.

Lemma ParentsOK_new : ParentsOK (<[h := C]> w).
Proof.
  intros f n Hn. destruct (decide (base f = h)) as [E|Hne].
  - destruct f as [b sigma]. cbn in E. subst b. rewrite lookupRep_new in Hn.
    destruct (descend T sigma) as [m|]; [|discriminate]. injection Hn as <-.
    apply X_parent.
  - rewrite lookupRep_old in Hn by exact Hne.
    now apply (wfWorld_ParentsOK w Hwf).
Qed.

(** The correspondence lookup of a pointer that is valid in the old
    world. *)
Lemma findCorrespondingFeature_clone (f : FeaturePtr) :
  is_Some (lookupRep w f) ->
  findCorrespondingFeature fuel (<[h := C]> w) this f (rootPtr h) = Ok (relocate this h f).
Proof.
  intros [n Hn].
  rewrite (findCorrespondingFeature_below fuel _ this f (rootPtr h) n).
  - unfold relocate. now destruct (below this f).
  - apply ParentsOK_new.
  - now apply lookupRep_old_valid.
  - apply valid_depth in Hn. lia.
  - intros sigma Hs. apply below_Some in Hs. subst f.
    rewrite lookupRep_under in Hn.
    change (descendant (rootPtr h) sigma) with (FeatureAt h sigma).
    rewrite lookupRep_new, Hn. eauto.
Qed.

Hypothesis X_placements : forall me n j,
  (fun q => (owner q, indexInOwner q)) <$> placementExpressions (X me n) !! j =
  (fun _ => (Some me, Z.of_nat j)) <$> placementExpressions n !! j.
Hypothesis X_values : forall me n j,
  (fun v => (valueOwner v, valueIndexInOwner v)) <$> placementValues (X me n) !! j =
  (fun _ => (Some me, Z.of_nat j)) <$> placementValues n !! j.

Lemma relocate_Some (f co : FeaturePtr) :
  relocate this h f = Some co ->
  exists sigma, f = descendant this sigma /\ co = FeatureAt h sigma.
Proof.
  unfold relocate. destruct (below this f) as [sigma|] eqn:E; [|discriminate].
  intros [= <-]. apply below_Some in E. eauto.
Qed.

Lemma in_range (j n : nat) :
  j < n -> ((0 <=? Z.of_nat j)%Z && (Z.of_nat j <? Z.of_nat n)%Z) = true.
Proof.
  intros H. apply andb_true_iff. split; [apply Z.leb_le | apply Z.ltb_lt]; lia.
Qed.

(** The correspondence lookup of a placement that is stored in the old
    world. *)
Lemma findCorrespondingPlacement_clone (pp : SlotPtr) (p : PlacementRep) :
  lookupPlacement w pp = Some p ->
  findCorrespondingPlacement fuel (<[h := C]> w) this p (rootPtr h)
  = Ok (relocateSlot this h pp).
Proof.
  intros Hp. unfold lookupPlacement in Hp.
  destruct (lookupRep w (holder pp)) as [n|] eqn:Hn; [|discriminate].
  destruct (wfWorld_node w _ n Hwf Hn) as [_ _ Hpes _ _].
  destruct (consistentPlacement_stamp _ _ _ _ (Hpes _ _ Hp)) as (Ho & Hi & _).
  unfold findCorrespondingPlacement, relocateSlot. rewrite Ho.
  rewrite findCorrespondingFeature_clone by eauto. cbn.
  destruct (relocate this h (holder pp)) as [co|] eqn:Hco; [|reflexivity].
  destruct (relocate_Some _ _ Hco) as (sigma & Hs & ->).
  rewrite Hs, lookupRep_under in Hn.
  pose proof (X_placements (FeatureAt h sigma) n (slot pp)) as Hq.
  rewrite Hp in Hq.
  destruct (placementExpressions (X (FeatureAt h sigma) n) !! slot pp) as [q|] eqn:Eq;
    [|discriminate].
  injection Hq as Hqo Hqi.
  unfold getPlacementExpression, getRep. rewrite lookupRep_new, Hn. cbn.
  rewrite Hi, in_range by (eapply lookup_lt_Some, Eq). cbn.
  rewrite Nat2Z.id. unfold getPlacementRep, lookupPlacement. cbn [holder slot].
  rewrite lookupRep_new, Hn. cbn. rewrite Eq. cbn.
  rewrite !bool_decide_eq_true_2 by congruence. reflexivity.
Qed.

Lemma findCorrespondingPlacementValue_clone (vp : SlotPtr) (v : PlacementValueRep) :
  lookupPlacementValue w vp = Some v ->
  findCorrespondingPlacementValue fuel (<[h := C]> w) this v (rootPtr h)
  = Ok (relocateSlot this h vp).
Proof.
  intros Hv. unfold lookupPlacementValue in Hv.
  destruct (lookupRep w (holder vp)) as [n|] eqn:Hn; [|discriminate].
  destruct (wfWorld_node w _ n Hwf Hn) as [_ _ _ Hpvs _].
  destruct (consistentValue_stamp _ _ _ (Hpvs _ _ Hv)) as (Ho & Hi).
  unfold findCorrespondingPlacementValue, relocateSlot. rewrite Ho.
  rewrite findCorrespondingFeature_clone by eauto. cbn.
  destruct (relocate this h (holder vp)) as [co|] eqn:Hco; [|reflexivity].
  destruct (relocate_Some _ _ Hco) as (sigma & Hs & ->).
  rewrite Hs, lookupRep_under in Hn.
  pose proof (X_values (FeatureAt h sigma) n (slot vp)) as Hq.
  rewrite Hv in Hq.
  destruct (placementValues (X (FeatureAt h sigma) n) !! slot vp) as [q|] eqn:Eq;
    [|discriminate].
  injection Hq as Hqo Hqi.
  unfold getPlacementValue, getRep. rewrite lookupRep_new, Hn. cbn.
  rewrite Hi, in_range by (eapply lookup_lt_Some, Eq). cbn.
  rewrite Nat2Z.id. unfold getPlacementValueRep, lookupPlacementValue. cbn [holder slot].
  rewrite lookupRep_new, Hn. cbn. rewrite Eq. cbn.
  rewrite !bool_decide_eq_true_2 by congruence. reflexivity.
Qed.

End NewTree.

(** The world in which [fixPlacements] runs. *)
Local Abbreviation w1 := (<[h := stamped (rootPtr h) T]> w).

Lemma stamped_descend_root (sigma : list nat) :
  descend (stamped (rootPtr h) T) sigma = stamped (FeatureAt h sigma) <$> descend T sigma.
Proof. apply (descend_stamped sigma (rootPtr h) T). Qed.

Lemma stamped_parent (me : FeaturePtr) (n : FeatureRep) :
  parent (stamped me n) = parentPtr me /\ indexInParent (stamped me n) = indexOf me.
Proof. rewrite stamped_unfold. auto. Qed.

Lemma corr_feature (f : FeaturePtr) :
  is_Some (lookupRep w f) ->
  findCorrespondingFeature fuel w1 this f (rootPtr h) = Ok (relocate this h f).
Proof.
  apply (findCorrespondingFeature_clone stamped _ stamped_descend_root stamped_parent).
Qed.

Lemma lookupRep_w1_old (f : FeaturePtr) (n : FeatureRep) :
  lookupRep w f = Some n -> lookupRep w1 f = Some n.
Proof. apply lookupRep_old_valid. Qed.

Lemma lookupRep_w1_new (sigma : list nat) :
  lookupRep w1 (FeatureAt h sigma) = stamped (FeatureAt h sigma) <$> descend T sigma.
Proof. apply (lookupRep_new stamped _ stamped_descend_root). Qed.

Lemma stamped_placements (me : FeaturePtr) (n : FeatureRep) (j : nat) :
  (fun q => (owner q, indexInOwner q)) <$> placementExpressions (stamped me n) !! j =
  (fun _ => (Some me, Z.of_nat j)) <$> placementExpressions n !! j.
Proof.
  rewrite stamped_unfold. cbn [placementExpressions]. rewrite map_from_lookup.
  now destruct (placementExpressions n !! j).
Qed.

Lemma stamped_values (me : FeaturePtr) (n : FeatureRep) (j : nat) :
  (fun v => (valueOwner v, valueIndexInOwner v)) <$> placementValues (stamped me n) !! j =
  (fun _ => (Some me, Z.of_nat j)) <$> placementValues n !! j.
Proof.
  rewrite stamped_unfold. cbn [placementValues]. rewrite map_from_lookup.
  now destruct (placementValues n !! j).
Qed.

Lemma corr_placement (pp : SlotPtr) (p : PlacementRep) :
  lookupPlacement w pp = Some p ->
  findCorrespondingPlacement fuel w1 this p (rootPtr h) = Ok (relocateSlot this h pp).
Proof.
  apply (findCorrespondingPlacement_clone stamped _ stamped_descend_root stamped_parent
           stamped_placements).
Qed.

Lemma corr_value (vp : SlotPtr) (v : PlacementValueRep) :
  lookupPlacementValue w vp = Some v ->
  findCorrespondingPlacementValue fuel w1 this v (rootPtr h) = Ok (relocateSlot this h vp).
Proof.
  apply (findCorrespondingPlacementValue_clone stamped _ stamped_descend_root
           stamped_parent stamped_values).
Qed.

Lemma lookupPlacement_w1_old (pp : SlotPtr) (p : PlacementRep) :
  lookupPlacement w pp = Some p -> lookupPlacement w1 pp = Some p.
Proof.
  unfold lookupPlacement. destruct (lookupRep w (holder pp)) as [n|] eqn:Hn; [|discriminate].
  now rewrite (lookupRep_w1_old _ _ Hn).
Qed.

Lemma lookupPlacementValue_w1_old (vp : SlotPtr) (v : PlacementValueRep) :
  lookupPlacementValue w vp = Some v -> lookupPlacementValue w1 vp = Some v.
Proof.
  unfold lookupPlacementValue.
  destruct (lookupRep w (holder vp)) as [n|] eqn:Hn; [|discriminate].
  now rewrite (lookupRep_w1_old _ _ Hn).
Qed.

Lemma repair_placement (me0 : FeaturePtr) (k0 : nat) (p : PlacementRep) :
  consistentPlacement w me0 k0 p = true ->
  forall me k,
  (pr1 ← repairFeatureReferences fuel w1 this (rootPtr h)
           (setOwner p (Some me) (Z.of_nat k));
   repairValueReference fuel w1 this (rootPtr h) pr1)
  = Ok (relocatePlacement this h me k p).
Proof.
  intros Hc me k.
  destruct (consistentPlacement_stamp _ _ _ _ Hc) as (_ & _ & Hrefs & Hval).
  unfold repairFeatureReferences. cbn [featureRefs setOwner].
  rewrite (mapM_from_pure _ (fun _ => relocateRef this h)).
  2:{ intros j [f|] Hj; [|reflexivity]. cbv beta. cbn [relocateRef].
      apply corr_feature, Hrefs. apply list_elem_of_In. eapply list_elem_of_lookup_2, Hj. }
  rewrite map_from_const. cbn.
  unfold repairValueReference. cbn [valueRef setFeatureRefs setOwner].
  destruct (valueRef p) as [vp|] eqn:Hvp.
  - destruct (Hval vp eq_refl) as [v Hv].
    unfold getPlacementValueRep. rewrite (lookupPlacementValue_w1_old _ _ Hv). cbn.
    rewrite (corr_value _ _ Hv). cbn.
    unfold relocatePlacement. rewrite Hvp. reflexivity.
  - unfold relocatePlacement, setFeatureRefs, setOwner. cbn. rewrite Hvp. reflexivity.
Qed.

Lemma fixPlacements_unfold (w' : World) (oldRoot newRoot : FeaturePtr) (rep : FeatureRep) :
  fixPlacements fuel w' oldRoot newRoot rep =
    (subs ← mapM_from (fun _ c => fixPlacements fuel w' oldRoot newRoot c)
             0 (subfeatures rep);
     pes ← mapM_from (fun _ pr =>
               pr1 ← repairFeatureReferences fuel w' oldRoot newRoot pr;
               repairValueReference fuel w' oldRoot newRoot pr1)
             0 (placementExpressions rep);
     pl ← match placement rep with
          | None => Ok None
          | Some pp =>
              p ← getPlacementRep w' pp;
              findCorrespondingPlacement fuel w' oldRoot p newRoot
          end;
     Ok (setPlacement (setPlacementExpressions (setSubfeatures rep subs) pes) pl)).
Proof. destruct rep; reflexivity. Qed.

Lemma fix_cloned (rep : FeatureRep) :
  forall ep ei me0, consistentFeature w ep ei me0 rep = true ->
  forall me,
  fixPlacements fuel w1 this (rootPtr h) (stamped me rep) = Ok (cloned this h me rep).
Proof.
  induction rep as [rep IH] using FeatureRep_tree_ind.
  intros ep ei me0 Hc me.
  apply consistentFeature_node in Hc as (_ & _ & Hsub & Hpes & _ & Hact).
  rewrite fixPlacements_unfold, (stamped_unfold me rep).
  cbn [subfeatures placementExpressions placement].
  rewrite (mapM_from_map_from _ _ (fun i c => cloned this h (childPtr me i) c)).
  2:{ intros k c Hk. cbv beta. cbn [Nat.add]. rewrite Forall_forall in IH.
      eapply (IH c (list_elem_of_lookup_2 _ _ _ Hk)), Hsub, Hk. }
  cbn.
  rewrite (mapM_from_map_from _ _ (relocatePlacement this h me)).
  2:{ intros k p Hk. cbv beta. cbn [Nat.add].
      eapply repair_placement, Hpes, Hk. }
  cbn.
  assert (Hpl : match placement rep with
                | None => Ok None
                | Some pp =>
                    p ← getPlacementRep w1 pp;
                    findCorrespondingPlacement fuel w1 this p (rootPtr h)
                end = Ok (relocateSlotRef this h (placement rep))).
  { destruct (placement rep) as [pp|]; [|reflexivity].
    destruct (Hact pp eq_refl) as [p Hp].
    unfold getPlacementRep. rewrite (lookupPlacement_w1_old _ _ Hp). cbn.
    apply corr_placement, Hp. }
  rewrite Hpl. cbn. rewrite (cloned_unfold this h me rep). reflexivity.
Qed.

Lemma setParentFeature_same (r : FeatureRep) :
  setParentFeature r (parent r) (indexInParent r) = r.
Proof. now destruct r. Qed.

(** The clone is the copy that the specification describes. *)
Lemma clone_cloned :
  cloneWithoutParentOrExternalPlacements fuel w this h =
    Ok (<[h := cloned this h (rootPtr h) T]> w).
Proof.
  unfold cloneWithoutParentOrExternalPlacements, getRep. rewrite Hthis.
  cbn [fromOption]. rewrite bind_Ok_l. cbv zeta.
  pose proof (wfWorld_subtree w this T Hwf Hthis) as Hc.
  pose proof (consistentFeature_setParentFeature w _ _ _ _ None (-1) Hc) as Hc'.
  destruct (reparent_stamped w _ _ _ _ Hc' (rootPtr h)) as (r1 & Hr1 & Hst & Hp & Hi).
  unfold clone. rewrite Hr1, bind_Ok_l.
  assert (r1 = stamped (rootPtr h) T) as ->.
  { rewrite stamped_setParentFeature in Hst. rewrite <- Hst.
    cbn in Hp, Hi. rewrite <- Hp, <- Hi at 1.
    symmetry. apply setParentFeature_same. }
  rewrite insert_insert_eq.
  rewrite (fix_cloned T _ _ _ Hc), bind_Ok_l. now rewrite insert_insert_eq.
Qed.

(** The world after the clone. *)
Local Abbreviation w2 := (<[h := cloned this h (rootPtr h) T]> w).

Lemma cloned_descend_root (sigma : list nat) :
  descend (cloned this h (rootPtr h) T) sigma =
    cloned this h (FeatureAt h sigma) <$> descend T sigma.
Proof. apply (descend_cloned this h sigma (rootPtr h) T). Qed.

Lemma cloned_parent (me : FeaturePtr) (n : FeatureRep) :
  parent (cloned this h me n) = parentPtr me
  /\ indexInParent (cloned this h me n) = indexOf me.
Proof. rewrite cloned_unfold. auto. Qed.

Lemma lookupRep_w2_new (sigma : list nat) :
  lookupRep w2 (FeatureAt h sigma) = cloned this h (FeatureAt h sigma) <$> descend T sigma.
Proof. apply (lookupRep_new (cloned this h) _ cloned_descend_root). Qed.

Lemma ParentsOK_w2 : ParentsOK w2.
Proof. apply (ParentsOK_new (cloned this h) _ cloned_descend_root cloned_parent). Qed.

Lemma cloned_placements (me : FeaturePtr) (n : FeatureRep) (j : nat) :
  (fun q => (owner q, indexInOwner q))
    <$> placementExpressions (cloned this h me n) !! j =
  (fun _ => (Some me, Z.of_nat j)) <$> placementExpressions n !! j.
Proof.
  rewrite cloned_unfold. cbn [placementExpressions]. rewrite map_from_lookup.
  now destruct (placementExpressions n !! j).
Qed.

Lemma cloned_values (me : FeaturePtr) (n : FeatureRep) (j : nat) :
  (fun v => (valueOwner v, valueIndexInOwner v))
    <$> placementValues (cloned this h me n) !! j =
  (fun _ => (Some me, Z.of_nat j)) <$> placementValues n !! j.
Proof.
  rewrite cloned_unfold. cbn [placementValues]. rewrite map_from_lookup.
  now destruct (placementValues n !! j).
Qed.

(** The correspondence lookups of the repair pass have the same answers
    in the new tree as the reparenting pass left it and as the repair pass
    leaves it: they read the shape, the parents and the owner stamps of
    the new tree, which the repair pass does not change. *)
Lemma repair_lookups_stable :
  (forall f, is_Some (lookupRep w f) ->
     findCorrespondingFeature fuel w1 this f (rootPtr h)
     = findCorrespondingFeature fuel w2 this f (rootPtr h))
  /\ (forall pp p, lookupPlacement w pp = Some p ->
       findCorrespondingPlacement fuel w1 this p (rootPtr h)
       = findCorrespondingPlacement fuel w2 this p (rootPtr h))
  /\ (forall vp v, lookupPlacementValue w vp = Some v ->
       findCorrespondingPlacementValue fuel w1 this v (rootPtr h)
       = findCorrespondingPlacementValue fuel w2 this v (rootPtr h)).
Proof.
  split; [|split].
  - intros f Hf. rewrite corr_feature by exact Hf. symmetry.
    now apply (findCorrespondingFeature_clone (cloned this h) _ cloned_descend_root
                 cloned_parent).
  - intros pp p Hp. rewrite (corr_placement pp p Hp). symmetry.
    now apply (findCorrespondingPlacement_clone (cloned this h) _ cloned_descend_root
                 cloned_parent cloned_placements).
  - intros vp v Hv. rewrite (corr_value vp v Hv). symmetry.
    now apply (findCorrespondingPlacementValue_clone (cloned this h) _
                 cloned_descend_root cloned_parent cloned_values).
Qed.

Lemma inside_relocate (f : FeaturePtr) :
  is_Some (lookupRep w f) -> insideFeature w2 h (relocate this h f).
Proof.
  intros [n Hn]. destruct (relocate this h f) as [co|] eqn:Hco; [|exact I].
  destruct (relocate_Some _ _ Hco) as (sigma & -> & ->).
  rewrite lookupRep_under in Hn. split; [reflexivity|].
  rewrite lookupRep_w2_new, Hn. eauto.
Qed.

Lemma inside_relocateSlot_placement (pp : SlotPtr) :
  is_Some (lookupPlacement w pp) -> insidePlacement w2 h (relocateSlot this h pp).
Proof.
  intros [p Hp]. unfold lookupPlacement in Hp.
  destruct (lookupRep w (holder pp)) as [n|] eqn:Hn; [|discriminate].
  unfold relocateSlot.
  destruct (relocate this h (holder pp)) as [co|] eqn:Hco; [|exact I].
  destruct (relocate_Some _ _ Hco) as (sigma & Hs & ->).
  rewrite Hs, lookupRep_under in Hn. split; [reflexivity|].
  unfold lookupPlacement. cbn [holder slot]. rewrite lookupRep_w2_new, Hn. cbn.
  rewrite cloned_unfold. cbn [placementExpressions].
  rewrite map_from_lookup, Hp. eauto.
Qed.

Lemma inside_relocateSlot_value (vp : SlotPtr) :
  is_Some (lookupPlacementValue w vp) -> insideValue w2 h (relocateSlot this h vp).
Proof.
  intros [v Hv]. unfold lookupPlacementValue in Hv.
  destruct (lookupRep w (holder vp)) as [n|] eqn:Hn; [|discriminate].
  unfold relocateSlot.
  destruct (relocate this h (holder vp)) as [co|] eqn:Hco; [|exact I].
  destruct (relocate_Some _ _ Hco) as (sigma & Hs & ->).
  rewrite Hs, lookupRep_under in Hn. split; [reflexivity|].
  unfold lookupPlacementValue. cbn [holder slot]. rewrite lookupRep_w2_new, Hn. cbn.
  rewrite cloned_unfold. cbn [placementValues].
  rewrite map_from_lookup, Hv. eauto.
Qed.

Lemma cloned_node (sigma : list nat) (n : FeatureRep) :
  descend T sigma = Some n ->
  NodeCloned w2 this h sigma n (cloned this h (FeatureAt h sigma) n).
Proof.
  intros Hn.
  assert (Hv : lookupRep w (descendant this sigma) = Some n)
    by now rewrite lookupRep_under.
  destruct (wfWorld_node w _ n Hwf Hv) as [_ _ Hpes Hpvs Hact].
  rewrite (cloned_unfold this h (FeatureAt h sigma) n).
  constructor; cbn [name featureTypeName requiredPlacementType subfeatures parent
                    indexInParent placementExpressions placementValues placement];
    try reflexivity.
  - apply map_from_length.
  - destruct (ptr_cases (FeatureAt h sigma)) as [[b E] | (g & i & E)]; rewrite E.
    + exact I.
    + rewrite parentPtr_child. split.
      * apply (f_equal base) in E. cbn in E. congruence.
      * assert (Hc : is_Some (lookupRep w2 (childPtr g i))).
        { rewrite <- E, lookupRep_w2_new, Hn. eauto. }
        destruct Hc as [c Hc].
        destruct (lookupRep_parent_valid _ _ _ _ Hc) as (m & Hm & _). eauto.
  - apply map_from_length.
  - intros j p q Hp Hq. rewrite map_from_lookup, Hp in Hq. cbn in Hq.
    injection Hq as <-.
    destruct (consistentPlacement_stamp _ _ _ _ (Hpes j p Hp)) as (_ & _ & Hrefs & Hval).
    constructor; cbn [placementType owner indexInOwner featureRefs valueRef
                      relocatePlacement]; try reflexivity.
    + apply Forall_forall. intros r' Hr'. apply list_elem_of_fmap in Hr' as (r & -> & Hr).
      destruct r as [f|]; [|exact I]. apply inside_relocate, Hrefs.
      now apply list_elem_of_In.
    + destruct (valueRef p) as [vp|]; [|exact I].
      apply inside_relocateSlot_value. auto.
  - apply map_from_length.
  - intros j v Hj. rewrite map_from_lookup in Hj.
    destruct (placementValues n !! j) as [v0|]; [|discriminate].
    injection Hj as <-. auto.
  - destruct (placement n) as [pp|]; [|exact I].
    apply inside_relocateSlot_placement. auto.
Qed.

End Cloning.

Lemma relocate_inside (this : FeaturePtr) (h : handle) (sigma : list nat) :
  relocate this h (descendant this sigma) = Some (FeatureAt h sigma).
Proof.
  unfold relocate.
  now rewrite (proj2 (below_Some this (descendant this sigma) sigma) eq_refl).
Qed.

Lemma relocate_outside (this : FeaturePtr) (h : handle) (f : FeaturePtr) :
  (forall sigma, f <> descendant this sigma) -> relocate this h f = None.
Proof.
  intros Hout. unfold relocate. destruct (below this f) as [sigma|] eqn:E; [|reflexivity].
  apply below_Some in E. now apply Hout in E.
Qed.

(** C2: the clone of the subtree under [this], made in a consistent world
    into a fresh free-standing handle, has the shape of the subtree; its
    top node has no parent and index -1; at every node the parent pointer,
    the owner stamps, the Feature references and value reference of every
    owned placement and the active placement are those of the original
    taken to the node at the same descent in the clone when they pointed
    into the subtree, and null otherwise; no pointer of the clone resolves
    outside the clone. *)
Theorem clone_purity (fuel : nat) (w : World) (this : FeaturePtr) (T : FeatureRep)
    (h : handle) :
  wfWorld w -> lookupRep w this = Some T -> w !! h = None -> worldHeight w <= fuel ->
  exists C,
    cloneWithoutParentOrExternalPlacements fuel w this h = Ok (<[h := C]> w)
    /\ parent C = None /\ indexInParent C = (-1)%Z
    /\ (forall sigma,
          match descend T sigma, descend C sigma with
          | Some n, Some c => NodeCloned (<[h := C]> w) this h sigma n c
          | None, None => True
          | _, _ => False
          end)
    /\ (forall sigma, relocate this h (descendant this sigma) = Some (FeatureAt h sigma))
    /\ (forall f, (forall sigma, f <> descendant this sigma) -> relocate this h f = None).
Proof.
  intros Hwf Hthis Hfresh Hfuel.
  exists (cloned this h (rootPtr h) T).
  split; [now apply clone_cloned|].
  split; [now rewrite cloned_unfold|]. split; [now rewrite cloned_unfold|].
  split; [|split; [apply relocate_inside | apply relocate_outside]].
  intros sigma. rewrite cloned_descend_root.
  destruct (descend T sigma) as [n|] eqn:Hn; [|exact I]. cbn.
  now apply cloned_node.
Qed.

Lemma clone_purity_witness :
  wfWorld Scenario.placedWorld
  /\ Scenario.placedWorld !! Scenario.hNew = None
  /\ worldHeight Scenario.placedWorld <= 3
  /\ exists T C,
      lookupRep Scenario.placedWorld Scenario.pA = Some T
      /\ cloneWithoutParentOrExternalPlacements 3 Scenario.placedWorld Scenario.pA
           Scenario.hNew = Ok (<[Scenario.hNew := C]> Scenario.placedWorld)
      /\ parent C = None /\ indexInParent C = (-1)%Z
      /\ forall sigma,
          match descend T sigma, descend C sigma with
          | Some n, Some c =>
              NodeCloned (<[Scenario.hNew := C]> Scenario.placedWorld) Scenario.pA
                Scenario.hNew sigma n c
          | None, None => True
          | _, _ => False
          end.
Proof.
  assert (Hwf : wfWorld Scenario.placedWorld) by (vm_compute; reflexivity).
  assert (Hfresh : Scenario.placedWorld !! Scenario.hNew = None) by (vm_compute; reflexivity).
  assert (Hh : worldHeight Scenario.placedWorld <= 3) by (vm_compute; lia).
  split; [exact Hwf|]. split; [exact Hfresh|]. split; [exact Hh|].
  destruct (lookupRep Scenario.placedWorld Scenario.pA) as [T|] eqn:HT;
    [|vm_compute in HT; discriminate HT].
  destruct (clone_purity 3 Scenario.placedWorld Scenario.pA T Scenario.hNew
              Hwf HT Hfresh Hh) as (C & H1 & H2 & H3 & H4 & _).
  exists T, C. auto.
Defined.

(** *** Correspondence *)

Lemma Reaches_descendant (w : World) (f root : FeaturePtr) :
  ParentsOK w -> Reaches w f root -> exists sigma, f = descendant root sigma.
Proof.
  intros Hpar. induction 1 as [f | f rep pp root Hf Hp HR IH].
  - exists []. now rewrite descendant_nil.
  - destruct IH as (sigma & ->).
    destruct (Hpar f rep Hf) as [Hpp _]. rewrite Hp in Hpp. symmetry in Hpp.
    destruct (parentPtr_Some _ _ Hpp) as (i & -> & _).
    exists (sigma ++ [i]). now rewrite childPtr_descendant, descendant_app.
Qed.

Lemma descendant_Reaches (w : World) (root : FeaturePtr) (sigma : list nat) :
  ParentsOK w -> is_Some (lookupRep w (descendant root sigma)) ->
  Reaches w (descendant root sigma) root.
Proof.
  intros Hpar. induction sigma as [|i sigma IH] using rev_ind; intros [n Hn].
  - rewrite descendant_nil. constructor.
  - rewrite <- descendant_app, <- childPtr_descendant in Hn |- *.
    destruct (lookupRep_parent_valid _ _ _ _ Hn) as (m & Hm & _).
    destruct (Hpar _ _ Hn) as [Hp _]. rewrite parentPtr_child in Hp.
    eapply Reaches_up; [exact Hn | exact Hp | apply IH; eauto].
Qed.

(** C5: in the world left by the clone of the subtree under [R] into a
    fresh handle, the correspondence of a Feature [f] under [R] is the node
    of the clone reached from its root by the descent that leads from [R]
    to [f]; the correspondence taken back from the clone to [R] returns
    [f]; and the correspondence of a Feature whose parent chain does not
    reach [R] is null. *)
Theorem findCorrespondingFeature_roundtrip (fuel : nat) (w : World) (R : FeaturePtr)
    (T : FeatureRep) (h : handle) :
  wfWorld w -> lookupRep w R = Some T -> w !! h = None -> worldHeight w <= fuel ->
  exists w',
    cloneWithoutParentOrExternalPlacements fuel w R h = Ok w'
    /\ forall f, is_Some (lookupRep w f) ->
        (Reaches w f R ->
           exists sigma,
             f = descendant R sigma
             /\ findCorrespondingFeature fuel w' R f (rootPtr h)
                = Ok (Some (FeatureAt h sigma))
             /\ stepDown w' (rootPtr h) (map Z.of_nat sigma) = Ok (FeatureAt h sigma)
             /\ is_Some (lookupRep w' (FeatureAt h sigma))
             /\ findCorrespondingFeature fuel w' (rootPtr h) (FeatureAt h sigma) R
                = Ok (Some f))
        /\ (~ Reaches w f R ->
             findCorrespondingFeature fuel w' R f (rootPtr h) = Ok None).
Proof.
  intros Hwf HR Hfresh Hfuel.
  exists (<[h := cloned R h (rootPtr h) T]> w).
  split; [now apply clone_cloned|].
  pose proof (wfWorld_ParentsOK w Hwf) as Hpar.
  pose proof (cloned_descend_root R T h) as Hdesc.
  pose proof (cloned_parent R h) as Hcp.
  pose proof (ParentsOK_w2 w R T h Hwf) as Hpar2.
  intros f Hf.
  pose proof (findCorrespondingFeature_clone w R T h fuel Hwf HR Hfresh Hfuel
                (cloned R h) _ Hdesc Hcp f Hf) as Hcorr.
  split.
  - intros Hreach. destruct (Reaches_descendant w f R Hpar Hreach) as (sigma & ->).
    exists sigma. split; [reflexivity|].
    rewrite relocate_inside in Hcorr. split; [exact Hcorr|].
    assert (Hnew : is_Some (lookupRep (<[h := cloned R h (rootPtr h) T]> w)
                              (FeatureAt h sigma))).
    { rewrite (lookupRep_w2_new w R T h). destruct Hf as [n Hn].
      rewrite (lookupRep_under w R T HR) in Hn. rewrite Hn. eauto. }
    split; [apply (stepDown_ok _ sigma (rootPtr h)); exact Hnew|].
    split; [exact Hnew|].
    destruct Hnew as [c Hc]. destruct Hf as [n Hn].
    rewrite (findCorrespondingFeature_below fuel _ (rootPtr h) (FeatureAt h sigma) R c
               Hpar2 Hc).
    + now rewrite (proj2 (below_Some (rootPtr h) (FeatureAt h sigma) sigma) eq_refl).
    + apply valid_depth in Hn. cbn in Hn |- *. rewrite length_app in Hn. lia.
    + intros sigma' Hs. apply below_Some in Hs. injection Hs as ->.
      rewrite (lookupRep_old_valid w h Hfresh _ _ n Hn). eauto.
  - intros Hout. rewrite Hcorr. f_equal. apply relocate_outside.
    intros sigma ->. apply Hout. now apply descendant_Reaches.
Qed.

Lemma findCorrespondingFeature_roundtrip_witness :
  wfWorld Scenario.world
  /\ exists w',
      cloneWithoutParentOrExternalPlacements 3 Scenario.world Scenario.pA Scenario.hNew
        = Ok w'
      /\ findCorrespondingFeature 3 w' Scenario.pA Scenario.pX (rootPtr Scenario.hNew)
         = Ok (Some (FeatureAt Scenario.hNew [0]))
      /\ findCorrespondingFeature 3 w' (rootPtr Scenario.hNew)
           (FeatureAt Scenario.hNew [0]) Scenario.pA = Ok (Some Scenario.pX)
      /\ findCorrespondingFeature 3 w' Scenario.pA Scenario.pB (rootPtr Scenario.hNew)
         = Ok None.
Proof.
  assert (Hwf : wfWorld Scenario.world) by reflexivity.
  split; [exact Hwf|].
  destruct (findCorrespondingFeature_roundtrip 3 Scenario.world Scenario.pA
              Scenario.repA Scenario.hNew Hwf eq_refl eq_refl)
    as (w' & Hclone & Hcorr); [vm_compute; lia|].
  exists w'. split; [exact Hclone|].
  destruct (Hcorr Scenario.pX) as [HX _]; [eexists; reflexivity|].
  destruct HX as (sigma & Hs & H1 & _ & _ & H2).
  { eapply Reaches_up; [reflexivity | reflexivity | constructor]. }
  assert (sigma = [0]) as ->.
  { unfold descendant in Hs. cbn in Hs. now injection Hs as <-. }
  split; [exact H1|]. split; [exact H2|].
  destruct (Hcorr Scenario.pB) as [_ HB]; [eexists; reflexivity|].
  apply HB. intros HR. inversion HR as [|? ? ? ? Hl Hp HR']; subst.
  vm_compute in Hl. injection Hl as <-. vm_compute in Hp. injection Hp as <-.
  inversion HR' as [|? ? ? ? Hl' Hp' _]; subst.
  vm_compute in Hl'. injection Hl' as <-. discriminate Hp'.
Defined.

End ModelFacts.

(** ** Further facts about the validator *)

Module ValidatorMore.
Import Validator ValidatorFacts.

Lemma isNameChar_not_slash (c : ascii) : isNameChar c = true -> isSlash c = false.
Proof.
  unfold isSlash. destruct (Ascii.eqb c "/") eqn:E; [|reflexivity].
  apply Ascii.eqb_eq in E. subst c. vm_compute. discriminate.
Qed.

Lemma splitFrom_name (s rest cur : string) :
  allNameChars s = true ->
  splitFrom (s +:+ rest) cur = splitFrom rest (cur +:+ s).
Proof.
  revert cur; induction s as [|c s IH]; intros cur Hs.
  - now rewrite append_empty_r.
  - cbn in Hs. destruct (isNameChar c) eqn:Hc; [|discriminate]. cbn in Hs.
    rewrite append_cons. cbn [splitFrom]. rewrite (isNameChar_not_slash c Hc).
    rewrite IH by exact Hs. now rewrite append_assoc.
Qed.

Lemma splitFrom_slash (rest cur : string) :
  splitFrom ("/" +:+ rest) cur = cur :: splitFrom rest EmptyString.
Proof. reflexivity. Qed.

Lemma legal_allNameChars (s : string) : legal s -> allNameChars s = true.
Proof. unfold legal, isLegalFeatureName. now destruct (Nat.eqb (String.length s) 0). Qed.

Lemma legal_nonempty (s : string) : legal s -> s <> EmptyString.
Proof. intros H ->. discriminate H. Qed.

Lemma splitOnSlash_join (names : list string) :
  names <> [] -> Forall legal names -> splitOnSlash (joinWithSlash names) = names.
Proof.
  unfold splitOnSlash. induction names as [|s names IH]; [congruence|].
  intros _ Hall. inversion Hall as [|? ? Hs Hall']; subst.
  destruct names as [|s' names].
  - cbn [joinWithSlash]. rewrite <- (append_empty_r s) at 1.
    rewrite splitFrom_name by now apply legal_allNameChars. reflexivity.
  - rewrite joinWithSlash_cons by discriminate.
    rewrite splitFrom_name by now apply legal_allNameChars.
    rewrite splitFrom_slash. cbn [String.append].
    f_equal. apply IH; [discriminate | exact Hall'].
Qed.

Lemma validatePieces_legal (names : list string) :
  Forall legal names -> validatePieces names = (true, names).
Proof.
  induction 1 as [|s names Hs Hall IH]; [reflexivity|].
  rewrite validatePieces_step by (right; now apply legal_nonempty).
  unfold legal in Hs. rewrite Hs, IH. reflexivity.
Qed.

(** X1: a pathname made by joining legal names with slashes is accepted,
    and the segments returned are exactly those names. *)
Theorem isLegalFeaturePathname_join (names : list string) :
  names <> [] -> Forall legal names ->
  isLegalFeaturePathname (joinWithSlash names) = (true, names).
Proof.
  intros Hne Hall. rewrite isLegalFeaturePathname_validate.
  rewrite splitOnSlash_join by assumption.
  rewrite validatePieces_legal by assumption.
  destruct names; [congruence | reflexivity].
Qed.

Lemma isLegalFeaturePathname_join_witness :
  isLegalFeaturePathname (joinWithSlash ["Root"; "A"; "X"]%string)
  = (true, ["Root"; "A"; "X"]%string).
Proof.
  apply isLegalFeaturePathname_join; [discriminate|].
  repeat constructor.
Defined.

Lemma splitFrom_slashed (names : list string) (tail : string) :
  Forall legal names ->
  splitFrom (fold_right (fun s acc => s +:+ "/" +:+ acc) tail names) EmptyString
  = names ++ splitFrom tail EmptyString.
Proof.
  induction 1 as [|s names Hs Hall IH]; [reflexivity|].
  cbn [fold_right]. rewrite splitFrom_name by now apply legal_allNameChars.
  rewrite splitFrom_slash, IH. reflexivity.
Qed.

Lemma validatePieces_empty_piece (names more : list string) :
  Forall legal names -> more <> [] ->
  validatePieces (names ++ EmptyString :: more) = (false, names ++ [EmptyString]).
Proof.
  intros Hall Hmore. induction Hall as [|s names Hs Hall IH].
  - cbn [app]. rewrite validatePieces_step by now left. reflexivity.
  - cbn [app]. rewrite validatePieces_step by (right; now apply legal_nonempty).
    unfold legal in Hs. rewrite Hs, IH. reflexivity.
Qed.

(** X2: after any number of legal segments, each followed by its slash, a
    slash that comes at once (a leading slash, a doubled slash) makes the
    pathname illegal whatever follows; the segments captured are the legal
    ones and then the empty segment. *)
Theorem isLegalFeaturePathname_empty_segment (names : list string) (rest : string) :
  Forall legal names ->
  isLegalFeaturePathname
    (fold_right (fun s acc => s +:+ "/" +:+ acc) ("/" +:+ rest) names)
  = (false, names ++ [EmptyString]).
Proof.
  intros Hall. rewrite isLegalFeaturePathname_validate. unfold splitOnSlash.
  rewrite splitFrom_slashed by exact Hall.
  rewrite splitFrom_slash.
  rewrite validatePieces_empty_piece; [reflexivity | exact Hall | apply splitFrom_nonempty].
Qed.

Lemma isLegalFeaturePathname_empty_segment_witness :
  isLegalFeaturePathname "a//b" = (false, ["a"%string; EmptyString])
  /\ isLegalFeaturePathname "/a" = (false, [EmptyString]).
Proof.
  split.
  - apply (isLegalFeaturePathname_empty_segment ["a"%string] "b"). repeat constructor.
  - apply (isLegalFeaturePathname_empty_segment [] "a"). constructor.
Defined.

End ValidatorMore.

(** ** Facts about the lookup by name *)

Module LookupFacts.
Import Model Lookup.

Ltac compare_cases :=
  cbn [caseInsensitiveCompare];
  repeat match goal with
         | |- context [(?x <? ?y)%Z] => destruct (Z.ltb_spec x y)
         | H : context [(?x <? ?y)%Z] |- _ => destruct (Z.ltb_spec x y)
         end.

Section CompareFacts.
Variable sgn : bool.

Lemma caseInsensitiveCompare_range (a b : string) :
  caseInsensitiveCompare sgn a b = (-1)%Z
  \/ caseInsensitiveCompare sgn a b = 0%Z
  \/ caseInsensitiveCompare sgn a b = 1%Z.
Proof.
  revert b; induction a as [|x a IH]; intros [|y b]; compare_cases; auto.
Qed.

Lemma caseInsensitiveCompare_opp (a b : string) :
  caseInsensitiveCompare sgn a b = (- caseInsensitiveCompare sgn b a)%Z.
Proof.
  revert b; induction a as [|x a IH]; intros [|y b]; compare_cases;
    try reflexivity; try lia. apply IH.
Qed.

Lemma caseInsensitiveCompare_zero (a b : string) :
  caseInsensitiveCompare sgn a b = 0%Z <-> lowered sgn a = lowered sgn b.
Proof.
  unfold lowered. revert b; induction a as [|x a IH]; intros [|y b];
    cbn [list_ascii_of_string map]; compare_cases;
    try (split; [discriminate | intros [= ]; lia]);
    try (split; discriminate); try (split; reflexivity).
  rewrite IH. split; [intros ->; f_equal; lia | now intros [= _ ->]].
Qed.

(** X3: the three-way comparison answers -1, 0 or 1; it answers 0 exactly
    when the two strings are equal up to the case of their letters, so in
    particular for a string and itself; exchanging the arguments negates
    the answer. *)
Theorem caseInsensitiveCompare_spec (a b : string) :
  (caseInsensitiveCompare sgn a b = (-1)%Z
   \/ caseInsensitiveCompare sgn a b = 0%Z
   \/ caseInsensitiveCompare sgn a b = 1%Z)
  /\ (caseInsensitiveCompare sgn a b = 0%Z <-> lowered sgn a = lowered sgn b)
  /\ caseInsensitiveCompare sgn a a = 0%Z
  /\ caseInsensitiveCompare sgn a b = (- caseInsensitiveCompare sgn b a)%Z.
Proof.
  split; [apply caseInsensitiveCompare_range|].
  split; [apply caseInsensitiveCompare_zero|].
  split; [now apply caseInsensitiveCompare_zero | apply caseInsensitiveCompare_opp].
Qed.

Lemma caseInsensitiveCompare_le_trans (a : string) : forall b c,
  (caseInsensitiveCompare sgn a b <= 0)%Z ->
  (caseInsensitiveCompare sgn b c <= 0)%Z ->
  (caseInsensitiveCompare sgn a c <= 0)%Z
  /\ (caseInsensitiveCompare sgn a c = 0%Z ->
      caseInsensitiveCompare sgn a b = 0%Z /\ caseInsensitiveCompare sgn b c = 0%Z).
Proof.
  induction a as [|x a IH]; intros [|y b] [|z c];
    cbn [caseInsensitiveCompare]; intros Hab Hbc; compare_cases;
    try lia; try (split; [lia | intros; lia]); try (split; [lia | auto]).
  apply IH; assumption.
Qed.

(** X4: the comparison is an ordering of the names up to case: if [a]
    comes before [b] and [b] before [c] then [a] comes before [c], and two
    names that compare equal compare alike with every third name. *)
Theorem caseInsensitiveCompare_order (a b c : string) :
  (caseInsensitiveCompare sgn a b = (-1)%Z ->
   caseInsensitiveCompare sgn b c = (-1)%Z ->
   caseInsensitiveCompare sgn a c = (-1)%Z)
  /\ (caseInsensitiveCompare sgn a b = 0%Z ->
      caseInsensitiveCompare sgn a c = caseInsensitiveCompare sgn b c).
Proof.
  split.
  - intros H1 H2.
    destruct (caseInsensitiveCompare_le_trans a b c ltac:(lia) ltac:(lia)) as [Hle Hz].
    destruct (caseInsensitiveCompare_range a c) as [H | [H | H]]; [exact H | | lia].
    destruct (Hz H). lia.
  - intros H. apply caseInsensitiveCompare_zero in H.
    assert (Hgen : forall a b c, lowered sgn a = lowered sgn b ->
              caseInsensitiveCompare sgn a c = caseInsensitiveCompare sgn b c).
    { clear. unfold lowered.
      induction a as [|x a IH]; intros [|y b] [|z c];
        cbn [list_ascii_of_string map caseInsensitiveCompare]; intros E;
        try discriminate E; try reflexivity.
      injection E as E1 E2. rewrite E1. now rewrite (IH b c E2). }
    now apply Hgen.
Qed.

Lemma findFrom_spec (nm : string) (subs : list FeatureRep) : forall ix,
  match findFrom sgn nm subs ix with
  | (true, j) =>
      exists k c, j = ix + k /\ subs !! k = Some c
        /\ caseInsensitiveCompare sgn nm (name c) = 0%Z
        /\ forall k' c', k' < k -> subs !! k' = Some c' ->
             caseInsensitiveCompare sgn nm (name c') <> 0%Z
  | (false, j) =>
      j = ix + length subs
      /\ forall k' c', subs !! k' = Some c' ->
           caseInsensitiveCompare sgn nm (name c') <> 0%Z
  end.
Proof.
  induction subs as [|c subs IH]; intros ix; cbn [findFrom].
  - split; [cbn; lia | intros k' c' Hk; discriminate Hk].
  - destruct (Z.eqb_spec (caseInsensitiveCompare sgn nm (name c)) 0) as [E|E].
    + exists 0, c. split; [lia|]. split; [reflexivity|]. split; [exact E|].
      intros k' c' Hk. lia.
    + specialize (IH (S ix)). destruct (findFrom sgn nm subs (S ix)) as [[|] j].
      * destruct IH as (k & c0 & -> & Hk & Hz & Hfirst).
        exists (S k), c0. split; [lia|]. split; [exact Hk|]. split; [exact Hz|].
        intros [|k'] c' Hlt Hc'; cbn in Hc'.
        -- now injection Hc' as <-.
        -- apply (Hfirst k' c'); [lia | exact Hc'].
      * destruct IH as (-> & Hall). split; [cbn; lia|].
        intros [|k'] c' Hc'; cbn in Hc'.
        -- now injection Hc' as <-.
        -- now apply (Hall k' c').
Qed.

(** X5: [findSubfeatureIndex] answers true with the index of the first
    direct child whose name equals the name sought up to case, and false
    with the number of children when no child has such a name. *)
Theorem findSubfeatureIndex_spec (rep : FeatureRep) (nm : string) (b : bool) (ix : nat) :
  findSubfeatureIndex sgn rep nm = (b, ix) ->
  (b = true ->
     exists c, subfeatures rep !! ix = Some c
       /\ lowered sgn nm = lowered sgn (name c)
       /\ forall k c', k < ix -> subfeatures rep !! k = Some c' ->
            lowered sgn nm <> lowered sgn (name c'))
  /\ (b = false ->
      ix = length (subfeatures rep)
      /\ forall k c', subfeatures rep !! k = Some c' ->
           lowered sgn nm <> lowered sgn (name c')).
Proof.
  unfold findSubfeatureIndex. intros H.
  pose proof (findFrom_spec nm (subfeatures rep) 0) as Hs. rewrite H in Hs.
  split; intros ->.
  - destruct Hs as (k & c & -> & Hk & Hz & Hfirst). exists c.
    split; [exact Hk|]. split; [now apply caseInsensitiveCompare_zero|].
    intros k' c' Hlt Hc' E. apply (Hfirst k' c' Hlt Hc').
    now apply caseInsensitiveCompare_zero.
  - destruct Hs as (-> & Hall). split; [reflexivity|].
    intros k' c' Hc' E. apply (Hall k' c' Hc'). now apply caseInsensitiveCompare_zero.
Qed.

End CompareFacts.

Lemma caseInsensitiveCompare_order_witness :
  caseInsensitiveCompare true "alpha" "Beta" = (-1)%Z
  /\ caseInsensitiveCompare true "Beta" "gamma" = (-1)%Z
  /\ caseInsensitiveCompare true "alpha" "gamma" = (-1)%Z.
Proof.
  split; [reflexivity|]. split; [reflexivity|].
  exact (proj1 (caseInsensitiveCompare_order true "alpha" "Beta" "gamma")
           eq_refl eq_refl).
Defined.

Lemma findSubfeatureIndex_spec_witness :
  findSubfeatureIndex true Scenario.repRoot "a" = (true, 1)
  /\ exists c, subfeatures Scenario.repRoot !! 1 = Some c
       /\ lowered true "a" = lowered true (name c).
Proof.
  split; [reflexivity|].
  destruct (proj1 (findSubfeatureIndex_spec true Scenario.repRoot "a" true 1 eq_refl)
              eq_refl) as (c & H1 & H2 & _).
  exists c. split; [exact H1 | exact H2].
Defined.

End LookupFacts.

(** ** Further facts about the feature tree *)

Module TreeFacts.
Import Validator Model Invariants Notions ValidatorFacts ModelFacts ValidatorMore.

(** *** Consistency, node by node *)

Lemma forallb_from_intro {A} (f : nat -> A -> bool) (l : list A) : forall i,
  (forall k x, l !! k = Some x -> f (i + k) x = true) -> forallb_from f i l = true.
Proof.
  induction l as [|x l IH]; intros i H; [reflexivity|].
  cbn. apply andb_true_iff. split.
  - rewrite <- (Nat.add_0_r i). now apply H.
  - apply IH. intros k y Hk. replace (S i + k) with (i + S k) by lia. now apply H.
Qed.

Lemma consistentPlacement_intro (w : World) (me : FeaturePtr) (j : nat) (p : PlacementRep) :
  owner p = Some me -> indexInOwner p = Z.of_nat j ->
  (forall f, In (Some f) (featureRefs p) -> is_Some (lookupRep w f)) ->
  (forall v, valueRef p = Some v -> is_Some (lookupPlacementValue w v)) ->
  consistentPlacement w me j p = true.
Proof.
  intros Ho Hi Hrefs Hval. unfold consistentPlacement.
  rewrite !andb_true_iff. repeat split.
  - now apply bool_decide_eq_true.
  - now apply bool_decide_eq_true.
  - apply forallb_forall. intros [f|] Hf; [|reflexivity].
    now apply isValid_true, Hrefs.
  - destruct (valueRef p) as [v|]; [|reflexivity]. now apply isValid_true, Hval.
Qed.

Lemma consistentValue_intro (me : FeaturePtr) (j : nat) (v : PlacementValueRep) :
  valueOwner v = Some me -> valueIndexInOwner v = Z.of_nat j ->
  consistentValue me j v = true.
Proof.
  intros Ho Hi. unfold consistentValue. apply andb_true_iff.
  split; now apply bool_decide_eq_true.
Qed.

Lemma consistentFeature_intro (w : World) (rep : FeatureRep) :
  forall me ep ei,
  parent rep = ep -> indexInParent rep = ei ->
  (forall sigma n, descend rep sigma = Some n ->
     (sigma <> [] -> parent n = parentPtr (descendant me sigma)
                     /\ indexInParent n = indexOf (descendant me sigma))
     /\ (forall j p, placementExpressions n !! j = Some p ->
           consistentPlacement w (descendant me sigma) j p = true)
     /\ (forall j v, placementValues n !! j = Some v ->
           consistentValue (descendant me sigma) j v = true)
     /\ (forall pp, placement n = Some pp -> is_Some (lookupPlacement w pp))) ->
  consistentFeature w ep ei me rep = true.
Proof.
  induction rep as [rep IH] using FeatureRep_tree_ind.
  intros me ep ei Hp Hi Hnodes. rewrite Forall_forall in IH.
  rewrite consistentFeature_unfold.
  destruct (Hnodes [] rep eq_refl) as (_ & Hpes & Hpvs & Hact).
  rewrite descendant_nil in Hpes, Hpvs.
  rewrite !andb_true_iff. repeat split.
  - now apply bool_decide_eq_true.
  - now apply bool_decide_eq_true.
  - apply forallb_from_intro. intros k c Hk. cbn [Nat.add].
    assert (Hd : descend rep [k] = Some c) by (cbn; now rewrite Hk).
    destruct (Hnodes [k] c Hd) as (Hpc & _).
    destruct (Hpc ltac:(discriminate)) as [Hpar Hidx].
    rewrite <- childPtr_descendant in Hpar, Hidx.
    rewrite parentPtr_child in Hpar. rewrite indexOf_child in Hidx.
    apply (IH c (list_elem_of_lookup_2 _ _ _ Hk)); [exact Hpar | exact Hidx |].
    intros sigma n Hn. rewrite descendant_child.
    destruct (Hnodes (k :: sigma) n) as (Hpn & Hrest); [cbn; now rewrite Hk|].
    split; [intros _; now apply Hpn | exact Hrest].
  - apply forallb_from_intro. intros k p Hk. now apply Hpes.
  - apply forallb_from_intro. intros k v Hk. now apply Hpvs.
  - destruct (placement rep) as [pp|]; [|reflexivity].
    now apply isValid_true, Hact.
Qed.

Lemma WellFormed_wfWorld (w : World) : WellFormed w -> wfWorld w.
Proof.
  intros Hwf. unfold wfWorld, wfWorldb. apply forallb_forall.
  intros [hd R] Hin. apply list_elem_of_In, elem_of_map_to_list in Hin. cbn [fst snd].
  assert (Hlook : forall sigma n, descend R sigma = Some n ->
            lookupRep w (descendant (rootPtr hd) sigma) = Some n).
  { intros sigma n Hn. unfold lookupRep, descendant. cbn. now rewrite Hin. }
  destruct (Hwf (rootPtr hd) R) as [Hp Hi _ _ _];
    [unfold lookupRep; cbn; now rewrite Hin|].
  apply consistentFeature_intro; [exact Hp | exact Hi |].
  intros sigma n Hn. destruct (Hwf _ n (Hlook sigma n Hn)) as [Hp' Hi' Hpes Hpvs Hact].
  auto.
Qed.

Lemma wfWorld_WellFormed (w : World) : wfWorld w <-> WellFormed w.
Proof.
  split; [|apply WellFormed_wfWorld].
  intros Hwf f n Hf. now apply wfWorld_node.
Qed.

(** *** Roots *)

Lemma findRootFeature_Ok (w : World) (fuel : nat) : forall f r,
  findRootFeature fuel w f = Ok r ->
  (exists rrep, lookupRep w r = Some rrep /\ parent rrep = None)
  /\ Reaches w f r.
Proof.
  induction fuel as [|fuel IH]; intros f r H; [discriminate|].
  cbn [findRootFeature] in H. apply bind_Ok in H as (rep & Hrep & H).
  apply getRep_Ok in Hrep. destruct (parent rep) as [pp|] eqn:Hp.
  - destruct (IH pp r H) as [Hroot HR]. split; [exact Hroot|].
    econstructor; eassumption.
  - injection H as <-. split; [eauto | constructor].
Qed.

Lemma findRootFeature_wf (w : World) (fuel : nat) : forall f n,
  ParentsOK w -> lookupRep w f = Some n -> length (steps f) < fuel ->
  findRootFeature fuel w f = Ok (rootPtr (base f)).
Proof.
  induction fuel as [|fuel IH]; intros f n Hpar Hf Hfuel; [lia|].
  cbn [findRootFeature]. unfold getRep. rewrite Hf. cbn.
  destruct (Hpar f n Hf) as [Hp _]. rewrite Hp.
  destruct (ptr_cases f) as [[hd ->] | (g & i & ->)]; [reflexivity|].
  rewrite parentPtr_child.
  destruct (lookupRep_parent_valid w g i n Hf) as (m & Hm & _).
  rewrite (IH g m Hpar Hm); [reflexivity|].
  cbn in Hfuel. rewrite length_app in Hfuel. cbn in Hfuel. lia.
Qed.

(** X6: on a parent chain that ends, [findRootFeature] returns a Feature
    without parent that the chain of [f] reaches, and the root of that
    Feature is itself; in a consistent world it is the free-standing handle
    of the tree of [f]. *)
Theorem findRootFeature_spec (fuel : nat) (w : World) (f : FeaturePtr) (n : nat) :
  RootedWithin w n f -> n < fuel ->
  exists r rrep,
    findRootFeature fuel w f = Ok r
    /\ lookupRep w r = Some rrep /\ parent rrep = None
    /\ Reaches w f r
    /\ findRootFeature fuel w r = Ok r
    /\ (wfWorld w -> r = rootPtr (base f)).
Proof.
  intros Hr Hn. destruct (findRootFeature_total w n f fuel Hr Hn) as (r & Hroot).
  destruct (findRootFeature_Ok w fuel f r Hroot) as [(rrep & Hrrep & Hp) HR].
  exists r, rrep. split; [exact Hroot|]. split; [exact Hrrep|]. split; [exact Hp|].
  split; [exact HR|]. split.
  - destruct fuel as [|fuel]; [lia|]. cbn [findRootFeature]. unfold getRep.
    rewrite Hrrep. cbn. now rewrite Hp.
  - intros Hwf. pose proof (wfWorld_ParentsOK w Hwf) as Hpar.
    destruct (Reaches_descendant w f r Hpar HR) as (sigma & ->).
    destruct (Hpar r rrep Hrrep) as [Hpr _]. rewrite Hp in Hpr.
    destruct (ptr_cases r) as [[hd ->] | (g & i & ->)]; [reflexivity|].
    rewrite parentPtr_child in Hpr. discriminate.
Qed.

Lemma findRootFeature_spec_witness :
  RootedWithin Scenario.world 2 Scenario.pX
  /\ exists r rrep,
      findRootFeature 3 Scenario.world Scenario.pX = Ok r
      /\ lookupRep Scenario.world r = Some rrep /\ parent rrep = None
      /\ Reaches Scenario.world Scenario.pX r.
Proof.
  assert (H : RootedWithin Scenario.world 2 Scenario.pX).
  { eapply Rooted_up; [reflexivity | reflexivity |].
    eapply Rooted_up; [reflexivity | reflexivity |].
    eapply Rooted_root; reflexivity. }
  split; [exact H|].
  destruct (findRootFeature_spec 3 Scenario.world Scenario.pX 2 H ltac:(lia))
    as (r & rrep & H1 & H2 & H3 & H4 & _).
  exists r, rrep. auto.
Defined.

(** *** Youngest common ancestors *)

Lemma inits_snoc (l : list nat) (x : nat) : inits (l ++ [x]) = inits l ++ [l ++ [x]].
Proof.
  induction l as [|y l IH]; [reflexivity|]. cbn. rewrite IH, map_app. reflexivity.
Qed.

Lemma commonPrefix_l (l1 : list nat) : forall l2,
  exists sigma, l1 = commonPrefix l1 l2 ++ sigma.
Proof.
  induction l1 as [|x l1 IH]; intros l2; [now exists []|].
  destruct l2 as [|y l2]; [now exists (x :: l1)|]. cbn.
  case_bool_decide; [|now exists (x :: l1)].
  destruct (IH l2) as (sigma & Hs). exists sigma. cbn. now rewrite <- Hs.
Qed.

Lemma commonPrefix_comm (l1 : list nat) : forall l2,
  commonPrefix l1 l2 = commonPrefix l2 l1.
Proof.
  induction l1 as [|x l1 IH]; intros [|y l2]; try reflexivity. cbn.
  repeat case_bool_decide; subst; first [congruence | reflexivity | now rewrite IH].
Qed.

Lemma commonPrefix_greatest (gamma : list nat) : forall s1 s2,
  exists tau, commonPrefix (gamma ++ s1) (gamma ++ s2) = gamma ++ tau.
Proof.
  induction gamma as [|x gamma IH]; intros s1 s2; [now eexists|].
  cbn. rewrite bool_decide_eq_true_2 by reflexivity.
  destruct (IH s1 s2) as (tau & ->). now exists tau.
Qed.

Lemma pathToRoot_wf (w : World) (hd : handle) (pi : list nat) : forall fuel n acc,
  ParentsOK w -> lookupRep w (FeatureAt hd pi) = Some n -> length pi < fuel ->
  pathToRoot fuel w (Some (FeatureAt hd pi)) acc
  = Ok (acc ++ map (FeatureAt hd) (rev (inits pi))).
Proof.
  induction pi as [|i pi IH] using rev_ind; intros fuel n acc Hpar Hf Hfuel;
    (destruct fuel as [|fuel]; [cbn in Hfuel; lia|]);
    cbn [pathToRoot]; unfold getParentPtr, getRep; rewrite Hf; cbn [fromOption];
    rewrite !bind_Ok_l; destruct (Hpar _ n Hf) as [Hp _]; rewrite Hp.
  - change (parentPtr (FeatureAt hd [])) with (@None FeaturePtr).
    destruct fuel; reflexivity.
  - change (FeatureAt hd (pi ++ [i])) with (childPtr (FeatureAt hd pi) i) in Hf |- *.
    rewrite parentPtr_child.
    destruct (lookupRep_parent_valid w _ i n Hf) as (m & Hm & _).
    rewrite (IH fuel m _ Hpar Hm) by (rewrite length_app in Hfuel; cbn in Hfuel; lia).
    rewrite inits_snoc, rev_app_distr. cbn. now rewrite <- app_assoc.
Qed.

Lemma scanDown_inits (hd : handle) (p1 : list nat) : forall p2 rho anc,
  scanDown (map (fun tau => FeatureAt hd (rho ++ tau)) (inits p1))
           (map (fun tau => FeatureAt hd (rho ++ tau)) (inits p2)) anc
  = Some (FeatureAt hd (rho ++ commonPrefix p1 p2)).
Proof.
  induction p1 as [|x p1 IH]; intros p2 rho anc.
  - destruct p2; cbn; rewrite bool_decide_eq_true_2 by reflexivity; reflexivity.
  - destruct p2 as [|y p2]; cbn [inits map scanDown commonPrefix];
      rewrite (bool_decide_eq_true_2 (FeatureAt hd (rho ++ []) = FeatureAt hd (rho ++ [])))
        by reflexivity.
    + destruct p1; reflexivity.
    + rewrite !map_map.
      rewrite (map_ext (fun tau => FeatureAt hd (rho ++ x :: tau))
                 (fun tau => FeatureAt hd ((rho ++ [x]) ++ tau)))
        by (intros; now rewrite <- app_assoc).
      rewrite (map_ext (fun tau => FeatureAt hd (rho ++ y :: tau))
                 (fun tau => FeatureAt hd ((rho ++ [y]) ++ tau)))
        by (intros; now rewrite <- app_assoc).
      case_bool_decide as Hxy.
      * subst y. rewrite IH. now rewrite <- app_assoc.
      * destruct p1, p2; cbn;
          rewrite bool_decide_eq_false_2; try reflexivity;
          intros [= E]; rewrite !app_nil_r in E; apply app_inv_head in E; congruence.
Qed.

Lemma findYoungestCommonAncestor_wf (fuel : nat) (w : World) (a b : FeaturePtr)
    (na nb : FeatureRep) :
  ParentsOK w -> lookupRep w a = Some na -> lookupRep w b = Some nb ->
  length (steps a) < fuel -> length (steps b) < fuel ->
  findYoungestCommonAncestor fuel w a b
  = Ok (if bool_decide (base a = base b)
        then Some (FeatureAt (base a) (commonPrefix (steps a) (steps b)))
        else None).
Proof.
  intros Hpar Ha Hb Hfa Hfb. destruct a as [ha pa], b as [hb pb].
  unfold findYoungestCommonAncestor. cbn [base steps] in *.
  rewrite (pathToRoot_wf w ha pa fuel na [] Hpar Ha Hfa).
  rewrite (pathToRoot_wf w hb pb fuel nb [] Hpar Hb Hfb).
  rewrite !bind_Ok_l. cbn [app]. rewrite <- !map_rev, !rev_involutive. f_equal.
  case_bool_decide as Hh.
  - subst hb. apply (scanDown_inits ha pa pb [] None).
  - destruct pa, pb; cbn; rewrite bool_decide_eq_false_2; congruence.
Qed.

Lemma lookupRep_prefix_valid (w : World) (r : FeaturePtr) (sigma : list nat) (n : FeatureRep) :
  lookupRep w (descendant r sigma) = Some n -> is_Some (lookupRep w r).
Proof.
  rewrite lookupRep_descendant. destruct (lookupRep w r); [eauto | discriminate].
Qed.

(** X7: in a consistent world [findYoungestCommonAncestor] returns, for
    two Features of one tree, a Feature that both parent chains reach and
    that lies at or below every other Feature both chains reach; for
    Features of two trees it returns null and the chains have no Feature in
    common. *)
Theorem findYoungestCommonAncestor_youngest (fuel : nat) (w : World) (a b : FeaturePtr) :
  wfWorld w -> is_Some (lookupRep w a) -> is_Some (lookupRep w b) ->
  worldHeight w <= fuel ->
  exists res,
    findYoungestCommonAncestor fuel w a b = Ok res
    /\ match res with
       | Some r =>
           Reaches w a r /\ Reaches w b r
           /\ forall c, Reaches w a c -> Reaches w b c -> Reaches w r c
       | None => forall c, ~ (Reaches w a c /\ Reaches w b c)
       end.
Proof.
  intros Hwf [na Ha] [nb Hb] Hfuel.
  pose proof (wfWorld_ParentsOK w Hwf) as Hpar.
  pose proof (valid_depth w a na Ha) as Hda.
  pose proof (valid_depth w b nb Hb) as Hdb.
  eexists. split.
  { apply (findYoungestCommonAncestor_wf fuel w a b na nb Hpar Ha Hb); lia. }
  case_bool_decide as Hbase.
  - set (r := FeatureAt (base a) (commonPrefix (steps a) (steps b))).
    destruct (commonPrefix_l (steps a) (steps b)) as (sa & Hsa).
    destruct (commonPrefix_l (steps b) (steps a)) as (sb & Hsb).
    rewrite (commonPrefix_comm (steps b)) in Hsb.
    assert (Ea : a = descendant r sa).
    { destruct a as [ha pa]. unfold descendant, r. cbn in *. now rewrite <- Hsa. }
    assert (Eb : b = descendant r sb).
    { destruct b as [hb pb]. unfold descendant, r. cbn in *. now rewrite <- Hsb, Hbase. }
    assert (Hr : is_Some (lookupRep w r)).
    { rewrite Ea in Ha. eapply lookupRep_prefix_valid, Ha. }
    split; [|split].
    + rewrite Ea at 1. apply descendant_Reaches; [exact Hpar|]. rewrite <- Ea. eauto.
    + rewrite Eb at 1. apply descendant_Reaches; [exact Hpar|]. rewrite <- Eb. eauto.
    + intros c Hac Hbc.
      destruct (Reaches_descendant w a c Hpar Hac) as (s1 & E1).
      destruct (Reaches_descendant w b c Hpar Hbc) as (s2 & E2).
      destruct (commonPrefix_greatest (steps c) s1 s2) as (tau & Htau).
      assert (Er : r = descendant c tau).
      { unfold r, descendant. rewrite E1, E2. cbn. now rewrite Htau. }
      rewrite Er. apply descendant_Reaches; [exact Hpar|]. now rewrite <- Er.
  - intros c [Hac Hbc].
    destruct (Reaches_descendant w a c Hpar Hac) as (s1 & E1).
    destruct (Reaches_descendant w b c Hpar Hbc) as (s2 & E2).
    apply Hbase. rewrite E1, E2. reflexivity.
Qed.

Lemma findYoungestCommonAncestor_youngest_witness :
  wfWorld Scenario.world
  /\ exists res,
      findYoungestCommonAncestor 3 Scenario.world Scenario.pX Scenario.pB = Ok res
      /\ match res with
         | Some r =>
             Reaches Scenario.world Scenario.pX r /\ Reaches Scenario.world Scenario.pB r
             /\ forall c, Reaches Scenario.world Scenario.pX c ->
                  Reaches Scenario.world Scenario.pB c -> Reaches Scenario.world r c
         | None => forall c, ~ (Reaches Scenario.world Scenario.pX c
                                /\ Reaches Scenario.world Scenario.pB c)
         end.
Proof.
  split; [reflexivity|].
  apply (findYoungestCommonAncestor_youngest 3 Scenario.world Scenario.pX Scenario.pB).
  - reflexivity.
  - vm_compute. eauto.
  - vm_compute. eauto.
  - vm_compute. lia.
Defined.

(** *** Full names *)

Lemma pathNames_last (path : list nat) : forall rep n,
  descend rep path = Some n ->
  exists l, pathNames rep path = l ++ [name n] /\ length l = length path.
Proof.
  induction path as [|i path IH]; intros rep n Hd.
  - injection Hd as <-. now exists [].
  - cbn in Hd |- *. destruct (subfeatures rep !! i) as [c|]; [|discriminate].
    destruct (IH c n Hd) as (l & -> & Hl). exists (name rep :: l).
    split; [reflexivity | cbn; now rewrite Hl].
Qed.

Lemma pathNames_snoc (path : list nat) : forall rep m c i,
  descend rep path = Some m -> subfeatures m !! i = Some c ->
  pathNames rep (path ++ [i]) = pathNames rep path ++ [name c].
Proof.
  induction path as [|k path IH]; intros rep m c i Hd Hc.
  - injection Hd as <-. cbn. now rewrite Hc.
  - cbn in Hd |- *. destruct (subfeatures rep !! k) as [c'|]; [|discriminate].
    now rewrite (IH c' m c i Hd Hc).
Qed.

Lemma pathNames_nonempty (rep : FeatureRep) (path : list nat) : pathNames rep path <> [].
Proof. destruct path; discriminate. Qed.

Lemma joinWithSlash_snoc (l : list string) (x : string) :
  l <> [] -> joinWithSlash (l ++ [x]) = (joinWithSlash l +:+ "/") +:+ x.
Proof.
  induction l as [|s l IH]; [congruence|]. intros _.
  destruct l as [|s' l].
  - cbn. now rewrite append_assoc.
  - change ((s :: s' :: l) ++ [x]) with (s :: ((s' :: l) ++ [x])).
    rewrite joinWithSlash_cons by discriminate.
    rewrite IH by discriminate.
    rewrite (joinWithSlash_cons s (s' :: l)) by discriminate.
    now rewrite !append_assoc.
Qed.

Lemma getFullName_wf (w : World) (hd : handle) (pi : list nat) : forall fuel n,
  ParentsOK w -> lookupRep w (FeatureAt hd pi) = Some n -> length pi < fuel ->
  getFullName fuel w (FeatureAt hd pi)
  = Ok (joinWithSlash (namesTo w (FeatureAt hd pi))).
Proof.
  induction pi as [|i pi IH] using rev_ind; intros fuel n Hpar Hf Hfuel;
    (destruct fuel as [|fuel]; [cbn in Hfuel; lia|]);
    cbn [getFullName]; unfold getRep; rewrite Hf; cbn [fromOption];
    rewrite !bind_Ok_l; destruct (Hpar _ n Hf) as [Hp _]; rewrite Hp.
  - change (parentPtr (FeatureAt hd [])) with (@None FeaturePtr).
    cbv iota. rewrite bind_Ok_l. unfold namesTo. unfold lookupRep in Hf.
    cbn [base steps] in *.
    destruct (w !! hd) as [R|]; [|discriminate]. injection Hf as ->. reflexivity.
  - change (FeatureAt hd (pi ++ [i])) with (childPtr (FeatureAt hd pi) i) in Hf |- *.
    rewrite parentPtr_child.
    destruct (lookupRep_parent_valid w _ i n Hf) as (m & Hm & Hc).
    rewrite (IH fuel m Hpar Hm) by (rewrite length_app in Hfuel; cbn in Hfuel; lia).
    rewrite !bind_Ok_l. f_equal.
    unfold namesTo, lookupRep in *. cbn [base steps childPtr] in *.
    destruct (w !! hd) as [R|]; [|discriminate].
    rewrite (pathNames_snoc pi R m n i Hm Hc).
    now rewrite joinWithSlash_snoc by apply pathNames_nonempty.
Qed.

(** X8: in a consistent world [getFullName] returns the names met from
    the root of the tree down to the Feature, joined by slashes: one name
    per level, the Feature's own name last.  When these names are legal
    Feature names, [isLegalFeaturePathname] accepts the full name and
    splits it back into exactly these names. *)
Theorem getFullName_names (fuel : nat) (w : World) (f : FeaturePtr) (n : FeatureRep) :
  wfWorld w -> lookupRep w f = Some n -> worldHeight w <= fuel ->
  exists full,
    getFullName fuel w f = Ok full
    /\ full = joinWithSlash (namesTo w f)
    /\ length (namesTo w f) = S (length (steps f))
    /\ last (namesTo w f) = Some (name n)
    /\ (Forall legal (namesTo w f) ->
        isLegalFeaturePathname full = (true, namesTo w f)).
Proof.
  intros Hwf Hf Hfuel. pose proof (wfWorld_ParentsOK w Hwf) as Hpar.
  pose proof (valid_depth w f n Hf) as Hd.
  exists (joinWithSlash (namesTo w f)). destruct f as [hd pi].
  split; [apply (getFullName_wf w hd pi fuel n Hpar Hf); cbn in Hd |- *; lia|].
  split; [reflexivity|].
  assert (Hnames : exists l, namesTo w (FeatureAt hd pi) = l ++ [name n]
                             /\ length l = length pi).
  { unfold namesTo, lookupRep in *. cbn [base steps] in *.
    destruct (w !! hd) as [R|]; [|discriminate]. now apply pathNames_last. }
  destruct Hnames as (l & Hl & Hlen). rewrite Hl.
  split; [rewrite length_app; cbn [base steps length]; lia|].
  split; [apply last_snoc|].
  intros Hall. rewrite isLegalFeaturePathname_validate.
  rewrite splitOnSlash_join; [| now destruct l | exact Hall].
  rewrite validatePieces_legal by exact Hall.
  now destruct l.
Qed.

Lemma getFullName_names_witness :
  exists full,
    getFullName 3 Scenario.world Scenario.pX = Ok full
    /\ full = joinWithSlash (namesTo Scenario.world Scenario.pX)
    /\ length (namesTo Scenario.world Scenario.pX) = 3
    /\ last (namesTo Scenario.world Scenario.pX) = Some (name Scenario.repX)
    /\ (Forall legal (namesTo Scenario.world Scenario.pX) ->
        isLegalFeaturePathname full = (true, namesTo Scenario.world Scenario.pX)).
Proof.
  apply (getFullName_names 3 Scenario.world Scenario.pX Scenario.repX).
  - reflexivity.
  - reflexivity.
  - vm_compute. lia.
Defined.

(** *** Membership in a subtree *)

Lemma walkUp_sound (w : World) (root : FeaturePtr) (fuel : nat) : forall f trace b tr,
  walkUp fuel w root f trace = Ok (b, tr) ->
  if b then Reaches w f root else ~ Reaches w f root.
Proof.
  induction fuel as [|fuel IH]; intros f trace b tr H; [discriminate|].
  cbn [walkUp] in H. case_bool_decide as Heq.
  - injection H as <- <-. subst. constructor.
  - apply bind_Ok in H as (pp & Hpp & H). unfold getParentPtr in Hpp.
    apply bind_Ok in Hpp as (rep & Hrep & Hpp). apply getRep_Ok in Hrep.
    injection Hpp as <-. destruct (parent rep) as [pp|] eqn:Hp.
    + apply bind_Ok in H as (rep' & _ & H). specialize (IH _ _ _ _ H).
      destruct b.
      * econstructor; eassumption.
      * intros HR. destruct (Reaches_inv _ _ _ HR Heq) as (r2 & p2 & Hr2 & Hp2 & HR2).
        apply IH. congruence.
    + injection H as <- <-. intros HR.
      destruct (Reaches_inv _ _ _ HR Heq) as (r2 & p2 & Hr2 & Hp2 & _). congruence.
Qed.

Lemma isLimitedToSubtree_sound (fuel : nat) (w : World) (root : FeaturePtr)
    (refs : list (option FeaturePtr)) (res : option FeaturePtr) :
  isLimitedToSubtree fuel w refs root = Ok res ->
  match res with
  | None => forall r, In (Some r) refs -> Reaches w r root
  | Some o => In (Some o) refs /\ ~ Reaches w o root
  end.
Proof.
  induction refs as [|[r|] refs IH]; cbn [isLimitedToSubtree]; intros H.
  - injection H as <-. intros r [].
  - apply bind_Ok in H as ([b tr] & Hw & H). apply walkUp_sound in Hw.
    destruct b; cbn [negb] in H.
    + specialize (IH H). destruct res as [o|].
      * destruct IH. split; [now right | assumption].
      * intros r' [[= <-] | Hr']; [exact Hw | now apply IH].
    + injection H as <-. split; [now left | exact Hw].
  - specialize (IH H). destruct res as [o|].
    + destruct IH. split; [now right | assumption].
    + intros r' [[=] | Hr']. now apply IH.
Qed.

Lemma Reaches_valid (w : World) (f root : FeaturePtr) :
  Reaches w f root -> is_Some (lookupRep w root) -> is_Some (lookupRep w f).
Proof. intros H Hroot. destruct H; eauto. Qed.

(** X9: [isPlacementInFeatureTree] answers false for a placement without
    owner; for an owned placement whose owner has a parent chain that ends,
    it answers whether that chain reaches the given root. *)
Theorem isPlacementInFeatureTree_spec (fuel : nat) (w : World) (root : FeaturePtr)
    (p : PlacementRep) :
  (owner p = None -> isPlacementInFeatureTree fuel w root p = Ok false)
  /\ (forall o n, owner p = Some o -> RootedWithin w n o -> n < fuel ->
      exists b, isPlacementInFeatureTree fuel w root p = Ok b
                /\ (b = true <-> Reaches w o root)).
Proof.
  unfold isPlacementInFeatureTree. split.
  - now intros ->.
  - intros o n -> Hr Hn.
    destruct (walkUp_rooted w root n o Hr fuel [] Hn) as (b & tr & Hw & Hb & _).
    exists b. unfold isFeatureInFeatureTree. rewrite Hw. split; [reflexivity | exact Hb].
Qed.

Lemma isPlacementInFeatureTree_spec_witness :
  exists b,
    isPlacementInFeatureTree 3 Scenario.world Scenario.pA
      (setOwner Scenario.stationAtB (Some Scenario.pX) 0) = Ok b
    /\ (b = true <-> Reaches Scenario.world Scenario.pX Scenario.pA).
Proof.
  apply (proj2 (isPlacementInFeatureTree_spec 3 Scenario.world Scenario.pA
                  (setOwner Scenario.stationAtB (Some Scenario.pX) 0))
           Scenario.pX 2).
  - reflexivity.
  - eapply Rooted_up; [reflexivity | reflexivity |].
    eapply Rooted_up; [reflexivity | reflexivity |].
    eapply Rooted_root; reflexivity.
  - lia.
Defined.

(** *** The height bound under updates *)

Lemma max_list_bound (l : list nat) (N : nat) :
  (forall x, x ∈ l -> x <= N) -> max_list l <= N.
Proof.
  induction l as [|x l IH]; intros H; cbn; [lia|].
  apply Nat.max_lub; [apply H; left | apply IH; intros y Hy; apply H; now right].
Qed.

Lemma worldHeight_bound (w : World) (N : nat) :
  (forall h R, w !! h = Some R -> height R <= N) -> worldHeight w <= N.
Proof.
  intros H. unfold worldHeight. apply max_list_bound. intros x Hx.
  apply list_elem_of_fmap in Hx as ([h R] & -> & Hin).
  apply elem_of_map_to_list in Hin. now apply (H h R).
Qed.

Lemma height_updateAt (g : FeatureRep -> FeatureRep) :
  (forall m, subfeatures (g m) = subfeatures m) ->
  forall path rep, height (updateAt rep path g) = height rep.
Proof.
  intros Hg. induction path as [|i path IH]; intros rep; cbn [updateAt].
  - rewrite (height_unfold (g rep)), (height_unfold rep), Hg. reflexivity.
  - destruct (subfeatures rep !! i) as [c|] eqn:Hc; [|reflexivity].
    rewrite (height_unfold (setSubfeatures _ _)), (height_unfold rep).
    cbn [subfeatures setSubfeatures]. f_equal. f_equal.
    change (map height) with (fmap (M := list) height).
    rewrite list_fmap_insert, IH. apply list_insert_id.
    now rewrite list_lookup_fmap, Hc.
Qed.

Lemma worldHeight_updRep (g : FeatureRep -> FeatureRep) (w : World) (f : FeaturePtr) :
  (forall m, subfeatures (g m) = subfeatures m) ->
  worldHeight (updRep w f g) <= worldHeight w.
Proof.
  intros Hg. apply worldHeight_bound. intros h R' H. unfold updRep in H.
  destruct (w !! base f) as [R|] eqn:HR; [|now apply (worldHeight_le w h)].
  destruct (decide (h = base f)) as [->|Hne].
  - rewrite lookup_insert_eq in H. injection H as <-.
    rewrite (height_updateAt g Hg). now apply (worldHeight_le w (base f)).
  - rewrite lookup_insert_ne in H by congruence. now apply (worldHeight_le w h).
Qed.

(** *** Consistency under in-place updates *)

Lemma consistentPlacement_mono (w w' : World) (me : FeaturePtr) (j : nat) (p : PlacementRep) :
  (forall f, is_Some (lookupRep w f) -> is_Some (lookupRep w' f)) ->
  (forall v, is_Some (lookupPlacementValue w v) -> is_Some (lookupPlacementValue w' v)) ->
  consistentPlacement w me j p = true -> consistentPlacement w' me j p = true.
Proof.
  intros Hf Hv H. apply consistentPlacement_stamp in H as (Ho & Hi & Hrefs & Hval).
  apply consistentPlacement_intro; auto.
Qed.

Lemma lookupPlacementValue_updRep (g : FeatureRep -> FeatureRep) (w : World)
    (f : FeaturePtr) (vp : SlotPtr) :
  (forall n, subfeatures (g n) = subfeatures n) ->
  (forall n, placementValues (g n) = placementValues n) ->
  lookupPlacementValue (updRep w f g) vp = lookupPlacementValue w vp.
Proof.
  intros Hs Hp. unfold lookupPlacementValue.
  pose proof (lookupRep_updRep_eq g Hs w f (holder vp)) as H.
  destruct (lookupRep w (holder vp)) as [n|];
    destruct (lookupRep (updRep w f g) (holder vp)) as [n'|]; try discriminate;
    [|reflexivity].
  apply (inj Some) in H. apply local_fields in H as (_ & _ & _ & _ & _ & _ & H & _).
  rewrite H. case_bool_decide; [now rewrite Hp | reflexivity].
Qed.

Lemma updRep_valid (g : FeatureRep -> FeatureRep) (w : World) (f f' : FeaturePtr) :
  (forall n, subfeatures (g n) = subfeatures n) ->
  is_Some (lookupRep w f') -> is_Some (lookupRep (updRep w f g) f').
Proof.
  intros Hg [n Hn]. destruct (lookupRep_updRep g Hg w f f' n Hn) as (n' & Hn' & _). eauto.
Qed.

Lemma updRep_shape (g : FeatureRep -> FeatureRep) :
  (forall m, subfeatures (g m) = subfeatures m) ->
  forall (w : World) (f f' : FeaturePtr) (n : FeatureRep),
  lookupRep w f' = Some n ->
  exists n', lookupRep (updRep w f g) f' = Some n'
    /\ local n' = local (if bool_decide (f' = f) then g n else n)
    /\ length (subfeatures n') = length (subfeatures n).
Proof.
  intros Hg w f f' n Hn.
  destruct (lookupRep_updRep g Hg w f f' n Hn) as (n' & Hn' & Hl).
  exists n'. split; [exact Hn'|]. split; [exact Hl|].
  assert (Hchild : forall k, is_Some (subfeatures n' !! k) <-> is_Some (subfeatures n !! k)).
  { intros k. pose proof (lookupRep_updRep_eq g Hg w f (childPtr f' k)) as E.
    rewrite !lookupRep_child, Hn, Hn' in E.
    destruct (subfeatures n' !! k), (subfeatures n !! k); try discriminate;
      split; intros [? ?]; eauto; discriminate. }
  apply Nat.le_antisymm; apply Nat.nlt_ge; intros Hlt.
  - apply lookup_lt_is_Some_2, Hchild, lookup_lt_is_Some_1 in Hlt. lia.
  - apply lookup_lt_is_Some_2, Hchild, lookup_lt_is_Some_1 in Hlt. lia.
Qed.

Lemma WellFormed_updRep (w : World) (f : FeaturePtr) (n : FeatureRep)
    (g : FeatureRep -> FeatureRep) :
  WellFormed w -> lookupRep w f = Some n ->
  (forall m, subfeatures (g m) = subfeatures m) ->
  parent (g n) = parent n -> indexInParent (g n) = indexInParent n ->
  (forall j p, placementExpressions (g n) !! j = Some p ->
     consistentPlacement (updRep w f g) f j p = true) ->
  (forall j v, placementValues (g n) !! j = Some v -> consistentValue f j v = true) ->
  (forall pp, placement (g n) = Some pp -> is_Some (lookupPlacement (updRep w f g) pp)) ->
  (forall pp, is_Some (lookupPlacement w pp) ->
     is_Some (lookupPlacement (updRep w f g) pp)) ->
  (forall vp, is_Some (lookupPlacementValue w vp) ->
     is_Some (lookupPlacementValue (updRep w f g) vp)) ->
  WellFormed (updRep w f g).
Proof.
  intros Hwf Hf Hg Hp Hi Hpes Hpvs Hact Hkp Hkv f' n' Hn'.
  destruct (lookupRep_updRep_inv g Hg w f f' n' Hn') as (n0 & Hn0 & Hl).
  apply local_fields in Hl as (_ & _ & _ & Hl4 & Hl5 & Hl6 & Hl7 & Hl8).
  case_bool_decide as E.
  - subst f'. assert (n0 = n) as -> by congruence.
    destruct (Hwf f n Hf) as [Hp0 Hi0 _ _ _].
    constructor; [congruence | congruence | | |].
    + rewrite Hl6. exact Hpes.
    + rewrite Hl7. exact Hpvs.
    + rewrite Hl8. exact Hact.
  - destruct (Hwf f' n0 Hn0) as [Hp0 Hi0 Hpes0 Hpvs0 Hact0].
    constructor; [congruence | congruence | | |].
    + rewrite Hl6. intros j p Hj.
      eapply consistentPlacement_mono; [| exact Hkv | apply Hpes0, Hj].
      intros f0. now apply updRep_valid.
    + rewrite Hl7. exact Hpvs0.
    + rewrite Hl8. intros pp Hpp. apply Hkp, Hact0, Hpp.
Qed.

(** *** Registration keeps the world consistent *)

Lemma addPlacementLike_Ok (fuel : nat) (w : World) (O : FeaturePtr) (p : PlacementRep)
    (w' : World) (sp : SlotPtr) :
  addPlacementLike fuel w O p = Ok (w', sp) ->
  exists rep,
    lookupRep w O = Some rep
    /\ isLimitedToSubtree fuel w (featureRefs p) O = Ok None
    /\ w' = updRep w O (pushPlacementExpression
              (setOwner (cloneUnownedWithNewHandle p) (Some O)
                 (Z.of_nat (length (placementExpressions rep)))))
    /\ sp = SlotAt O (length (placementExpressions rep)).
Proof.
  unfold addPlacementLike. intros H.
  apply bind_Ok in H as (rep & Hrep & H). apply getRep_Ok in Hrep.
  apply bind_Ok in H as (off & Hoff & H).
  destruct off as [o|];
    [apply bind_Ok in H as (? & _ & H); apply bind_Ok in H as (? & _ & H); discriminate|].
  injection H as <- <-. exists rep. auto.
Qed.

Lemma WellFormed_push (w : World) (O : FeaturePtr) (rep : FeatureRep) (p : PlacementRep) :
  WellFormed w -> lookupRep w O = Some rep ->
  (forall r, In (Some r) (featureRefs p) -> is_Some (lookupRep w r)) ->
  (forall v, valueRef p = Some v -> is_Some (lookupPlacementValue w v)) ->
  WellFormed (updRep w O (pushPlacementExpression
                (setOwner (cloneUnownedWithNewHandle p) (Some O)
                   (Z.of_nat (length (placementExpressions rep)))))).
Proof.
  intros Hwf HO Hrefs Hval.
  set (np := setOwner (cloneUnownedWithNewHandle p) (Some O)
               (Z.of_nat (length (placementExpressions rep)))).
  assert (Hkv : forall vp, lookupPlacementValue (updRep w O (pushPlacementExpression np)) vp
                           = lookupPlacementValue w vp).
  { intros vp. apply lookupPlacementValue_updRep; reflexivity. }
  destruct (Hwf O rep HO) as [_ _ Hpes Hpvs Hact].
  apply (WellFormed_updRep w O rep); try reflexivity; try assumption.
  - intros j q Hj. cbn [pushPlacementExpression placementExpressions
                        setPlacementExpressions] in Hj.
    apply lookup_app_Some in Hj as [Hj | [Hlen Hj]].
    + eapply consistentPlacement_mono; [| | apply Hpes, Hj].
      * intros f0. apply updRep_valid. reflexivity.
      * intros v. now rewrite Hkv.
    + destruct (j - length (placementExpressions rep)) as [|k] eqn:Ek; [|now destruct k].
      injection Hj as <-. assert (j = length (placementExpressions rep)) as -> by lia.
      apply consistentPlacement_intro; try reflexivity.
      * intros f0 Hf0. apply updRep_valid; [reflexivity|]. now apply Hrefs.
      * intros v Hv. rewrite Hkv. now apply Hval.
  - intros pp Hpp. destruct (Hact pp Hpp) as [q Hq]. exists q.
    now apply lookupPlacement_push_old.
  - intros pp [q Hq]. exists q. now apply lookupPlacement_push_old.
  - intros vp. now rewrite Hkv.
Qed.

(** X10: a successful [addPlacementLike] keeps a consistent world
    consistent (given that the value slot the placement points to, if any,
    exists), leaves every stored placement expression where it was and with
    its content, changes the shape, the names, the parents, the active
    placements and the placement values of no Feature, and does not let the
    trees grow. *)
Theorem addPlacementLike_keeps (fuel : nat) (w : World) (O : FeaturePtr)
    (p : PlacementRep) (w' : World) (sp : SlotPtr) :
  wfWorld w -> addPlacementLike fuel w O p = Ok (w', sp) ->
  (forall v, valueRef p = Some v -> is_Some (lookupPlacementValue w v)) ->
  wfWorld w'
  /\ worldHeight w' <= worldHeight w
  /\ (forall pp q, lookupPlacement w pp = Some q -> lookupPlacement w' pp = Some q)
  /\ (forall vp, lookupPlacementValue w' vp = lookupPlacementValue w vp)
  /\ (forall f n, lookupRep w f = Some n ->
      exists n', lookupRep w' f = Some n'
        /\ name n' = name n /\ parent n' = parent n
        /\ length (subfeatures n') = length (subfeatures n)
        /\ placement n' = placement n
        /\ (f <> O -> placementExpressions n' = placementExpressions n)).
Proof.
  intros Hwf Hadd Hval.
  apply addPlacementLike_Ok in Hadd as (rep & HO & Hlim & -> & ->).
  apply isLimitedToSubtree_sound in Hlim.
  set (np := setOwner (cloneUnownedWithNewHandle p) (Some O)
               (Z.of_nat (length (placementExpressions rep)))).
  split; [|split; [|split; [|split]]].
  - apply WellFormed_wfWorld, WellFormed_push; try assumption.
    + now apply wfWorld_WellFormed.
    + intros r Hr. eapply Reaches_valid; [apply Hlim, Hr | eauto].
  - apply worldHeight_updRep. reflexivity.
  - intros pp q. apply lookupPlacement_push_old.
  - intros vp. apply lookupPlacementValue_updRep; reflexivity.
  - intros f n Hn.
    destruct (updRep_shape _ (push_subfeatures np) w O f n Hn) as (n' & Hn' & Hl & Hlen).
    exists n'. split; [exact Hn'|].
    destruct (bool_decide_reflect (f = O)) as [E|E];
      apply local_fields in Hl as (H1 & _ & _ & H4 & _ & H6 & _ & H8);
      repeat split; try assumption; congruence.
Qed.

Lemma addPlacementLike_keeps_witness :
  exists w' sp,
    addPlacementLike 3 Scenario.world Scenario.pRoot Scenario.stationAtB = Ok (w', sp)
    /\ wfWorld w' /\ worldHeight w' <= worldHeight Scenario.world.
Proof.
  destruct (addPlacementLike 3 Scenario.world Scenario.pRoot Scenario.stationAtB)
    as [[w' sp]| | | |] eqn:E; try (vm_compute in E; discriminate E).
  exists w', sp. split; [reflexivity|].
  destruct (addPlacementLike_keeps 3 Scenario.world Scenario.pRoot Scenario.stationAtB
              w' sp ltac:(reflexivity) E ltac:(discriminate)) as (H1 & H2 & _).
  split; assumption.
Defined.

Lemma pushValue_subfeatures (nv : PlacementValueRep) (n : FeatureRep) :
  subfeatures (pushPlacementValue nv n) = subfeatures n.
Proof. reflexivity. Qed.

Lemma lookupPlacementValue_push_old (w : World) (f : FeaturePtr)
    (nv x : PlacementValueRep) (vp : SlotPtr) :
  lookupPlacementValue w vp = Some x ->
  lookupPlacementValue (updRep w f (pushPlacementValue nv)) vp = Some x.
Proof.
  unfold lookupPlacementValue.
  destruct (lookupRep w (holder vp)) as [n|] eqn:Hn; [|discriminate]. intros Hx.
  destruct (lookupRep_updRep _ (pushValue_subfeatures nv) w f _ n Hn) as (n' & -> & Hl).
  apply local_fields in Hl as (_ & _ & _ & _ & _ & _ & Hl & _). rewrite Hl.
  case_bool_decide; [|exact Hx]. cbn. now apply lookup_app_l_Some.
Qed.

Lemma lookupPlacementValue_push_new (w : World) (f : FeaturePtr)
    (nv : PlacementValueRep) (n : FeatureRep) :
  lookupRep w f = Some n ->
  lookupPlacementValue (updRep w f (pushPlacementValue nv))
    (SlotAt f (length (placementValues n))) = Some nv.
Proof.
  intros Hn. unfold lookupPlacementValue. cbn [holder slot].
  destruct (lookupRep_updRep _ (pushValue_subfeatures nv) w f _ n Hn) as (n' & -> & Hl).
  apply local_fields in Hl as (_ & _ & _ & _ & _ & _ & Hl & _). rewrite Hl.
  rewrite bool_decide_eq_true_2 by reflexivity. cbn.
  rewrite lookup_app_r by lia. now rewrite Nat.sub_diag.
Qed.

(** X11: on a Feature of a consistent world [addPlacementValueLike]
    always succeeds: it appends to the placement values of the Feature a
    value stamped with the Feature and the previous length of the sequence,
    whatever stamp the value offered carried, answers the address of the
    new slot, keeps the world consistent, and leaves every other value
    slot and every placement expression as it was. *)
Theorem addPlacementValueLike_spec (w : World) (this : FeaturePtr) (rep : FeatureRep)
    (v : PlacementValueRep) :
  wfWorld w -> lookupRep w this = Some rep ->
  let index := length (placementValues rep) in
  let stored := mkPlacementValueRep (Some this) (Z.of_nat index) in
  exists w' rep',
    addPlacementValueLike w this v = Ok (w', SlotAt this index)
    /\ lookupRep w' this = Some rep'
    /\ placementValues rep' = placementValues rep ++ [stored]
    /\ lookupPlacementValue w' (SlotAt this index) = Some stored
    /\ wfWorld w'
    /\ (forall vp x, lookupPlacementValue w vp = Some x ->
          lookupPlacementValue w' vp = Some x)
    /\ (forall pp, lookupPlacement w' pp = lookupPlacement w pp).
Proof.
  intros Hwf Hthis index stored.
  unfold addPlacementValueLike, getRep. rewrite Hthis. cbn [fromOption].
  rewrite bind_Ok_l. cbv zeta.
  change (setValueOwner (cloneUnownedValueWithNewHandle v) (Some this)
            (Z.of_nat (length (placementValues rep)))) with stored.
  set (w' := updRep w this (pushPlacementValue stored)).
  destruct (lookupRep_updRep _ (pushValue_subfeatures stored) w this this rep Hthis)
    as (rep' & Hrep' & Hl).
  rewrite bool_decide_eq_true_2 in Hl by reflexivity.
  apply local_fields in Hl as (_ & _ & _ & _ & _ & _ & Hl & _).
  assert (Hkp : forall pp, lookupPlacement w' pp = lookupPlacement w pp).
  { intros pp. apply lookupPlacement_updRep; reflexivity. }
  exists w', rep'. split; [reflexivity|]. split; [exact Hrep'|]. split; [exact Hl|].
  split; [apply (lookupPlacementValue_push_new w this stored rep Hthis)|].
  split; [|split; [intros vp x; apply lookupPlacementValue_push_old | exact Hkp]].
  apply WellFormed_wfWorld. apply wfWorld_WellFormed in Hwf.
  destruct (Hwf this rep Hthis) as [_ _ Hpes Hpvs Hact].
  apply (WellFormed_updRep w this rep); try reflexivity; try assumption.
  - intros j q Hj. eapply consistentPlacement_mono; [| | apply Hpes, Hj].
    + intros f0. apply updRep_valid. reflexivity.
    + intros vp [x Hx]. exists x. now apply lookupPlacementValue_push_old.
  - intros j x Hj. cbn [pushPlacementValue placementValues setPlacementValues] in Hj.
    apply lookup_app_Some in Hj as [Hj | [Hlen Hj]]; [now apply Hpvs|].
    destruct (j - length (placementValues rep)) as [|k] eqn:Ek; [|now destruct k].
    injection Hj as <-. assert (j = length (placementValues rep)) as -> by lia.
    now apply consistentValue_intro.
  - intros pp Hpp. fold w'. rewrite Hkp. now apply Hact.
  - intros pp. fold w'. now rewrite Hkp.
  - intros vp [x Hx]. exists x. now apply lookupPlacementValue_push_old.
Qed.

Lemma addPlacementValueLike_spec_witness :
  exists w' rep',
    addPlacementValueLike Scenario.world Scenario.pA (mkPlacementValueRep None (-1))
      = Ok (w', SlotAt Scenario.pA 0)
    /\ lookupRep w' Scenario.pA = Some rep'
    /\ placementValues rep' = [mkPlacementValueRep (Some Scenario.pA) 0]
    /\ wfWorld w'.
Proof.
  destruct (addPlacementValueLike_spec Scenario.world Scenario.pA Scenario.repA
              (mkPlacementValueRep None (-1)) ltac:(reflexivity) eq_refl)
    as (w' & rep' & H1 & H2 & H3 & _ & H5 & _).
  exists w', rep'. repeat split; assumption.
Defined.

(** *** Placing keeps the world consistent *)

Lemma Reaches_updRep (g : FeatureRep -> FeatureRep) (w : World) (f a b : FeaturePtr) :
  (forall n, subfeatures (g n) = subfeatures n) ->
  (forall n, parent (g n) = parent n) ->
  Reaches w a b -> Reaches (updRep w f g) a b.
Proof.
  intros Hg Hp. induction 1 as [a | a rep pp b Ha Hpp HR IH]; [constructor|].
  destruct (lookupRep_updRep g Hg w f a rep Ha) as (n' & Hn' & Hl).
  apply local_fields in Hl as (_ & _ & _ & Hl & _).
  apply (Reaches_up _ a n' pp b Hn'); [|exact IH].
  rewrite Hl. case_bool_decide; [now rewrite Hp | exact Hpp].
Qed.

Lemma place_Ok conv (fuel : nat) (w : World) (F : FeaturePtr) (p : PlacementRep)
    (w' : World) :
  place conv fuel w F p = Ok w' ->
  exists rep q ca repca,
    lookupRep w F = Some rep
    /\ pTweaked conv rep p = Ok (Some q)
    /\ placementType q = requiredPlacementType rep
    /\ (exists root, findRootFeature fuel w F = Ok root
                     /\ isLimitedToSubtree fuel w (featureRefs q) root = Ok None)
    /\ findAncestorFeature fuel w (featureRefs q)
         (match parent rep with Some pp => pp | None => F end) = Ok (Some ca)
    /\ lookupRep w ca = Some repca
    /\ isLimitedToSubtree fuel w (featureRefs q) ca = Ok None
    /\ (isConstant q = true \/ ca <> F)
    /\ Reaches (updRep w ca (pushPlacementExpression
                  (setOwner (cloneUnownedWithNewHandle q) (Some ca)
                     (Z.of_nat (length (placementExpressions repca)))))) F ca
    /\ dependsOn fuel
         (updRep w ca (pushPlacementExpression
            (setOwner (cloneUnownedWithNewHandle q) (Some ca)
               (Z.of_nat (length (placementExpressions repca))))))
         (setOwner (cloneUnownedWithNewHandle q) (Some ca)
            (Z.of_nat (length (placementExpressions repca)))) F = Ok false
    /\ w' = updRep
              (updRep w ca (pushPlacementExpression
                 (setOwner (cloneUnownedWithNewHandle q) (Some ca)
                    (Z.of_nat (length (placementExpressions repca))))))
              F (fun r => setPlacement r
                            (Some (SlotAt ca (length (placementExpressions repca))))).
Proof.
  intros H. unfold place in H.
  apply bind_Ok in H as (rep & Hrep & H). apply getRep_Ok in Hrep.
  apply bind_Ok in H as (tw & Htw & H).
  destruct tw as [q|]; [|apply bind_Ok in H as (? & _ & H); discriminate].
  apply bind_Ok in H as (? & Htype & H). apply assert_Ok, bool_decide_eq_true in Htype.
  apply bind_Ok in H as (root & Hroot & H).
  apply bind_Ok in H as (off & Hoff & H).
  destruct off as [o|];
    [apply bind_Ok in H as (? & _ & H); apply bind_Ok in H as (? & _ & H); discriminate|].
  apply bind_Ok in H as (ca' & Hca & H).
  destruct ca' as [ca|]; [|discriminate].
  apply bind_Ok in H as ([w1 good] & Hadd & H).
  apply addPlacementLike_Ok in Hadd as (repca & Hrepca & Hlim & -> & ->).
  apply bind_Ok in H as (goodRep & Hgood & H). apply getPlacementRep_Ok in Hgood.
  rewrite (lookupPlacement_push_new w ca _ repca Hrepca) in Hgood.
  injection Hgood as <-. cbn [owner setOwner] in H.
  apply bind_Ok in H as (? & Hself & H). apply assert_Ok in Hself.
  apply bind_Ok in H as ([inTree tr] & Hin & H).
  apply bind_Ok in H as (? & Hassert & H). apply assert_Ok in Hassert. subst inTree.
  apply walkUp_sound in Hin.
  apply bind_Ok in H as (dep & Hdep & H).
  apply bind_Ok in H as (? & Hnd & H). apply assert_Ok in Hnd.
  destruct dep; [discriminate|]. injection H as <-.
  exists rep, q, ca, repca. repeat split; try assumption.
  - exists root. auto.
  - apply orb_true_iff in Hself as [Hc | Hne]; [now left | right].
    apply negb_true_iff, bool_decide_eq_false in Hne. exact Hne.
Qed.

Lemma place_wfWorld conv (fuel : nat) (w : World) (F : FeaturePtr) (p : PlacementRep)
    (w' : World) :
  wfWorld w -> place conv fuel w F p = Ok w' ->
  (forall rep q v, lookupRep w F = Some rep -> pTweaked conv rep p = Ok (Some q) ->
     valueRef q = Some v -> is_Some (lookupPlacementValue w v)) ->
  wfWorld w' /\ worldHeight w' <= worldHeight w.
Proof.
  intros Hwf H Hval.
  apply place_Ok in H
    as (rep & q & ca & repca & HF & Hq & _ & _ & _ & Hca & Hlim & _ & _ & _ & ->).
  apply isLimitedToSubtree_sound in Hlim.
  set (np := setOwner (cloneUnownedWithNewHandle q) (Some ca)
               (Z.of_nat (length (placementExpressions repca)))).
  set (good := SlotAt ca (length (placementExpressions repca))).
  set (w1 := updRep w ca (pushPlacementExpression np)).
  set (setP := fun r : FeatureRep => setPlacement r (Some good)).
  assert (HsetP : forall n, subfeatures (setP n) = subfeatures n) by reflexivity.
  assert (Hkp : forall pp, lookupPlacement (updRep w1 F setP) pp = lookupPlacement w1 pp).
  { intros pp. apply lookupPlacement_updRep; reflexivity. }
  assert (Hkv : forall vp, lookupPlacementValue (updRep w1 F setP) vp
                           = lookupPlacementValue w1 vp).
  { intros vp. apply lookupPlacementValue_updRep; reflexivity. }
  assert (Hkv1 : forall vp, lookupPlacementValue w1 vp = lookupPlacementValue w vp).
  { intros vp. apply lookupPlacementValue_updRep; reflexivity. }
  assert (Hwf1 : WellFormed w1).
  { apply WellFormed_push; try assumption.
    - now apply wfWorld_WellFormed.
    - intros r Hr. eapply Reaches_valid; [apply Hlim, Hr | eauto].
    - intros v Hv. exact (Hval rep q v HF Hq Hv). }
  split.
  - apply WellFormed_wfWorld.
    destruct (lookupRep_updRep _ (push_subfeatures np) w ca F rep HF) as (n1 & Hn1 & _).
    destruct (Hwf1 F n1 Hn1) as [_ _ Hpes Hpvs Hact].
    apply (WellFormed_updRep w1 F n1); try reflexivity; try assumption.
    + intros j x Hj. eapply consistentPlacement_mono; [| | apply Hpes, Hj].
      * intros f0. now apply updRep_valid.
      * intros v. now rewrite Hkv.
    + intros pp [= <-]. rewrite Hkp. exists np.
      apply (lookupPlacement_push_new w ca np repca Hca).
    + intros pp. now rewrite Hkp.
    + intros vp. now rewrite Hkv.
  - etransitivity; [apply worldHeight_updRep; reflexivity|].
    apply worldHeight_updRep. reflexivity.
Qed.

(** X12: a successful [place] keeps a consistent world consistent (given
    that the value slot the reconciled placement points to, if any,
    exists): it leaves every stored placement expression where it was and
    with its content, changes the shape, the names and the parents of no
    Feature and the active placement of no other Feature, and does not let
    the trees grow. *)
Theorem place_keeps conv (fuel : nat) (w : World) (F : FeaturePtr) (p : PlacementRep)
    (w' : World) :
  wfWorld w -> place conv fuel w F p = Ok w' ->
  (forall rep q v, lookupRep w F = Some rep -> pTweaked conv rep p = Ok (Some q) ->
     valueRef q = Some v -> is_Some (lookupPlacementValue w v)) ->
  wfWorld w'
  /\ worldHeight w' <= worldHeight w
  /\ (forall pp x, lookupPlacement w pp = Some x -> lookupPlacement w' pp = Some x)
  /\ (forall vp, lookupPlacementValue w' vp = lookupPlacementValue w vp)
  /\ (forall f n, lookupRep w f = Some n ->
      exists n', lookupRep w' f = Some n'
        /\ name n' = name n /\ parent n' = parent n
        /\ length (subfeatures n') = length (subfeatures n)
        /\ (f <> F -> placement n' = placement n)).
Proof.
  intros Hwf H Hval.
  destruct (place_wfWorld conv fuel w F p w' Hwf H Hval) as [HW HH].
  apply place_Ok in H
    as (rep & q & ca & repca & HF & Hq & _ & _ & _ & Hca & Hlim & _ & _ & _ & ->).
  apply isLimitedToSubtree_sound in Hlim.
  set (np := setOwner (cloneUnownedWithNewHandle q) (Some ca)
               (Z.of_nat (length (placementExpressions repca)))).
  set (good := SlotAt ca (length (placementExpressions repca))).
  set (w1 := updRep w ca (pushPlacementExpression np)).
  set (setP := fun r : FeatureRep => setPlacement r (Some good)).
  assert (HsetP : forall n, subfeatures (setP n) = subfeatures n) by reflexivity.
  assert (Hkp : forall pp, lookupPlacement (updRep w1 F setP) pp = lookupPlacement w1 pp).
  { intros pp. apply lookupPlacement_updRep; reflexivity. }
  assert (Hkv : forall vp, lookupPlacementValue (updRep w1 F setP) vp
                           = lookupPlacementValue w1 vp).
  { intros vp. apply lookupPlacementValue_updRep; reflexivity. }
  assert (Hkv1 : forall vp, lookupPlacementValue w1 vp = lookupPlacementValue w vp).
  { intros vp. apply lookupPlacementValue_updRep; reflexivity. }
  assert (Hwf1 : WellFormed w1).
  { apply WellFormed_push; try assumption.
    - now apply wfWorld_WellFormed.
    - intros r Hr. eapply Reaches_valid; [apply Hlim, Hr | eauto].
    - intros v Hv. exact (Hval rep q v HF Hq Hv). }
  split; [exact HW|]. split; [exact HH|]. split; [|split].
  - intros pp x Hx. rewrite Hkp. now apply lookupPlacement_push_old.
  - intros vp. now rewrite Hkv, Hkv1.
  - intros f n Hn.
    destruct (updRep_shape _ (push_subfeatures np) w ca f n Hn) as (n1 & Hn1 & Hl1 & Hlen1).
    destruct (updRep_shape setP HsetP w1 F f n1 Hn1) as (n' & Hn' & Hl & Hlen).
    exists n'. split; [exact Hn'|].
    apply local_fields in Hl1 as (A1 & _ & _ & A4 & _ & _ & _ & A8).
    apply local_fields in Hl as (B1 & _ & _ & B4 & _ & _ & _ & B8).
    destruct (bool_decide_reflect (f = ca)), (bool_decide_reflect (f = F));
      cbn [name parent placement setP setPlacement pushPlacementExpression
           setPlacementExpressions] in *;
      repeat split; congruence.
Qed.

Lemma place_keeps_witness :
  exists w',
    place Scenario.noConversion 3 Scenario.world Scenario.pX Scenario.stationAtB = Ok w'
    /\ wfWorld w' /\ worldHeight w' <= worldHeight Scenario.world.
Proof.
  destruct (place Scenario.noConversion 3 Scenario.world Scenario.pX Scenario.stationAtB)
    as [w'| | | |] eqn:E; try (vm_compute in E; discriminate E).
  exists w'. split; [reflexivity|].
  destruct (place_keeps Scenario.noConversion 3 Scenario.world Scenario.pX
              Scenario.stationAtB w' ltac:(reflexivity) E) as (H1 & H2 & _).
  - intros rep q v [= <-] Hq Hv. vm_compute in Hq. injection Hq as <-. discriminate Hv.
  - split; assumption.
Defined.

(** X13: after a successful [place] the placement of the Feature is
    stored under the owner its stamp names, and that owner is reached by
    the parent chain of the Feature and by the parent chain of every
    Feature the stored placement references; the Feature itself is the
    owner only of a placement without references. *)
Theorem place_owner_local conv (fuel : nat) (w : World) (F : FeaturePtr)
    (p : PlacementRep) (w' : World) :
  place conv fuel w F p = Ok w' ->
  exists rep' good stored,
    lookupRep w' F = Some rep' /\ placement rep' = Some good
    /\ lookupPlacement w' good = Some stored
    /\ owner stored = Some (holder good)
    /\ indexInOwner stored = Z.of_nat (slot good)
    /\ Reaches w' F (holder good)
    /\ (forall r, In (Some r) (featureRefs stored) -> Reaches w' r (holder good))
    /\ (holder good = F -> isConstant stored = true).
Proof.
  intros H.
  apply place_Ok in H
    as (rep & q & ca & repca & HF & Hq & _ & _ & _ & Hca & Hlim & Hself & HR & _ & ->).
  apply isLimitedToSubtree_sound in Hlim.
  set (np := setOwner (cloneUnownedWithNewHandle q) (Some ca)
               (Z.of_nat (length (placementExpressions repca)))) in *.
  set (good := SlotAt ca (length (placementExpressions repca))).
  set (w1 := updRep w ca (pushPlacementExpression np)) in *.
  set (setP := fun r : FeatureRep => setPlacement r (Some good)).
  assert (HsetP : forall n, subfeatures (setP n) = subfeatures n) by reflexivity.
  destruct (lookupRep_updRep _ (push_subfeatures np) w ca F rep HF) as (n1 & Hn1 & _).
  destruct (lookupRep_updRep setP HsetP w1 F F n1 Hn1) as (n' & Hn' & Hl).
  rewrite bool_decide_eq_true_2 in Hl by reflexivity.
  apply local_fields in Hl as (_ & _ & _ & _ & _ & _ & _ & Hl).
  exists n', good, np. split; [exact Hn'|]. split; [exact Hl|].
  split.
  { rewrite (lookupPlacement_updRep setP w1 F good) by reflexivity.
    apply (lookupPlacement_push_new w ca np repca Hca). }
  split; [reflexivity|]. split; [reflexivity|].
  split; [apply Reaches_updRep; [reflexivity | reflexivity | exact HR]|].
  split.
  - intros r Hr. apply Reaches_updRep; [reflexivity | reflexivity|].
    apply Reaches_updRep; [reflexivity | reflexivity|]. now apply Hlim.
  - cbn [holder good]. intros ->. destruct Hself as [Hc | Hne]; [exact Hc | congruence].
Qed.

Lemma place_owner_local_witness :
  exists w' rep' good stored,
    place Scenario.noConversion 3 Scenario.world Scenario.pX Scenario.stationAtB = Ok w'
    /\ lookupRep w' Scenario.pX = Some rep' /\ placement rep' = Some good
    /\ lookupPlacement w' good = Some stored
    /\ Reaches w' Scenario.pX (holder good)
    /\ (forall r, In (Some r) (featureRefs stored) -> Reaches w' r (holder good)).
Proof.
  destruct (place Scenario.noConversion 3 Scenario.world Scenario.pX Scenario.stationAtB)
    as [w'| | | |] eqn:E; try (vm_compute in E; discriminate E).
  destruct (place_owner_local Scenario.noConversion 3 Scenario.world Scenario.pX
              Scenario.stationAtB w' E)
    as (rep' & good & stored & H1 & H2 & H3 & _ & _ & H6 & H7 & _).
  exists w', rep', good, stored. repeat split; assumption.
Defined.

(** *** The owner that [place] chooses *)

Lemma commonPrefix_prefix_l (l1 l2 : list nat) : commonPrefix l1 l2 `prefix_of` l1.
Proof. destruct (commonPrefix_l l1 l2) as (sigma & H). now exists sigma. Qed.

Lemma commonPrefix_prefix_r (l1 l2 : list nat) : commonPrefix l1 l2 `prefix_of` l2.
Proof. rewrite commonPrefix_comm. apply commonPrefix_prefix_l. Qed.

Lemma commonPrefix_prefix_greatest (gamma l1 l2 : list nat) :
  gamma `prefix_of` l1 -> gamma `prefix_of` l2 -> gamma `prefix_of` commonPrefix l1 l2.
Proof.
  intros [s1 ->] [s2 ->]. destruct (commonPrefix_greatest gamma s1 s2) as (tau & ->).
  now exists tau.
Qed.

Lemma ancestorDescent_bound (refs : list (option FeaturePtr)) : forall bound,
  ancestorDescent bound refs `prefix_of` bound.
Proof.
  induction refs as [|[r|] refs IH]; intros bound; cbn [ancestorDescent];
    [reflexivity | | apply IH].
  etransitivity; [apply IH | apply commonPrefix_prefix_l].
Qed.

Lemma ancestorDescent_ref (refs : list (option FeaturePtr)) : forall bound r,
  In (Some r) refs -> ancestorDescent bound refs `prefix_of` steps r.
Proof.
  induction refs as [|[r'|] refs IH]; intros bound r Hin; cbn [ancestorDescent].
  - destruct Hin.
  - destruct Hin as [[= ->] | Hin]; [|now apply IH].
    etransitivity; [apply ancestorDescent_bound | apply commonPrefix_prefix_r].
  - destruct Hin as [[=] | Hin]. now apply IH.
Qed.

Lemma ancestorDescent_greatest (refs : list (option FeaturePtr)) : forall bound gamma,
  gamma `prefix_of` bound ->
  (forall r, In (Some r) refs -> gamma `prefix_of` steps r) ->
  gamma `prefix_of` ancestorDescent bound refs.
Proof.
  induction refs as [|[r'|] refs IH]; intros bound gamma Hb Hrefs; cbn [ancestorDescent].
  - exact Hb.
  - apply IH; [|intros r Hr; apply Hrefs; now right].
    apply commonPrefix_prefix_greatest; [exact Hb | apply Hrefs; now left].
  - apply IH; [exact Hb | intros r Hr; apply Hrefs; now right].
Qed.

Lemma Reaches_wf_iff (w : World) (r root : FeaturePtr) :
  ParentsOK w -> is_Some (lookupRep w r) ->
  Reaches w r root <-> base r = base root /\ steps root `prefix_of` steps r.
Proof.
  intros Hpar Hr. split.
  - intros HR. destruct (Reaches_descendant w r root Hpar HR) as (sigma & ->).
    split; [reflexivity | now exists sigma].
  - intros [Hb [sigma Hs]].
    assert (E : r = descendant root sigma).
    { destruct r as [b st]. unfold descendant. cbn in *. now rewrite Hb, Hs. }
    rewrite E in Hr |- *. now apply descendant_Reaches.
Qed.

Lemma prefix_valid (w : World) (hd : handle) (gamma pi : list nat) :
  gamma `prefix_of` pi -> is_Some (lookupRep w (FeatureAt hd pi)) ->
  is_Some (lookupRep w (FeatureAt hd gamma)).
Proof.
  intros [sigma ->] [n Hn].
  apply (lookupRep_prefix_valid w (FeatureAt hd gamma) sigma n Hn).
Qed.

Lemma isLimitedToSubtree_wf (fuel : nat) (w : World) (root : FeaturePtr)
    (refs : list (option FeaturePtr)) :
  wfWorld w -> worldHeight w <= fuel ->
  (forall r, In (Some r) refs -> is_Some (lookupRep w r) /\ Reaches w r root) ->
  isLimitedToSubtree fuel w refs root = Ok None.
Proof.
  intros Hwf Hfuel Hrefs.
  destruct (isLimitedToSubtree_spec fuel w root refs) as (res & Hres & Hspec).
  { intros r Hr. apply wfWorld_rooted_fuel; [assumption | now apply Hrefs | assumption]. }
  destruct res as [o|]; [|exact Hres].
  destruct Hspec as [Hin Hout]. exfalso. now apply Hout, Hrefs.
Qed.

Lemma findAncestorFeature_wf (fuel : nat) (w : World)
    (refs : list (option FeaturePtr)) : forall bound,
  ParentsOK w -> worldHeight w <= fuel ->
  is_Some (lookupRep w bound) ->
  (forall r, In (Some r) refs -> is_Some (lookupRep w r) /\ base r = base bound) ->
  findAncestorFeature fuel w refs bound
  = Ok (Some (FeatureAt (base bound) (ancestorDescent (steps bound) refs))).
Proof.
  induction refs as [|[r|] refs IH]; intros bound Hpar Hfuel Hb Hrefs;
    cbn [findAncestorFeature ancestorDescent].
  - now destruct bound.
  - destruct (Hrefs r (or_introl eq_refl)) as [[nr Hr] Hbase]. destruct Hb as [nb Hb'].
    rewrite (findYoungestCommonAncestor_wf fuel w bound r nb nr Hpar Hb' Hr)
      by (eapply Nat.lt_le_trans; [eapply valid_depth; eassumption | exact Hfuel]).
    rewrite bind_Ok_l, bool_decide_eq_true_2 by congruence.
    rewrite IH; [reflexivity | assumption | assumption | |].
    + apply (prefix_valid w (base bound) _ (steps bound));
        [apply commonPrefix_prefix_l | destruct bound; eauto].
    + intros r' Hr'. apply Hrefs. now right.
  - apply IH; try assumption. intros r' Hr'. apply Hrefs. now right.
Qed.

Lemma dependsOn_push (w : World) (ca : FeaturePtr) (np : PlacementRep) (f : FeaturePtr) :
  WellFormed w ->
  forall fuel p,
  dependsOn fuel (updRep w ca (pushPlacementExpression np)) p f = dependsOn fuel w p f.
Proof.
  intros Hwf. induction fuel as [|fuel IH]; intros p; [reflexivity|].
  cbn [dependsOn]. induction (featureRefs p) as [|[g|] refs IHrefs];
    cbn [dependsOnRefs]; [reflexivity | | exact IHrefs].
  case_bool_decide; [reflexivity|]. rewrite IHrefs. unfold getRep.
  pose proof (lookupRep_updRep_eq _ (push_subfeatures np) w ca g) as E.
  destruct (lookupRep w g) as [n|] eqn:Hn;
    destruct (lookupRep (updRep w ca (pushPlacementExpression np)) g) as [n1|];
    try discriminate; [|reflexivity].
  apply (inj Some) in E. apply local_fields in E as (_ & _ & _ & _ & _ & _ & _ & E).
  cbn [fromOption]. rewrite !bind_Ok_l, E.
  replace (placement (if bool_decide (g = ca) then pushPlacementExpression np n else n))
    with (placement n) by now case_bool_decide.
  destruct (placement n) as [pp|] eqn:Hpp; [|reflexivity].
  destruct (Hwf g n Hn) as [_ _ _ _ Hact]. destruct (Hact pp Hpp) as [x Hx].
  unfold getPlacementRep.
  rewrite (lookupPlacement_push_old w ca np x pp Hx), Hx. cbn [fromOption].
  rewrite !bind_Ok_l, IH. reflexivity.
Qed.

Lemma dependsOn_refs (fuel : nat) (w : World) (p p' : PlacementRep) (f : FeaturePtr) :
  featureRefs p = featureRefs p' -> dependsOn fuel w p f = dependsOn fuel w p' f.
Proof. intros H. destruct fuel; [reflexivity|]. cbn [dependsOn]. now rewrite H. Qed.

Lemma walkUp_updRep (g : FeatureRep -> FeatureRep) (w : World) (f root : FeaturePtr) :
  (forall n, subfeatures (g n) = subfeatures n) ->
  (forall n, parent (g n) = parent n) ->
  (forall n, indexInParent (g n) = indexInParent n) ->
  forall fuel x trace,
  walkUp fuel (updRep w f g) root x trace = walkUp fuel w root x trace.
Proof.
  intros Hg Hp Hi. induction fuel as [|fuel IH]; intros x trace; [reflexivity|].
  cbn [walkUp]. case_bool_decide; [reflexivity|].
  unfold getParentPtr, getRep.
  pose proof (lookupRep_updRep_eq g Hg w f x) as E.
  destruct (lookupRep w x) as [n|];
    destruct (lookupRep (updRep w f g) x) as [n1|]; try discriminate; [|reflexivity].
  apply (inj Some) in E. apply local_fields in E as (_ & _ & _ & E4 & E5 & _).
  assert (E4' : parent n1 = parent n)
    by (rewrite E4; case_bool_decide; [now rewrite Hp | reflexivity]).
  assert (E5' : indexInParent n1 = indexInParent n)
    by (rewrite E5; case_bool_decide; [now rewrite Hi | reflexivity]).
  cbn [fromOption]. rewrite !bind_Ok_l, E4'.
  destruct (parent n); [|reflexivity].
  rewrite !bind_Ok_l, E5'. apply IH.
Qed.

Lemma removelast_prefix (l : list nat) : removelast l `prefix_of` l.
Proof.
  induction l as [|x l _] using rev_ind; [reflexivity|].
  rewrite removelast_last. now exists [x].
Qed.

Lemma youngestAllowed_wf (w : World) (F : FeaturePtr) (rep : FeatureRep) :
  ParentsOK w -> lookupRep w F = Some rep ->
  match parent rep with Some pp => pp | None => F end
  = FeatureAt (base F) (removelast (steps F)).
Proof.
  intros Hpar HF. destruct (Hpar F rep HF) as [-> _].
  destruct F as [b st]. unfold parentPtr. cbn. now destruct st.
Qed.

(** The run of [place] in a consistent world, on a placement whose
    references are Features of the tree of [F]: every navigation step
    succeeds, and the owner is at the descent [ancestorDescent]. *)
Lemma place_wf conv (fuel : nat) (w : World) (F : FeaturePtr) (rep : FeatureRep)
    (p q : PlacementRep) :
  wfWorld w -> lookupRep w F = Some rep ->
  pTweaked conv rep p = Ok (Some q) -> placementType q = requiredPlacementType rep ->
  (forall r, In (Some r) (featureRefs q) -> is_Some (lookupRep w r) /\ base r = base F) ->
  worldHeight w <= fuel ->
  exists repca,
    lookupRep w (FeatureAt (base F)
                   (ancestorDescent (removelast (steps F)) (featureRefs q))) = Some repca
    /\ place conv fuel w F p =
       (_ ← assert (isConstant q
                    || negb (bool_decide
                         (FeatureAt (base F)
                            (ancestorDescent (removelast (steps F)) (featureRefs q)) = F)));
        dep ← dependsOn fuel w q F;
        _ ← assert (negb dep);
        Ok (updRep
              (updRep w
                 (FeatureAt (base F)
                    (ancestorDescent (removelast (steps F)) (featureRefs q)))
                 (pushPlacementExpression
                    (setOwner (cloneUnownedWithNewHandle q)
                       (Some (FeatureAt (base F)
                                (ancestorDescent (removelast (steps F)) (featureRefs q))))
                       (Z.of_nat (length (placementExpressions repca))))))
              F (fun r => setPlacement r
                   (Some (SlotAt (FeatureAt (base F)
                                    (ancestorDescent (removelast (steps F))
                                       (featureRefs q)))
                            (length (placementExpressions repca))))))).
Proof.
  intros Hwf HF Hq Htype Hrefs Hfuel.
  pose proof (wfWorld_ParentsOK w Hwf) as Hpar.
  set (ca := FeatureAt (base F) (ancestorDescent (removelast (steps F)) (featureRefs q))).
  assert (Hprefix : steps ca `prefix_of` steps F).
  { etransitivity; [apply ancestorDescent_bound | apply removelast_prefix]. }
  assert (Hca : is_Some (lookupRep w ca)).
  { apply (prefix_valid w (base F) _ (steps F) Hprefix). destruct F; eauto. }
  destruct Hca as [repca Hca]. exists repca. split; [exact Hca|].
  assert (Hreach : forall r, In (Some r) (featureRefs q) ->
                     is_Some (lookupRep w r) /\ Reaches w r ca).
  { intros r Hr. destruct (Hrefs r Hr) as [Hv Hb]. split; [exact Hv|].
    apply Reaches_wf_iff; [assumption | assumption|].
    split; [exact Hb | apply ancestorDescent_ref, Hr]. }
  unfold place, getRep. rewrite HF. cbn [fromOption]. rewrite bind_Ok_l, Hq, bind_Ok_l.
  rewrite (bool_decide_eq_true_2 _ Htype). cbn [assert]. rewrite bind_Ok_l.
  rewrite (findRootFeature_wf w fuel F rep Hpar HF)
    by (eapply Nat.lt_le_trans; [eapply valid_depth; eassumption | exact Hfuel]).
  rewrite bind_Ok_l.
  rewrite isLimitedToSubtree_wf; [|assumption | assumption|].
  2:{ intros r Hr. destruct (Hrefs r Hr) as [Hv Hb]. split; [exact Hv|].
      apply Reaches_wf_iff; [assumption | assumption|].
      split; [exact Hb | now exists (steps r)]. }
  rewrite bind_Ok_l. rewrite (youngestAllowed_wf w F rep Hpar HF).
  rewrite findAncestorFeature_wf; [|assumption | assumption | |].
  2:{ apply (prefix_valid w (base F) _ (steps F) (removelast_prefix _)).
      destruct F; eauto. }
  2:{ intros r Hr. exact (Hrefs r Hr). }
  rewrite bind_Ok_l. cbn [base steps]. fold ca.
  unfold addPlacementLike, getRep. rewrite Hca. cbn [fromOption]. rewrite bind_Ok_l.
  rewrite isLimitedToSubtree_wf by assumption. rewrite !bind_Ok_l. cbv zeta.
  set (np := setOwner (cloneUnownedWithNewHandle q) (Some ca)
               (Z.of_nat (length (placementExpressions repca)))).
  unfold getPlacementRep. rewrite (lookupPlacement_push_new w ca np repca Hca).
  cbn [fromOption]. rewrite bind_Ok_l. cbn [owner np setOwner].
  change (isConstant np) with (isConstant q).
  destruct (isConstant q || negb (bool_decide (ca = F))); [|reflexivity].
  cbn [assert]. rewrite !bind_Ok_l.
  unfold isFeatureInFeatureTree.
  rewrite (walkUp_updRep _ w ca ca (push_subfeatures np)) by reflexivity.
  destruct (wfWorld_rooted_fuel w F fuel Hwf (mk_is_Some _ _ HF) Hfuel) as (k & Hk & Hlt).
  destruct (walkUp_rooted w ca k F Hk fuel [] Hlt) as (b & tr & Hw & Hb & _).
  rewrite Hw, bind_Ok_l.
  assert (b = true) as ->.
  { apply Hb. apply Reaches_wf_iff; [assumption | eauto|]. split; [reflexivity | exact Hprefix]. }
  cbn [assert]. rewrite bind_Ok_l.
  rewrite (dependsOn_push w ca np F (proj1 (wfWorld_WellFormed w) Hwf)).
  rewrite (dependsOn_refs fuel w np q F eq_refl). reflexivity.
Qed.

Lemma dependsOnRefs_not_Throw via (w : World) (f : FeaturePtr)
    (refs : list (option FeaturePtr)) (e : Exception) :
  (forall q e', via q <> Throw e') -> dependsOnRefs via w f refs <> Throw e.
Proof.
  intros Hvia. induction refs as [|[g|] refs IH]; cbn [dependsOnRefs];
    [discriminate | | exact IH].
  case_bool_decide; [discriminate|]. unfold getRep.
  destruct (lookupRep w g) as [n|]; [|cbn; discriminate].
  cbn [fromOption]. rewrite bind_Ok_l. destruct (placement n) as [pp|].
  - unfold getPlacementRep. destruct (lookupPlacement w pp) as [x|]; [|cbn; discriminate].
    cbn [fromOption]. rewrite bind_Ok_l.
    destruct (via x) as [[|]| e' | | |] eqn:Ev; cbn; try discriminate; [exact IH|].
    now apply Hvia in Ev.
  - rewrite bind_Ok_l. exact IH.
Qed.

Lemma dependsOn_not_Throw (w : World) (f : FeaturePtr) : forall fuel p e,
  dependsOn fuel w p f <> Throw e.
Proof.
  induction fuel as [|fuel IH]; intros p e; [discriminate|].
  cbn [dependsOn]. apply dependsOnRefs_not_Throw. intros q e'. apply IH.
Qed.

(** X14: in a consistent world, with the type reconciled, [place] throws
    exactly when the placement references a Feature of another tree; the
    exception is then FeatureAndPlacementOnDifferentTrees with the full
    name of the Feature and the full name of such a reference. *)
Theorem place_different_trees conv (fuel : nat) (w : World) (F : FeaturePtr)
    (rep : FeatureRep) (p q : PlacementRep) :
  wfWorld w -> lookupRep w F = Some rep ->
  pTweaked conv rep p = Ok (Some q) -> placementType q = requiredPlacementType rep ->
  (forall r, In (Some r) (featureRefs q) -> is_Some (lookupRep w r)) ->
  worldHeight w <= fuel ->
  ((exists r, In (Some r) (featureRefs q) /\ base r <> base F)
   <-> exists e, place conv fuel w F p = Throw e)
  /\ (forall e, place conv fuel w F p = Throw e ->
      exists thisName o offenderName,
        In (Some o) (featureRefs q) /\ base o <> base F
        /\ getFullName fuel w F = Ok thisName
        /\ getFullName fuel w o = Ok offenderName
        /\ e = FeatureAndPlacementOnDifferentTrees thisName offenderName).
Proof.
  intros Hwf HF Hq Htype Hvalid Hfuel.
  pose proof (wfWorld_ParentsOK w Hwf) as Hpar.
  destruct (isLimitedToSubtree_spec fuel w (rootPtr (base F)) (featureRefs q))
    as (res & Hres & Hspec).
  { intros r Hr. apply wfWorld_rooted_fuel; auto. }
  destruct res as [o|].
  - destruct Hspec as [Hin Hout].
    assert (Hbase : base o <> base F).
    { intros E. apply Hout. apply Reaches_wf_iff; [assumption | auto|].
      split; [exact E | now exists (steps o)]. }
    destruct (wfWorld_rooted_fuel w F fuel Hwf (mk_is_Some _ _ HF) Hfuel) as (k & Hk & Hlt).
    destruct (getFullName_rooted w k F Hk fuel Hlt) as (thisName & Hthis).
    destruct (wfWorld_rooted_fuel w o fuel Hwf (Hvalid o Hin) Hfuel) as (k' & Hk' & Hlt').
    destruct (getFullName_rooted w k' o Hk' fuel Hlt') as (oName & HoName).
    assert (Hplace : place conv fuel w F p
                     = Throw (FeatureAndPlacementOnDifferentTrees thisName oName)).
    { unfold place, getRep. rewrite HF. cbn [fromOption]. rewrite bind_Ok_l, Hq, bind_Ok_l.
      rewrite (bool_decide_eq_true_2 _ Htype). cbn [assert]. rewrite bind_Ok_l.
      rewrite (findRootFeature_wf w fuel F rep Hpar HF)
        by (eapply Nat.lt_le_trans; [eapply valid_depth; eassumption | exact Hfuel]).
      rewrite bind_Ok_l, Hres, bind_Ok_l, Hthis, bind_Ok_l, HoName, bind_Ok_l.
      reflexivity. }
    split.
    + split; [intros _; eauto | intros _; eauto].
    + intros e He. rewrite Hplace in He. injection He as <-.
      exists thisName, o, oName. auto.
  - assert (Hsame : forall r, In (Some r) (featureRefs q) ->
                      is_Some (lookupRep w r) /\ base r = base F).
    { intros r Hr. split; [auto|].
      apply (Reaches_wf_iff w r (rootPtr (base F)) Hpar (Hvalid r Hr)), Hspec, Hr. }
    destruct (place_wf conv fuel w F rep p q Hwf HF Hq Htype Hsame Hfuel)
      as (repca & _ & Hplace).
    assert (Hno : forall e, place conv fuel w F p <> Throw e).
    { intros e. rewrite Hplace.
      destruct (isConstant q || negb _); [|cbn; discriminate].
      cbn [assert]. rewrite bind_Ok_l.
      destruct (dependsOn fuel w q F) as [[|]| e' | | |] eqn:Ed; cbn; try discriminate.
      now apply dependsOn_not_Throw in Ed. }
    split.
    + split; [|intros [e He]; now apply Hno in He].
      intros (r & Hr & Hb). now destruct (Hsame r Hr).
    + intros e He. now apply Hno in He.
Qed.

Lemma place_different_trees_witness :
  exists e,
    place Scenario.noConversion 3 Forest.forest Scenario.pX Forest.stationAtOther = Throw e
    /\ exists thisName offenderName,
         e = FeatureAndPlacementOnDifferentTrees thisName offenderName.
Proof.
  destruct (place_different_trees Scenario.noConversion 3 Forest.forest Scenario.pX
              Scenario.repX Forest.stationAtOther Forest.stationAtOther)
    as [Hiff Hshape].
  - reflexivity.
  - reflexivity.
  - reflexivity.
  - reflexivity.
  - intros r [[= <-] | []]. eexists. reflexivity.
  - vm_compute. lia.
  - destruct (proj1 Hiff) as [e He].
    + exists (rootPtr Forest.hOther). split; [now left | discriminate].
    + exists e. split; [exact He|].
      destruct (Hshape e He) as (tn & o & on & _ & _ & _ & _ & ->). eauto.
Defined.

(** X15: in a consistent world a Feature without parent cannot be given a
    placement that references Features of its tree: [place] ends in the
    failed assertion that the owner of a placement with references is not
    the Feature itself. *)
Theorem place_root_needs_constant conv (fuel : nat) (w : World) (F : FeaturePtr)
    (rep : FeatureRep) (p q : PlacementRep) :
  wfWorld w -> lookupRep w F = Some rep -> parent rep = None ->
  pTweaked conv rep p = Ok (Some q) -> placementType q = requiredPlacementType rep ->
  isConstant q = false ->
  (forall r, In (Some r) (featureRefs q) -> is_Some (lookupRep w r) /\ base r = base F) ->
  worldHeight w <= fuel ->
  place conv fuel w F p = AssertionFailed.
Proof.
  intros Hwf HF Hroot Hq Htype Hnc Hsame Hfuel.
  destruct (place_wf conv fuel w F rep p q Hwf HF Hq Htype Hsame Hfuel)
    as (repca & _ & Hplace).
  rewrite Hplace, Hnc.
  destruct (wfWorld_ParentsOK w Hwf F rep HF) as [Hp _]. rewrite Hroot in Hp.
  assert (Hsteps : steps F = []).
  { destruct F as [b st]. unfold parentPtr in Hp. cbn in *. now destruct st. }
  rewrite Hsteps. cbn [removelast].
  pose proof (ancestorDescent_bound (featureRefs q) []) as Hpre.
  apply prefix_nil_inv in Hpre. rewrite Hpre.
  rewrite bool_decide_eq_true_2; [reflexivity|].
  destruct F; cbn in *; congruence.
Qed.

Lemma place_root_needs_constant_witness :
  place Scenario.noConversion 3 Scenario.world Scenario.pRoot Forest.frameAtB
  = AssertionFailed.
Proof.
  apply (place_root_needs_constant Scenario.noConversion 3 Scenario.world Scenario.pRoot
           Scenario.repRoot Forest.frameAtB Forest.frameAtB).
  - reflexivity.
  - reflexivity.
  - reflexivity.
  - reflexivity.
  - reflexivity.
  - reflexivity.
  - intros r [[= <-] | []]. split; [eexists|]; reflexivity.
  - vm_compute. lia.
Defined.

(** X16: in a consistent world, on a Feature that has a parent, [place]
    of a placement whose references are Features of the same tree and which
    does not depend on the Feature succeeds, and the owner it chooses is
    the youngest Feature that the parent's chain and the chain of every
    referenced Feature reach; it is never the Feature itself. *)
Theorem place_owner_youngest conv (fuel : nat) (w : World) (F pp : FeaturePtr)
    (rep : FeatureRep) (p q : PlacementRep) :
  wfWorld w -> lookupRep w F = Some rep -> parent rep = Some pp ->
  pTweaked conv rep p = Ok (Some q) -> placementType q = requiredPlacementType rep ->
  (forall r, In (Some r) (featureRefs q) -> is_Some (lookupRep w r) /\ base r = base F) ->
  worldHeight w <= fuel -> dependsOn fuel w q F = Ok false ->
  exists w' rep' good stored,
    place conv fuel w F p = Ok w'
    /\ lookupRep w' F = Some rep' /\ placement rep' = Some good
    /\ lookupPlacement w' good = Some stored
    /\ placementType stored = placementType q /\ featureRefs stored = featureRefs q
    /\ holder good = FeatureAt (base F) (ancestorDescent (steps pp) (featureRefs q))
    /\ holder good <> F
    /\ Reaches w pp (holder good)
    /\ (forall r, In (Some r) (featureRefs q) -> Reaches w r (holder good))
    /\ (forall c, Reaches w pp c ->
          (forall r, In (Some r) (featureRefs q) -> Reaches w r c) ->
          Reaches w (holder good) c).
Proof.
  intros Hwf HF Hparent Hq Htype Hsame Hfuel Hdep.
  pose proof (wfWorld_ParentsOK w Hwf) as Hpar.
  destruct (place_wf conv fuel w F rep p q Hwf HF Hq Htype Hsame Hfuel)
    as (repca & Hca & Hplace).
  pose proof (youngestAllowed_wf w F rep Hpar HF) as Hya. rewrite Hparent in Hya.
  assert (Hpp : steps pp = removelast (steps F)) by now rewrite Hya.
  assert (Hbpp : base pp = base F) by now rewrite Hya.
  rewrite <- Hpp in Hca, Hplace.
  set (ca := FeatureAt (base F) (ancestorDescent (steps pp) (featureRefs q))) in *.
  assert (HvF : is_Some (lookupRep w F)) by eauto.
  assert (Hvpp : is_Some (lookupRep w pp)).
  { rewrite Hya. apply (prefix_valid w (base F) _ (steps F) (removelast_prefix _)).
    destruct F; eauto. }
  assert (Hne : ca <> F).
  { assert (Hnonempty : steps F <> []).
    { destruct (Hpar F rep HF) as [Hp _]. rewrite Hparent in Hp. intros E0.
      unfold parentPtr in Hp. rewrite E0 in Hp. discriminate. }
    intros E. apply (f_equal steps) in E. cbn [ca steps] in E.
    pose proof (ancestorDescent_bound (featureRefs q) (steps pp)) as [k Hk].
    rewrite E, Hpp in Hk. clear -Hk Hnonempty.
    destruct (steps F) as [|x st _] using rev_ind; [congruence|].
    rewrite removelast_last in Hk. apply (f_equal length) in Hk.
    rewrite !length_app in Hk. cbn in Hk. lia. }
  rewrite (bool_decide_eq_false_2 _ Hne), orb_true_r in Hplace. cbn [assert] in Hplace.
  rewrite bind_Ok_l, Hdep, bind_Ok_l in Hplace. cbn [negb assert] in Hplace.
  rewrite bind_Ok_l in Hplace.
  set (np := setOwner (cloneUnownedWithNewHandle q) (Some ca)
               (Z.of_nat (length (placementExpressions repca)))) in *.
  set (good := SlotAt ca (length (placementExpressions repca))) in *.
  set (w1 := updRep w ca (pushPlacementExpression np)) in *.
  set (setP := fun r : FeatureRep => setPlacement r (Some good)) in *.
  assert (HsetP : forall n, subfeatures (setP n) = subfeatures n) by reflexivity.
  destruct (lookupRep_updRep _ (push_subfeatures np) w ca F rep HF) as (n1 & Hn1 & _).
  destruct (lookupRep_updRep setP HsetP w1 F F n1 Hn1) as (n' & Hn' & Hl).
  rewrite bool_decide_eq_true_2 in Hl by reflexivity.
  apply local_fields in Hl as (_ & _ & _ & _ & _ & _ & _ & Hl).
  exists (updRep w1 F setP), n', good, np.
  split; [exact Hplace|]. split; [exact Hn'|]. split; [exact Hl|].
  split.
  { rewrite (lookupPlacement_updRep setP w1 F good) by reflexivity.
    apply (lookupPlacement_push_new w ca np repca Hca). }
  split; [reflexivity|]. split; [reflexivity|]. split; [reflexivity|].
  split; [exact Hne|]. cbn [holder good].
  split; [|split].
  - apply Reaches_wf_iff; [assumption | assumption|].
    split; [exact Hbpp | apply ancestorDescent_bound].
  - intros r Hr. destruct (Hsame r Hr) as [Hv Hb].
    apply Reaches_wf_iff; [assumption | assumption|].
    split; [exact Hb | now apply ancestorDescent_ref].
  - intros c Hc Hrefs.
    apply (Reaches_wf_iff w pp c Hpar Hvpp) in Hc as [Hbc Hpc].
    apply Reaches_wf_iff; [assumption | eauto|].
    split; [cbn; congruence|]. cbn [ca steps].
    apply ancestorDescent_greatest; [exact Hpc|].
    intros r Hr. destruct (Hsame r Hr) as [Hv _].
    now apply (Reaches_wf_iff w r c Hpar Hv), Hrefs.
Qed.

Lemma place_owner_youngest_witness :
  exists w' rep' good,
    place Scenario.noConversion 3 Scenario.world Scenario.pX Scenario.stationAtB = Ok w'
    /\ lookupRep w' Scenario.pX = Some rep' /\ placement rep' = Some good
    /\ holder good = Scenario.pRoot.
Proof.
  destruct (place_owner_youngest Scenario.noConversion 3 Scenario.world Scenario.pX
              Scenario.pA Scenario.repX Scenario.stationAtB Scenario.stationAtB)
    as (w' & rep' & good & stored & H1 & H2 & H3 & _ & _ & _ & H7 & _).
  - reflexivity.
  - reflexivity.
  - reflexivity.
  - reflexivity.
  - reflexivity.
  - intros r [[= <-] | []]. split; [eexists|]; reflexivity.
  - vm_compute. lia.
  - reflexivity.
  - exists w', rep', good. repeat split; assumption.
Defined.

(** *** Cloning keeps the world consistent *)

Lemma map_height_map_from (g : nat -> FeatureRep -> FeatureRep) (l : list FeatureRep) :
  Forall (fun c => forall k, height (g k c) = height c) l ->
  forall i, map height (map_from g i l) = map height l.
Proof. induction 1 as [|c l Hc _ IH]; intros i; cbn; [reflexivity|]. now rewrite Hc, IH. Qed.

Lemma height_cloned (this : FeaturePtr) (h : handle) (rep : FeatureRep) :
  forall me, height (cloned this h me rep) = height rep.
Proof.
  induction rep as [rep IH] using FeatureRep_tree_ind. intros me.
  rewrite (height_unfold (cloned this h me rep)), (height_unfold rep), cloned_unfold.
  cbn [subfeatures]. f_equal. f_equal.
  apply (map_height_map_from (fun i c => cloned this h (childPtr me i) c)).
  eapply Forall_impl; [exact IH|]. intros c Hc k. apply Hc.
Qed.

Lemma lookupPlacement_fresh (w : World) (h : handle) (C : FeatureRep) (pp : SlotPtr)
    (x : PlacementRep) :
  w !! h = None -> lookupPlacement w pp = Some x ->
  lookupPlacement (<[h := C]> w) pp = Some x.
Proof.
  intros Hfresh. unfold lookupPlacement.
  destruct (lookupRep w (holder pp)) as [n|] eqn:Hn; [|discriminate].
  now rewrite (lookupRep_old_valid w h Hfresh C _ n Hn).
Qed.

Lemma lookupPlacementValue_fresh (w : World) (h : handle) (C : FeatureRep) (vp : SlotPtr)
    (x : PlacementValueRep) :
  w !! h = None -> lookupPlacementValue w vp = Some x ->
  lookupPlacementValue (<[h := C]> w) vp = Some x.
Proof.
  intros Hfresh. unfold lookupPlacementValue.
  destruct (lookupRep w (holder vp)) as [n|] eqn:Hn; [|discriminate].
  now rewrite (lookupRep_old_valid w h Hfresh C _ n Hn).
Qed.

Lemma WellFormed_cloned (w : World) (this : FeaturePtr) (T : FeatureRep) (h : handle) :
  wfWorld w -> lookupRep w this = Some T -> w !! h = None ->
  WellFormed (<[h := cloned this h (rootPtr h) T]> w).
Proof.
  intros Hwf Hthis Hfresh f n Hn.
  destruct (decide (base f = h)) as [E|Hne].
  - destruct f as [b sigma]. cbn in E. subst b.
    rewrite lookupRep_w2_new in Hn.
    destruct (descend T sigma) as [n0|] eqn:Hd; [|discriminate]. injection Hn as <-.
    destruct (cloned_node w this T h Hwf Hthis sigma n0 Hd)
      as [_ _ _ _ Hp Hi _ Hlen Hpl _ Hval _ Hact].
    constructor; [exact Hp | exact Hi | | |].
    + intros j q Hj.
      destruct (lookup_lt_is_Some_2 (placementExpressions n0) j) as [p0 Hp0].
      { rewrite <- Hlen. eapply lookup_lt_Some, Hj. }
      destruct (Hpl j p0 q Hp0 Hj) as [_ Ho Hix _ Hrefs _ Hv].
      apply consistentPlacement_intro; [exact Ho | exact Hix | |].
      * intros r Hr. rewrite Forall_forall in Hrefs.
        apply list_elem_of_In, Hrefs in Hr. apply Hr.
      * intros v Hv'. rewrite Hv' in Hv. apply Hv.
    + intros j v Hj. destruct (Hval j v Hj). now apply consistentValue_intro.
    + intros pp Hpp. rewrite Hpp in Hact. apply Hact.
  - rewrite lookupRep_old in Hn by exact Hne.
    destruct (wfWorld_node w f n Hwf Hn) as [Hp Hi Hpes Hpvs Hact].
    constructor; [exact Hp | exact Hi | | exact Hpvs |].
    + intros j q Hj. eapply consistentPlacement_mono; [| | apply Hpes, Hj].
      * intros r [x Hx]. exists x. now apply lookupRep_old_valid.
      * intros v [x Hx]. exists x. now apply lookupPlacementValue_fresh.
    + intros pp Hpp. destruct (Hact pp Hpp) as [x Hx]. exists x.
      now apply lookupPlacement_fresh.
Qed.

(** X17: the clone of a subtree of a consistent world into a fresh
    free-standing handle leaves a consistent world: the new tree passes the
    consistency check, too; every Feature, placement expression and
    placement value of the old world is where it was, unchanged; and no
    tree of the new world is higher than the highest of the old. *)
Theorem clone_keeps (fuel : nat) (w : World) (this : FeaturePtr) (T : FeatureRep)
    (h : handle) :
  wfWorld w -> lookupRep w this = Some T -> w !! h = None -> worldHeight w <= fuel ->
  exists w',
    cloneWithoutParentOrExternalPlacements fuel w this h = Ok w'
    /\ wfWorld w'
    /\ worldHeight w' <= worldHeight w
    /\ is_Some (lookupRep w' (rootPtr h))
    /\ (forall f n, lookupRep w f = Some n -> lookupRep w' f = Some n)
    /\ (forall pp x, lookupPlacement w pp = Some x -> lookupPlacement w' pp = Some x)
    /\ (forall vp x, lookupPlacementValue w vp = Some x ->
          lookupPlacementValue w' vp = Some x).
Proof.
  intros Hwf Hthis Hfresh Hfuel.
  exists (<[h := cloned this h (rootPtr h) T]> w).
  split; [now apply clone_cloned|].
  split; [now apply WellFormed_wfWorld, WellFormed_cloned|].
  split; [|split; [|split; [|split]]].
  - apply worldHeight_bound. intros h' R HR.
    destruct (decide (h' = h)) as [->|Hne].
    + rewrite lookup_insert_eq in HR. injection HR as <-. rewrite height_cloned.
      unfold lookupRep in Hthis. destruct (w !! base this) as [R|] eqn:HR; [|discriminate].
      apply height_descend in Hthis. apply worldHeight_le in HR. lia.
    + rewrite lookup_insert_ne in HR by congruence. now apply (worldHeight_le w h').
  - unfold lookupRep. cbn. rewrite lookup_insert_eq. eauto.
  - intros f n. now apply lookupRep_old_valid.
  - intros pp x. now apply lookupPlacement_fresh.
  - intros vp x. now apply lookupPlacementValue_fresh.
Qed.

Lemma clone_keeps_witness :
  exists w',
    cloneWithoutParentOrExternalPlacements 3 Scenario.placedWorld Scenario.pA Scenario.hNew
      = Ok w'
    /\ wfWorld w' /\ worldHeight w' <= worldHeight Scenario.placedWorld.
Proof.
  destruct (clone_keeps 3 Scenario.placedWorld Scenario.pA
              (mkFeatureRep "A" "Frame" FramePlacementType (Some Scenario.pRoot) 1
                 [mkFeatureRep "X" "Station" StationPlacementType (Some Scenario.pA) 0
                    [] [] [] (Some (SlotAt Scenario.pRoot 0))] [] [] None)
              Scenario.hNew)
    as (w' & H1 & H2 & H3 & _).
  - vm_compute. reflexivity.
  - vm_compute. reflexivity.
  - vm_compute. reflexivity.
  - vm_compute. lia.
  - exists w'. repeat split; assumption.
Defined.

(** *** Placing, then cloning *)

Lemma placed_lookup (w : World) (ca F : FeaturePtr) (np : PlacementRep)
    (rep : FeatureRep) (good : SlotPtr) :
  lookupRep w F = Some rep ->
  exists T,
    lookupRep (updRep (updRep w ca (pushPlacementExpression np)) F
                 (fun r => setPlacement r (Some good))) F = Some T
    /\ placement T = Some good.
Proof.
  intros HF.
  destruct (lookupRep_updRep _ (push_subfeatures np) w ca F rep HF) as (n1 & Hn1 & _).
  destruct (lookupRep_updRep (fun r => setPlacement r (Some good))
              (setPlacement_subfeatures (Some good)) _ F F n1 Hn1) as (T & HT & Hl).
  rewrite bool_decide_eq_true_2 in Hl by reflexivity.
  apply local_fields in Hl as (_ & _ & _ & _ & _ & _ & _ & Hl). eauto.
Qed.

(** X18: a placement that [place] has stored under the Feature itself
    (the Feature is a root) survives the clone of the Feature: the clone's
    placement is the slot of the same index under the new root.  A
    placement that [place] has stored under an ancestor (the Feature has a
    parent) is external to the Feature and the clone of the Feature has no
    placement. *)
Theorem place_then_clone conv (fuel : nat) (w : World) (F : FeaturePtr)
    (p : PlacementRep) (w' : World) (h : handle) :
  wfWorld w -> place conv fuel w F p = Ok w' ->
  (forall rep q v, lookupRep w F = Some rep -> pTweaked conv rep p = Ok (Some q) ->
     valueRef q = Some v -> is_Some (lookupPlacementValue w v)) ->
  w' !! h = None -> worldHeight w <= fuel ->
  exists rep T C good,
    lookupRep w F = Some rep /\ lookupRep w' F = Some T /\ placement T = Some good
    /\ cloneWithoutParentOrExternalPlacements fuel w' F h = Ok (<[h := C]> w')
    /\ match parent rep with
       | None => holder good = F /\ placement C = Some (SlotAt (rootPtr h) (slot good))
       | Some _ => holder good <> F /\ placement C = None
       end.
Proof.
  intros Hwf Hplace Hval Hfresh Hfuel.
  destruct (place_wfWorld conv fuel w F p w' Hwf Hplace Hval) as [Hwf' Hh'].
  pose proof (wfWorld_ParentsOK w Hwf) as Hpar.
  apply place_Ok in Hplace
    as (rep & q & ca & repca & HF & Hq & Htype & (root & Hroot & Hlimroot) & Hanc & Hca
        & _ & _ & _ & _ & Hw').
  assert (HdF : length (steps F) < fuel)
    by (eapply Nat.lt_le_trans; [eapply valid_depth; eassumption | exact Hfuel]).
  rewrite (findRootFeature_wf w fuel F rep Hpar HF HdF) in Hroot. injection Hroot as <-.
  apply isLimitedToSubtree_sound in Hlimroot.
  assert (Hvroot : is_Some (lookupRep w (rootPtr (base F)))).
  { apply (prefix_valid w (base F) [] (steps F)); [now exists (steps F) | destruct F; eauto]. }
  assert (Hsame : forall r, In (Some r) (featureRefs q) ->
                    is_Some (lookupRep w r) /\ base r = base F).
  { intros r Hr. specialize (Hlimroot r Hr). split; [eapply Reaches_valid; eassumption|].
    destruct (Reaches_descendant w r _ Hpar Hlimroot) as (sigma & ->). reflexivity. }
  rewrite (youngestAllowed_wf w F rep Hpar HF) in Hanc.
  rewrite findAncestorFeature_wf in Hanc; [|assumption | assumption | | exact Hsame].
  2:{ apply (prefix_valid w (base F) _ (steps F) (removelast_prefix _)). destruct F; eauto. }
  injection Hanc as Hcaeq. cbn [base steps] in Hcaeq.
  set (good := SlotAt ca (length (placementExpressions repca))) in *.
  destruct (placed_lookup w ca F
              (setOwner (cloneUnownedWithNewHandle q) (Some ca)
                 (Z.of_nat (length (placementExpressions repca)))) rep good HF)
    as (T & HT & HplT).
  rewrite <- Hw' in HT.
  exists rep, T, (cloned F h (rootPtr h) T), good.
  split; [exact HF|]. split; [exact HT|]. split; [exact HplT|].
  split; [apply clone_cloned; [assumption | assumption | assumption | lia]|].
  rewrite (cloned_unfold F h (rootPtr h) T). cbn [placement]. rewrite HplT.
  cbn [relocateSlotRef]. unfold relocateSlot, relocate. cbn [holder slot good].
  destruct (Hpar F rep HF) as [Hp _].
  destruct (parent rep) as [pp|] eqn:Hparent.
  - assert (Hnonempty : steps F <> []).
    { intros E0. unfold parentPtr in Hp. rewrite E0 in Hp. discriminate. }
    assert (Hshort : length (steps ca) < length (steps F)).
    { rewrite <- Hcaeq. cbn [steps].
      pose proof (ancestorDescent_bound (featureRefs q) (removelast (steps F))) as [k Hk].
      apply (f_equal length) in Hk. rewrite length_app in Hk.
      destruct (steps F) as [|x st _] using rev_ind; [congruence|].
      rewrite removelast_last in Hk |- *. rewrite length_app. cbn. lia. }
    split; [intros E; rewrite E in Hshort; lia|].
    destruct (below F ca) as [sigma|] eqn:Hb; [|reflexivity].
    apply below_Some in Hb. rewrite Hb in Hshort. unfold descendant in Hshort.
    cbn in Hshort. rewrite length_app in Hshort. lia.
  - assert (Hsteps : steps F = []).
    { destruct F as [b st]. unfold parentPtr in Hp. cbn in *. now destruct st. }
    assert (ca = F) as ->.
    { rewrite <- Hcaeq, Hsteps. cbn [removelast].
      pose proof (ancestorDescent_bound (featureRefs q) []) as Hpre.
      apply prefix_nil_inv in Hpre. rewrite Hpre. destruct F; cbn in *; congruence. }
    split; [reflexivity|]. now rewrite below_refl.
Qed.

Lemma place_then_clone_witness :
  exists rep T C good,
    lookupRep Scenario.world Scenario.pX = Some rep
    /\ lookupRep Scenario.placedWorld Scenario.pX = Some T /\ placement T = Some good
    /\ cloneWithoutParentOrExternalPlacements 3 Scenario.placedWorld Scenario.pX
         Scenario.hNew = Ok (<[Scenario.hNew := C]> Scenario.placedWorld)
    /\ placement C = None.
Proof.
  assert (E : place Scenario.noConversion 3 Scenario.world Scenario.pX Scenario.stationAtB
              = Ok Scenario.placedWorld) by (vm_compute; reflexivity).
  destruct (place_then_clone Scenario.noConversion 3 Scenario.world Scenario.pX
              Scenario.stationAtB Scenario.placedWorld Scenario.hNew)
    as (rep & T & C & good & H1 & H2 & H3 & H4 & H5).
  - reflexivity.
  - exact E.
  - intros rep q v [= <-] Hq Hv. vm_compute in Hq. injection Hq as <-. discriminate Hv.
  - vm_compute. reflexivity.
  - vm_compute. lia.
  - exists rep, T, C, good. split; [exact H1|]. split; [exact H2|]. split; [exact H3|].
    split; [exact H4|].
    assert (Some rep = Some Scenario.repX) as [= ->] by (rewrite <- H1; reflexivity).
    apply H5.
Defined.

(** *** The reparenting pass *)

Lemma mapM_from_decide {A B} (f : nat -> A -> Result B) (t : nat -> A -> bool)
    (g : nat -> A -> B) (l : list A) : forall i,
  (forall k x, l !! k = Some x ->
     f (i + k) x = if t (i + k) x then Ok (g (i + k) x) else AssertionFailed) ->
  mapM_from f i l = if forallb_from t i l then Ok (map_from g i l) else AssertionFailed.
Proof.
  induction l as [|a l IH]; intros i H; cbn [mapM_from forallb_from map_from];
    [reflexivity|].
  pose proof (H 0 a eq_refl) as H0. rewrite Nat.add_0_r in H0. rewrite H0.
  destruct (t i a); [|reflexivity]. rewrite bind_Ok_l, IH.
  - cbn [andb]. now destruct (forallb_from t (S i) l).
  - intros k x Hk. replace (S i + k) with (i + S k) by lia. now apply H.
Qed.

Lemma map_from_ext {A B} (f g : nat -> A -> B) (l : list A) : forall i,
  (forall k x, l !! k = Some x -> f (i + k) x = g (i + k) x) ->
  map_from f i l = map_from g i l.
Proof.
  induction l as [|a l IH]; intros i H; cbn; [reflexivity|].
  pose proof (H 0 a eq_refl) as H0. rewrite Nat.add_0_r in H0. rewrite H0. f_equal.
  apply IH. intros k x Hk. replace (S i + k) with (i + S k) by lia. now apply H.
Qed.

Lemma map_from_map_from {A B C} (f : nat -> B -> C) (g : nat -> A -> B) (l : list A) :
  forall i, map_from f i (map_from g i l) = map_from (fun k x => f k (g k x)) i l.
Proof. induction l as [|a l IH]; intros i; cbn; [reflexivity | now rewrite IH]. Qed.

Lemma reparentable_unfold (rep : FeatureRep) :
  reparentable rep =
    forallb_from (fun i c =>
        bool_decide (parent c <> None)
        && bool_decide (indexInParent c = Z.of_nat i)
        && reparentable c) 0 (subfeatures rep)
    && forallb_from (fun i p => stampable p i) 0 (placementExpressions rep)
    && forallb_from (fun i v => stampableValue v i) 0 (placementValues rep).
Proof. destruct rep; reflexivity. Qed.

Lemma stamped_children (me : FeaturePtr) (subs : list FeatureRep) : forall i,
  map_from (fun i c => setParentFeature (stamped (childPtr me i) c) (Some me) (Z.of_nat i))
    i subs
  = map_from (fun i c => stamped (childPtr me i) c) i subs.
Proof.
  intros i. apply map_from_ext. intros k c _.
  rewrite <- (parentPtr_child me (i + k)) at 1.
  rewrite <- (indexOf_child me (i + k)). now destruct c.
Qed.

Lemma reparentMyChildren_decide (rep : FeatureRep) : forall me,
  reparentMyChildren me rep =
    if reparentable rep
    then Ok (setParentFeature (stamped me rep) (parent rep) (indexInParent rep))
    else AssertionFailed.
Proof.
  induction rep as [rep IH] using FeatureRep_tree_ind. intros me.
  rewrite Forall_forall in IH.
  rewrite reparentMyChildren_unfold, reparentable_unfold.
  rewrite (mapM_from_decide _
             (fun i c => bool_decide (parent c <> None)
                         && bool_decide (indexInParent c = Z.of_nat i)
                         && reparentable c)
             (fun i c => setParentFeature (stamped (childPtr me i) c) (Some me)
                           (Z.of_nat i))).
  2:{ intros k c Hk. cbn [Nat.add].
      destruct (bool_decide (parent c <> None)); [|reflexivity].
      destruct (bool_decide (indexInParent c = Z.of_nat k)); [|reflexivity].
      cbn [assert andb]. rewrite !bind_Ok_l.
      rewrite (IH c (list_elem_of_lookup_2 _ _ _ Hk)).
      destruct (reparentable c); [|reflexivity].
      rewrite bind_Ok_l. now destruct (stamped (childPtr me k) c). }
  destruct (forallb_from _ 0 (subfeatures rep)); [|reflexivity].
  rewrite bind_Ok_l.
  rewrite (mapM_from_decide _ (fun i p => stampable p i)
             (fun j p => setOwner p (Some me) (Z.of_nat j))).
  2:{ intros k p _. cbn [Nat.add]. unfold stampPlacement, stampable.
      destruct (bool_decide (owner p <> None)); [|reflexivity].
      now destruct (bool_decide (indexInOwner p = Z.of_nat k)). }
  destruct (forallb_from _ 0 (placementExpressions rep)); [|reflexivity].
  rewrite bind_Ok_l.
  rewrite (mapM_from_decide _ (fun i v => stampableValue v i)
             (fun j v => setValueOwner v (Some me) (Z.of_nat j))).
  2:{ intros k v _. cbn [Nat.add]. unfold stampPlacementValue, stampableValue.
      destruct (bool_decide (valueOwner v <> None)); [|reflexivity].
      now destruct (bool_decide (valueIndexInOwner v = Z.of_nat k)). }
  destruct (forallb_from _ 0 (placementValues rep)); [|reflexivity].
  rewrite bind_Ok_l. cbn [andb]. rewrite stamped_children, (stamped_unfold me rep).
  reflexivity.
Qed.

Lemma stamped_stamped (rep : FeatureRep) : forall me me',
  stamped me' (stamped me rep) = stamped me' rep.
Proof.
  induction rep as [rep IH] using FeatureRep_tree_ind. intros me me'.
  rewrite Forall_forall in IH.
  rewrite (stamped_unfold me' (stamped me rep)), (stamped_unfold me rep),
    (stamped_unfold me' rep).
  cbn [name featureTypeName requiredPlacementType subfeatures placementExpressions
       placementValues placement].
  rewrite !map_from_map_from. f_equal.
  apply map_from_ext. intros k c Hk. apply IH. eapply list_elem_of_lookup_2, Hk.
Qed.

Lemma forallb_from_map_from {A B} (t : nat -> B -> bool) (g : nat -> A -> B) (l : list A) :
  forall i, forallb_from t i (map_from g i l) = forallb_from (fun k x => t k (g k x)) i l.
Proof. induction l as [|a l IH]; intros i; cbn; [reflexivity | now rewrite IH]. Qed.

Lemma reparentable_stamped (rep : FeatureRep) : forall me,
  reparentable (stamped me rep) = true.
Proof.
  induction rep as [rep IH] using FeatureRep_tree_ind. intros me.
  rewrite Forall_forall in IH.
  rewrite reparentable_unfold, (stamped_unfold me rep).
  cbn [subfeatures placementExpressions placementValues].
  rewrite !forallb_from_map_from, !andb_true_iff. repeat split.
  - apply forallb_from_intro. intros k c Hk. cbn [Nat.add].
    rewrite (IH c (list_elem_of_lookup_2 _ _ _ Hk)), (stamped_unfold (childPtr me k) c).
    cbn [parent indexInParent]. rewrite parentPtr_child, indexOf_child.
    repeat (rewrite bool_decide_eq_true_2; [|first [reflexivity | discriminate]]).
    reflexivity.
  - apply forallb_from_intro. intros k p _. unfold stampable. cbn.
    repeat (rewrite bool_decide_eq_true_2; [|first [reflexivity | discriminate]]).
    reflexivity.
  - apply forallb_from_intro. intros k v _. unfold stampableValue. cbn.
    repeat (rewrite bool_decide_eq_true_2; [|first [reflexivity | discriminate]]).
    reflexivity.
Qed.

Lemma reparentable_setParentFeature (rep : FeatureRep) ep ei :
  reparentable (setParentFeature rep ep ei) = reparentable rep.
Proof. now rewrite !reparentable_unfold. Qed.

(** X19: [reparentMyChildren] either fails one of its assertions, which
    it does exactly when below the node some child has no parent or a
    wrong index, or some owned placement or value has no owner or a wrong
    index, or returns the subtree stamped with the new addresses, the
    parent and index of the top node left alone.  A returned tree passes
    the pass again unchanged, and a pass with another handle gives on it
    what it gives on the original. *)
Theorem reparentMyChildren_spec (me : FeaturePtr) (rep : FeatureRep) :
  reparentMyChildren me rep
  = (if reparentable rep
     then Ok (setParentFeature (stamped me rep) (parent rep) (indexInParent rep))
     else AssertionFailed)
  /\ (forall r, reparentMyChildren me rep = Ok r ->
      reparentMyChildren me r = Ok r
      /\ forall me', reparentMyChildren me' r = reparentMyChildren me' rep).
Proof.
  split; [apply reparentMyChildren_decide|].
  intros r Hr. rewrite reparentMyChildren_decide in Hr.
  destruct (reparentable rep) eqn:Hok; [|discriminate]. injection Hr as <-.
  assert (Hagain : forall me',
            reparentMyChildren me'
              (setParentFeature (stamped me rep) (parent rep) (indexInParent rep))
            = Ok (setParentFeature (stamped me' rep) (parent rep) (indexInParent rep))).
  { intros me'. rewrite reparentMyChildren_decide, reparentable_setParentFeature,
      reparentable_stamped, stamped_setParentFeature, stamped_stamped.
    reflexivity. }
  split; [apply Hagain|].
  intros me'. now rewrite Hagain, reparentMyChildren_decide, Hok.
Qed.

(** *** Corresponding placements and values in a clone *)

(** X20: after the clone of the subtree under [this] into a fresh handle,
    [findCorrespondingPlacement] takes a placement expression stored in the
    old world under a Feature of the subtree to the slot of the same index
    under the corresponding Feature of the clone, which holds a placement
    of the same type whose references are the relocated ones; for a
    placement stored outside the subtree it answers null. *)
Theorem findCorrespondingPlacement_in_clone (fuel : nat) (w : World) (this : FeaturePtr)
    (T : FeatureRep) (h : handle) (pp : SlotPtr) (p : PlacementRep) :
  wfWorld w -> lookupRep w this = Some T -> w !! h = None -> worldHeight w <= fuel ->
  lookupPlacement w pp = Some p ->
  exists w',
    cloneWithoutParentOrExternalPlacements fuel w this h = Ok w'
    /\ findCorrespondingPlacement fuel w' this p (rootPtr h) = Ok (relocateSlot this h pp)
    /\ match relocateSlot this h pp with
       | Some pp' =>
           Reaches w (holder pp) this
           /\ base (holder pp') = h /\ slot pp' = slot pp
           /\ exists p',
                lookupPlacement w' pp' = Some p'
                /\ placementType p' = placementType p
                /\ featureRefs p' = map (relocateRef this h) (featureRefs p)
                /\ owner p' = Some (holder pp')
                /\ indexInOwner p' = Z.of_nat (slot pp')
       | None => ~ Reaches w (holder pp) this
       end.
Proof.
  intros Hwf Hthis Hfresh Hfuel Hp.
  pose proof (wfWorld_ParentsOK w Hwf) as Hpar.
  exists (<[h := cloned this h (rootPtr h) T]> w).
  split; [now apply clone_cloned|].
  split.
  { apply (findCorrespondingPlacement_clone w this T h fuel Hwf Hthis Hfresh Hfuel
             (cloned this h) _ (cloned_descend_root this T h) (cloned_parent this h)
             (cloned_placements this h) pp p Hp). }
  unfold lookupPlacement in Hp.
  destruct (lookupRep w (holder pp)) as [n|] eqn:Hn; [|discriminate].
  unfold relocateSlot, relocate.
  destruct (below this (holder pp)) as [sigma|] eqn:Hb.
  - apply below_Some in Hb.
    split; [rewrite Hb; apply descendant_Reaches; [exact Hpar | rewrite <- Hb; eauto]|].
    split; [reflexivity|]. split; [reflexivity|].
    exists (relocatePlacement this h (FeatureAt h sigma) (slot pp) p).
    split; [|repeat split].
    unfold lookupPlacement. cbn [holder slot]. rewrite lookupRep_w2_new.
    rewrite <- (lookupRep_under w this T Hthis sigma), <- Hb, Hn. cbn [fmap option_fmap option_map].
    rewrite (cloned_unfold this h (FeatureAt h sigma) n). cbn [placementExpressions].
    rewrite map_from_lookup, Hp. reflexivity.
  - intros HR. destruct (Reaches_descendant w _ this Hpar HR) as (sigma & E).
    apply below_Some in E. congruence.
Qed.

Lemma findCorrespondingPlacement_in_clone_witness :
  exists w',
    cloneWithoutParentOrExternalPlacements 3 Scenario.placedWorld Scenario.pRoot
      Scenario.hNew = Ok w'
    /\ findCorrespondingPlacement 3 w' Scenario.pRoot
         (mkPlacementRep StationPlacementType [Some Scenario.pB] None
            (Some Scenario.pRoot) 0)
         (rootPtr Scenario.hNew)
       = Ok (Some (SlotAt (rootPtr Scenario.hNew) 0)).
Proof.
  destruct (findCorrespondingPlacement_in_clone 3 Scenario.placedWorld Scenario.pRoot
              (mkFeatureRep "Root" "Frame" FramePlacementType None (-1)
                 [Scenario.repB;
                  mkFeatureRep "A" "Frame" FramePlacementType (Some Scenario.pRoot) 1
                    [mkFeatureRep "X" "Station" StationPlacementType (Some Scenario.pA) 0
                       [] [] [] (Some (SlotAt Scenario.pRoot 0))] [] [] None]
                 [mkPlacementRep StationPlacementType [Some Scenario.pB] None
                    (Some Scenario.pRoot) 0] [] None)
              Scenario.hNew (SlotAt Scenario.pRoot 0)
              (mkPlacementRep StationPlacementType [Some Scenario.pB] None
                 (Some Scenario.pRoot) 0))
    as (w' & H1 & H2 & _).
  - vm_compute. reflexivity.
  - vm_compute. reflexivity.
  - vm_compute. reflexivity.
  - vm_compute. lia.
  - vm_compute. reflexivity.
  - exists w'. split; [exact H1 | exact H2].
Defined.

(** X21: after the clone of the subtree under [this] into a fresh handle,
    [findCorrespondingPlacementValue] takes a placement value stored in the
    old world under a Feature of the subtree to the value slot of the same
    index under the corresponding Feature of the clone; for a value stored
    outside the subtree it answers null. *)
Theorem findCorrespondingPlacementValue_in_clone (fuel : nat) (w : World)
    (this : FeaturePtr) (T : FeatureRep) (h : handle) (vp : SlotPtr)
    (v : PlacementValueRep) :
  wfWorld w -> lookupRep w this = Some T -> w !! h = None -> worldHeight w <= fuel ->
  lookupPlacementValue w vp = Some v ->
  exists w',
    cloneWithoutParentOrExternalPlacements fuel w this h = Ok w'
    /\ findCorrespondingPlacementValue fuel w' this v (rootPtr h)
       = Ok (relocateSlot this h vp)
    /\ match relocateSlot this h vp with
       | Some vp' =>
           Reaches w (holder vp) this
           /\ base (holder vp') = h /\ slot vp' = slot vp
           /\ lookupPlacementValue w' vp'
              = Some (mkPlacementValueRep (Some (holder vp')) (Z.of_nat (slot vp')))
       | None => ~ Reaches w (holder vp) this
       end.
Proof.
  intros Hwf Hthis Hfresh Hfuel Hv.
  pose proof (wfWorld_ParentsOK w Hwf) as Hpar.
  exists (<[h := cloned this h (rootPtr h) T]> w).
  split; [now apply clone_cloned|].
  split.
  { apply (findCorrespondingPlacementValue_clone w this T h fuel Hwf Hthis Hfresh Hfuel
             (cloned this h) _ (cloned_descend_root this T h) (cloned_parent this h)
             (cloned_values this h) vp v Hv). }
  unfold lookupPlacementValue in Hv.
  destruct (lookupRep w (holder vp)) as [n|] eqn:Hn; [|discriminate].
  unfold relocateSlot, relocate.
  destruct (below this (holder vp)) as [sigma|] eqn:Hb.
  - apply below_Some in Hb.
    split; [rewrite Hb; apply descendant_Reaches; [exact Hpar | rewrite <- Hb; eauto]|].
    split; [reflexivity|]. split; [reflexivity|].
    unfold lookupPlacementValue. cbn [holder slot]. rewrite lookupRep_w2_new.
    rewrite <- (lookupRep_under w this T Hthis sigma), <- Hb, Hn. cbn [fmap option_fmap option_map].
    rewrite (cloned_unfold this h (FeatureAt h sigma) n). cbn [placementValues].
    rewrite map_from_lookup, Hv. reflexivity.
  - intros HR. destruct (Reaches_descendant w _ this Hpar HR) as (sigma & E).
    apply below_Some in E. congruence.
Qed.

Lemma findCorrespondingPlacementValue_in_clone_witness :
  exists w',
    cloneWithoutParentOrExternalPlacements 3 Forest.valuedWorld Scenario.pA Scenario.hNew
      = Ok w'
    /\ findCorrespondingPlacementValue 3 w' Scenario.pA Forest.valueAtA
         (rootPtr Scenario.hNew)
       = Ok (Some (SlotAt (rootPtr Scenario.hNew) 0)).
Proof.
  destruct (findCorrespondingPlacementValue_in_clone 3 Forest.valuedWorld Scenario.pA
              Forest.repAValued Scenario.hNew (SlotAt Scenario.pA 0) Forest.valueAtA)
    as (w' & H1 & H2 & _).
  - vm_compute. reflexivity.
  - vm_compute. reflexivity.
  - vm_compute. reflexivity.
  - vm_compute. lia.
  - vm_compute. reflexivity.
  - exists w'. split; [exact H1 | exact H2].
Defined.

(** *** Names in a clone *)

Lemma pathNames_cloned (this : FeaturePtr) (h : handle) (sigma : list nat) : forall me rep,
  pathNames (cloned this h me rep) sigma = pathNames rep sigma.
Proof.
  induction sigma as [|i sigma IH]; intros me rep;
    rewrite (cloned_unfold this h me rep); cbn [pathNames name subfeatures];
    [reflexivity|].
  rewrite map_from_lookup. destruct (subfeatures rep !! i) as [c|]; [|reflexivity].
  cbn. now rewrite IH.
Qed.

Lemma pathNames_app (pi : list nat) : forall rep n sigma,
  descend rep pi = Some n ->
  pathNames rep (pi ++ sigma) = removelast (pathNames rep pi) ++ pathNames n sigma.
Proof.
  induction pi as [|i pi IH]; intros rep n sigma Hd.
  - injection Hd as <-. cbn [app pathNames removelast]. now destruct sigma.
  - cbn [descend] in Hd. cbn [app pathNames].
    destruct (subfeatures rep !! i) as [c|]; [|discriminate].
    rewrite (IH c n sigma Hd).
    destruct (pathNames c pi) eqn:E; [now apply pathNames_nonempty in E|].
    reflexivity.
Qed.

(** X22: the clone keeps the names: in the world after the clone the full
    name of the Feature of the clone at a descent is made of the names met
    on that descent from [this], and the full name of the Feature of the
    original at the same descent is made of the names above [this] followed
    by the same names. *)
Theorem getFullName_in_clone (fuel : nat) (w : World) (this : FeaturePtr)
    (T n : FeatureRep) (h : handle) (sigma : list nat) :
  wfWorld w -> lookupRep w this = Some T -> w !! h = None -> worldHeight w <= fuel ->
  descend T sigma = Some n ->
  exists w',
    cloneWithoutParentOrExternalPlacements fuel w this h = Ok w'
    /\ getFullName fuel w' (FeatureAt h sigma) = Ok (joinWithSlash (pathNames T sigma))
    /\ getFullName fuel w' (descendant this sigma)
       = Ok (joinWithSlash (removelast (namesTo w this) ++ pathNames T sigma))
    /\ getFullName fuel w (descendant this sigma)
       = getFullName fuel w' (descendant this sigma).
Proof.
  intros Hwf Hthis Hfresh Hfuel Hn.
  pose proof (wfWorld_ParentsOK w Hwf) as Hpar.
  pose proof (ParentsOK_w2 w this T h Hwf) as Hpar2.
  exists (<[h := cloned this h (rootPtr h) T]> w).
  split; [now apply clone_cloned|].
  assert (Hold : lookupRep w (descendant this sigma) = Some n)
    by now rewrite (lookupRep_under w this T Hthis).
  pose proof (valid_depth w _ n Hold) as Hdepth. cbn [descendant steps] in Hdepth.
  rewrite length_app in Hdepth.
  assert (Hnames : namesTo w (descendant this sigma)
                   = removelast (namesTo w this) ++ pathNames T sigma).
  { unfold namesTo, lookupRep in *. cbn [descendant base steps].
    destruct (w !! base this) as [R|]; [|discriminate].
    now apply pathNames_app. }
  assert (Hfull : getFullName fuel w (descendant this sigma)
                  = Ok (joinWithSlash (removelast (namesTo w this) ++ pathNames T sigma))).
  { rewrite <- Hnames.
    apply (getFullName_wf w (base this) (steps this ++ sigma) fuel n Hpar Hold).
    rewrite length_app. lia. }
  assert (Hfull2 : getFullName fuel (<[h := cloned this h (rootPtr h) T]> w)
                     (descendant this sigma)
                   = Ok (joinWithSlash (removelast (namesTo w this) ++ pathNames T sigma))).
  { change (descendant this sigma) with (FeatureAt (base this) (steps this ++ sigma)).
    rewrite (getFullName_wf _ (base this) (steps this ++ sigma) fuel n Hpar2).
    - f_equal. f_equal. rewrite <- Hnames. unfold namesTo. cbn [descendant base steps].
      rewrite lookup_insert_ne; [reflexivity|].
      intros E. apply (fresh_base w h Hfresh this); [eauto | now symmetry].
    - now apply lookupRep_old_valid.
    - rewrite length_app. lia. }
  split; [|split; [exact Hfull2 | now rewrite Hfull, Hfull2]].
  rewrite (getFullName_wf _ h sigma fuel (cloned this h (FeatureAt h sigma) n) Hpar2).
  - unfold namesTo. cbn [base steps]. rewrite lookup_insert_eq.
    now rewrite pathNames_cloned.
  - rewrite lookupRep_w2_new, Hn. reflexivity.
  - lia.
Qed.

Lemma getFullName_in_clone_witness :
  exists w',
    cloneWithoutParentOrExternalPlacements 3 Scenario.world Scenario.pA Scenario.hNew
      = Ok w'
    /\ getFullName 3 w' (FeatureAt Scenario.hNew [0]) = Ok "A/X"%string
    /\ getFullName 3 w' Scenario.pX = Ok "Root/A/X"%string.
Proof.
  destruct (getFullName_in_clone 3 Scenario.world Scenario.pA Scenario.repA Scenario.repX
              Scenario.hNew [0])
    as (w' & H1 & H2 & H3 & _).
  - reflexivity.
  - reflexivity.
  - reflexivity.
  - vm_compute. lia.
  - reflexivity.
  - exists w'. split; [exact H1|]. split; [exact H2 | exact H3].
Defined.

End TreeFacts.
